(** * Repository layer of the blog backend (storage.js over the relational schema)

    The development embeds [DatabaseStorage] (storage.js) together with the
    tables it runs against (the [pgTable] declarations of the schema file).
    A store is four tables of rows.  Every storage method is one statement of
    the query builder; the builder's clauses ([from], [leftJoin], [where],
    [orderBy], [limit], [offset], [insert ... onConflictDoUpdate], [update ...
    set], [delete], [returning]) are given their SQL meaning as list
    functions, and the methods are written clause by clause on top of them.
    A method begins with what the builder, the driver and the store make of
    its arguments: a parameter the store cannot read rejects the promise.

    Conventions.
    - A nullable column is an [option]; a timestamp is the number of
      milliseconds since the epoch, a [Z].  A [Date] handed in by the caller
      travels in ISO form, which the store reads for the years 1 to 9999.
    - A key that a JavaScript object may leave out ([undefined]) is a
      [field]: [Omitted] or [Supplied v].
    - An [async] method yields an [outcome]: the promise is [Resolved] with a
      value or [Rejected] with the failure.
    - The clock ([new Date()], [now()]) and the identifier generator
      ([gen_random_uuid()]) are arguments of the methods that consult them.
    - A JavaScript [number] is a rational, an infinity or [NaN]; [limit] and
      [offset] are such numbers, and an argument left out is [None] and takes
      the default of the parameter.
    - A [string] holds the UTF-8 bytes of a text; [Text.chars] cuts it into
      its characters.  The store takes no text that holds the NUL character
      and bounds [title] to 255 characters.  Case is folded as the locale of
      the database folds it, character by character: the argument [fold] of
      the search methods.
    - SQL fixes the order of rows only as far as [ORDER BY] does.  The order
      in which an execution meets the rows of a table is the argument [sc]
      of the read methods, a rearrangement of the table ([fair]).  It
      belongs to one execution of one statement: the store picks it by the
      plan, and with it by [LIMIT] and [OFFSET], so two executions share
      none, not even over an unchanged table. *)

From Stdlib Require Import List String Ascii Bool ZArith Arith Lia QArith_base.
From Stdlib Require Import Permutation Sorted.
Import ListNotations.

Close Scope Q_scope.
Local Open Scope string_scope.
Local Open Scope list_scope.

Set Implicit Arguments.

(** ** Outcomes of a store round trip *)

Inductive failure : Type :=
| UniqueViolation
| ForeignKeyViolation
| InvalidEscapeSequence
| InvalidByteSequence
| StringDataRightTruncation
| InvalidTextRepresentation
| NumericValueOutOfRange
| InvalidRowCount
| InvalidDatetime.

Inductive outcome (A : Type) : Type :=
| Resolved (a : A)
| Rejected (e : failure).

Arguments Resolved {A} a.
Arguments Rejected {A} e.

(** [await]: the rest of the method runs on the value of a resolved promise;
    a rejection is passed on. *)
Definition bind {A B : Type} (o : outcome A) (k : A -> outcome B) : outcome B :=
  match o with
  | Resolved a => k a
  | Rejected e => Rejected e
  end.

Notation "x <- o ;; k" := (bind o (fun x => k))
  (at level 61, o at next level, right associativity).

(** A key of a JavaScript object: left out, or present with a value. *)
Inductive field (A : Type) : Type :=
| Omitted
| Supplied (v : A).

Arguments Omitted {A}.
Arguments Supplied {A} v.

(** [{ ...old, key: f }] read at [key]: a supplied value wins. *)
Definition spread {A : Type} (f : field A) (old : A) : A :=
  match f with
  | Omitted => old
  | Supplied v => v
  end.

(** A nullable column whose key was left out of an insert is [NULL] unless
    the column declares a default. *)
Definition or_null {A : Type} (f : field (option A)) : option A :=
  spread f None.

(** ** JavaScript numbers

    The arguments [limit] and [offset] are of type [number]: a finite value,
    here a rational, or one of [Infinity], [-Infinity] and [NaN]. *)

Inductive number : Type :=
| Finite (q : Q)
| Infinity (negative : bool)
| NaN.

(** The number that is the integer [z]. *)
Definition whole (z : Z) : number := Finite (Qmake z 1).

Module Number.

Definition integral (q : Q) : bool :=
  (Qnum q mod Zpos (Qden q) =? 0)%Z.

Definition floor (q : Q) : Z := (Qnum q / Zpos (Qden q))%Z.

(** [x >= 0] *)
Definition ge0 (x : number) : bool :=
  match x with
  | Finite q => (0 <=? Qnum q)%Z
  | Infinity negative => negb negative
  | NaN => false
  end.

(** [x ? ... : ...]: zero and [NaN] are falsy. *)
Definition truthy (x : number) : bool :=
  match x with
  | Finite q => negb (Qnum q =? 0)%Z
  | Infinity _ => true
  | NaN => false
  end.

End Number.

(** ** Text

    A string holds the bytes of a text in UTF-8.  A byte [10xxxxxx] continues
    the character begun by the byte before it; every other byte begins a
    character. *)

Module Text.

Definition nul : ascii := Ascii.zero.

Fixpoint has_nul (s : string) : bool :=
  match s with
  | EmptyString => false
  | String b rest => Ascii.eqb b nul || has_nul rest
  end.

Definition continuation (b : ascii) : bool :=
  match b with
  | Ascii _ _ _ _ _ _ b6 b7 => b7 && negb b6
  end.

Definition single (b : ascii) : bool :=
  match b with
  | Ascii _ _ _ _ _ _ _ b7 => negb b7
  end.

(** The text goes on with a continuation byte. *)
Definition continues (s : string) : bool :=
  match s with
  | String b _ => continuation b
  | EmptyString => false
  end.

(** The characters of a text, each the string of its bytes. *)
Fixpoint chars (s : string) : list string :=
  match s with
  | EmptyString => []
  | String b rest =>
      match chars rest with
      | c :: cs =>
          if negb (single b) && continues rest
          then String b c :: cs
          else String b EmptyString :: c :: cs
      | [] => [String b EmptyString]
      end
  end.

(** The length of a text, in characters. *)
Definition length (s : string) : nat := List.length (chars s).

End Text.

Definition timestamp : Type := Z.

(** ** What the store reads of a parameter *)

Module Pg.

(** A text parameter is taken unless it holds the NUL character. *)
Definition text (s : string) : bool := negb (Text.has_nul s).

Definition space : string := " ".

(** A value assigned to a [varchar(n)] column: one of more than [n]
    characters is refused, unless what exceeds the bound is spaces only,
    which are cut off. *)
Definition varchar (n : nat) (s : string) : outcome string :=
  let cs := Text.chars s in
  if (List.length cs <=? n)%nat then Resolved s
  else if forallb (String.eqb space) (skipn n cs)
       then Resolved (String.concat "" (firstn n cs))
       else Rejected StringDataRightTruncation.

(** [{ ...patch }] with a [varchar(n)] key: checked when supplied. *)
Definition varchar_field (n : nat) (f : field string) : outcome (field string) :=
  match f with
  | Omitted => Resolved Omitted
  | Supplied s => s' <- varchar n s ;; Resolved (Supplied s')
  end.

(** A [Date] is sent as [toISOString()] writes it.  The store reads the
    four-digit years of that form, 0001 to 9999. *)
Definition first_instant : Z := (-62135596800000)%Z.
Definition last_instant : Z := 253402300799999%Z.

Definition date (t : timestamp) : bool :=
  (first_instant <=? t)%Z && (t <=? last_instant)%Z.

(** A number is sent as [String(x)] and read as a [bigint]: the text must
    be an integer literal (below 10^21 a whole number is written in digits,
    above in exponent form) and lie in the range of 64 bits. *)
Definition bigint (x : number) : outcome Z :=
  match x with
  | Finite q =>
      let z := Number.floor q in
      if Number.integral q && (Z.abs z <? 10 ^ 21)%Z
      then if (- 2 ^ 63 <=? z)%Z && (z <? 2 ^ 63)%Z
           then Resolved z
           else Rejected NumericValueOutOfRange
      else Rejected InvalidTextRepresentation
  | _ => Rejected InvalidTextRepresentation
  end.

End Pg.

(** ** SQL conditions: three-valued logic

    A condition is [Some true], [Some false] or [None] (unknown); [where]
    keeps the rows whose condition is [Some true]. *)

Module Sql.

Definition cond : Type := option bool.

Definition eq_ {A : Type} (eqb : A -> A -> bool) (x y : option A) : cond :=
  match x, y with
  | Some a, Some b => Some (eqb a b)
  | _, _ => None
  end.

Definition and_ (a b : cond) : cond :=
  match a, b with
  | Some false, _ | _, Some false => Some false
  | Some true, Some true => Some true
  | _, _ => None
  end.

Definition or_ (a b : cond) : cond :=
  match a, b with
  | Some true, _ | _, Some true => Some true
  | Some false, Some false => Some false
  | _, _ => None
  end.

Definition holds (c : cond) : bool :=
  match c with
  | Some true => true
  | _ => false
  end.

End Sql.

(** ** LIKE patterns

  [ilike(col, `%${query}%`)] hands the interpolated text to the store as a
  LIKE pattern: [%] stands for any run of characters, [_] for any one
  character, and a backslash makes the next character literal.  A pattern
  must not end in a lone backslash.  ILIKE lower-cases the pattern and the
  column, as the locale of the database does it, and matches what it gets. *)

Module Like.

Inductive token : Type :=
| AnyRun
| AnyOne
| Lit (c : string).

Definition percent : string := "%".
Definition underscore : string := "_".
Definition backslash : string := "\".

Definition is_meta (c : string) : bool :=
  String.eqb c percent || String.eqb c underscore || String.eqb c backslash.

Fixpoint compile (p : list string) : option (list token) :=
  match p with
  | [] => Some []
  | c :: rest =>
      if String.eqb c backslash then
        match rest with
        | [] => None
        | d :: rest' => option_map (cons (Lit d)) (compile rest')
        end
      else if String.eqb c percent then option_map (cons AnyRun) (compile rest)
      else if String.eqb c underscore then option_map (cons AnyOne) (compile rest)
      else option_map (cons (Lit c)) (compile rest)
  end.

Fixpoint matches (p : list token) : list string -> bool :=
  match p with
  | [] => fun s => match s with [] => true | _ :: _ => false end
  | Lit c :: p' =>
      fun s => match s with
               | [] => false
               | x :: s' => String.eqb x c && matches p' s'
               end
  | AnyOne :: p' =>
      fun s => match s with
               | [] => false
               | _ :: s' => matches p' s'
               end
  | AnyRun :: p' =>
      fix run (s : list string) : bool :=
        matches p' s || match s with
                        | [] => false
                        | _ :: s' => run s'
                        end
  end.

(** The lower-case form of a character in the locale of the database. *)
Definition folding : Type := string -> string.

Definition lower (fold : folding) (s : list string) : list string :=
  map fold s.

(** The folding of a locale that knows the letters A to Z only. *)
Definition fold_ascii : folding :=
  fun c =>
    match c with
    | String b EmptyString =>
        let n := nat_of_ascii b in
        if ((65 <=? n)%nat && (n <=? 90)%nat)%bool
        then String (ascii_of_nat (n + 32)) EmptyString
        else c
    | _ => c
    end.

(** [col ILIKE pat] for a compiled, case-folded pattern; [NULL] columns
    give unknown. *)
Definition ilike (fold : folding) (col : option string) (pat : list token)
    : Sql.cond :=
  match col with
  | None => None
  | Some s => Some (matches pat (lower fold (Text.chars s)))
  end.

(** The pattern [`%${query}%`], case-folded and compiled. *)
Definition contains_pattern (fold : folding) (query : string)
    : option (list token) :=
  compile (lower fold (Text.chars (percent ++ query ++ percent))).

(** Case-insensitive substring, the relation the pattern is meant to
    decide. *)
Definition ci_substring (fold : folding) (q s : string) : Prop :=
  exists pre post,
    lower fold (Text.chars s) = pre ++ lower fold (Text.chars q) ++ post.

Definition meta_free (q : string) : bool :=
  forallb (fun c => negb (is_meta c)) (Text.chars q).

(** What every locale's folding does: it leaves [%] alone and makes no
    pattern character out of another character. *)
Definition regular (fold : folding) : Prop :=
  fold percent = percent
  /\ forall c, is_meta c = false -> is_meta (fold c) = false.

End Like.

(** ** The schema: one record per table row

    Field names are the property names of the [pgTable] declarations.  A
    column declared [.notNull()] has a plain type, any other column is
    nullable. *)

Module User.
Record t : Type := mk {
  id : string;
  email : option string;
  firstName : option string;
  lastName : option string;
  profileImageUrl : option string;
  role : option string;
  createdAt : option timestamp;
  updatedAt : option timestamp
}.
End User.

(** [UpsertUser = typeof users.$inferInsert]: every column is a key of the
    insert shape, each optional because each has a default or is nullable. *)
Module UpsertUser.
Record t : Type := mk {
  id : field string;
  email : field (option string);
  firstName : field (option string);
  lastName : field (option string);
  profileImageUrl : field (option string);
  role : field (option string);
  createdAt : field (option timestamp);
  updatedAt : field (option timestamp)
}.
End UpsertUser.

Module Post.
Record t : Type := mk {
  id : string;
  title : string;
  content : string;
  excerpt : option string;
  imageUrl : option string;
  category : string;
  tags : option (list string);
  authorId : string;
  published : option bool;
  createdAt : option timestamp;
  updatedAt : option timestamp
}.
End Post.

(** [InsertPost]: the insert shape with [id], [createdAt] and [updatedAt]
    omitted. *)
Module InsertPost.
Record t : Type := mk {
  title : string;
  content : string;
  excerpt : field (option string);
  imageUrl : field (option string);
  category : string;
  tags : field (option (list string));
  authorId : string;
  published : field (option bool)
}.
End InsertPost.

(** [Partial<InsertPost>]: every key of [InsertPost] may be left out. *)
Module PartialPost.
Record t : Type := mk {
  title : field string;
  content : field string;
  excerpt : field (option string);
  imageUrl : field (option string);
  category : field string;
  tags : field (option (list string));
  authorId : field string;
  published : field (option bool)
}.
End PartialPost.

Module Video.
Record t : Type := mk {
  id : string;
  title : string;
  description : option string;
  videoUrl : string;
  thumbnailUrl : option string;
  category : string;
  tags : option (list string);
  duration : option string;
  authorId : string;
  published : option bool;
  createdAt : option timestamp;
  updatedAt : option timestamp
}.
End Video.

Module InsertVideo.
Record t : Type := mk {
  title : string;
  description : field (option string);
  videoUrl : string;
  thumbnailUrl : field (option string);
  category : string;
  tags : field (option (list string));
  duration : field (option string);
  authorId : string;
  published : field (option bool)
}.
End InsertVideo.

Module PartialVideo.
Record t : Type := mk {
  title : field string;
  description : field (option string);
  videoUrl : field string;
  thumbnailUrl : field (option string);
  category : field string;
  tags : field (option (list string));
  duration : field (option string);
  authorId : field string;
  published : field (option bool)
}.
End PartialVideo.

Module Comment.
Record t : Type := mk {
  id : string;
  content : string;
  authorId : string;
  postId : option string;
  videoId : option string;
  createdAt : option timestamp;
  updatedAt : option timestamp
}.
End Comment.

Module InsertComment.
Record t : Type := mk {
  content : string;
  authorId : string;
  postId : field (option string);
  videoId : field (option string)
}.
End InsertComment.

(** [PostWithAuthor], [VideoWithAuthor], [CommentWithAuthor]: the entity's
    own columns ([...row.posts]) and the [author] key.  The declared type of
    [author] is [User]; the value put there is whatever the left join
    produced, so the embedding keeps it nullable. *)
Record WithAuthor (E : Type) : Type := mkWithAuthor {
  entity : E;
  author : option User.t
}.

Arguments mkWithAuthor {E} entity author.
Arguments entity {E} w.
Arguments author {E} w.

Definition PostWithAuthor : Type := WithAuthor Post.t.
Definition VideoWithAuthor : Type := WithAuthor Video.t.
Definition CommentWithAuthor : Type := WithAuthor Comment.t.

(** ** The store *)

Record Store : Type := mkStore {
  users : list User.t;
  posts : list Post.t;
  videos : list Video.t;
  comments : list Comment.t
}.


(** The order in which one execution of a statement meets the rows of a
    table.  The store is free in it: it follows the plan, the layout of the
    table and, where a bounded sort is used, [LIMIT] and [OFFSET].  Every
    call of a read method has its own. *)
Definition scan_order (A : Type) : Type := list A -> list A.

Definition fair {A : Type} (sc : scan_order A) : Prop :=
  forall l, Permutation (sc l) l.

Definition stored_order {A : Type} : scan_order A := fun l => l.

(** ** The text parameters of the write statements

    In the order of the columns; a key left out, and a NULL, send no text. *)

Definition opt_text (x : option string) : list string :=
  match x with
  | Some s => [s]
  | None => []
  end.

Definition field_texts {A : Type} (texts : A -> list string) (f : field A)
    : list string :=
  match f with
  | Supplied v => texts v
  | Omitted => []
  end.

Definition plain (s : string) : list string := [s].

Definition tag_texts (tags : option (list string)) : list string :=
  match tags with
  | Some l => l
  | None => []
  end.

Definition user_texts (d : UpsertUser.t) : list string :=
  field_texts plain (UpsertUser.id d)
  ++ field_texts opt_text (UpsertUser.email d)
  ++ field_texts opt_text (UpsertUser.firstName d)
  ++ field_texts opt_text (UpsertUser.lastName d)
  ++ field_texts opt_text (UpsertUser.profileImageUrl d)
  ++ field_texts opt_text (UpsertUser.role d).

Definition opt_date (x : option timestamp) : list timestamp :=
  match x with
  | Some t => [t]
  | None => []
  end.

Definition field_dates (f : field (option timestamp)) : list timestamp :=
  match f with
  | Supplied v => opt_date v
  | Omitted => []
  end.

(** The [Date] values among the keys of [UpsertUser]. *)
Definition user_dates (d : UpsertUser.t) : list timestamp :=
  field_dates (UpsertUser.createdAt d) ++ field_dates (UpsertUser.updatedAt d).

Definition post_texts (p : InsertPost.t) : list string :=
  [InsertPost.title p; InsertPost.content p]
  ++ field_texts opt_text (InsertPost.excerpt p)
  ++ field_texts opt_text (InsertPost.imageUrl p)
  ++ [InsertPost.category p]
  ++ field_texts tag_texts (InsertPost.tags p)
  ++ [InsertPost.authorId p].

Definition post_patch_texts (p : PartialPost.t) : list string :=
  field_texts plain (PartialPost.title p)
  ++ field_texts plain (PartialPost.content p)
  ++ field_texts opt_text (PartialPost.excerpt p)
  ++ field_texts opt_text (PartialPost.imageUrl p)
  ++ field_texts plain (PartialPost.category p)
  ++ field_texts tag_texts (PartialPost.tags p)
  ++ field_texts plain (PartialPost.authorId p).

Definition video_texts (v : InsertVideo.t) : list string :=
  [InsertVideo.title v]
  ++ field_texts opt_text (InsertVideo.description v)
  ++ [InsertVideo.videoUrl v]
  ++ field_texts opt_text (InsertVideo.thumbnailUrl v)
  ++ [InsertVideo.category v]
  ++ field_texts tag_texts (InsertVideo.tags v)
  ++ field_texts opt_text (InsertVideo.duration v)
  ++ [InsertVideo.authorId v].

Definition video_patch_texts (v : PartialVideo.t) : list string :=
  field_texts plain (PartialVideo.title v)
  ++ field_texts opt_text (PartialVideo.description v)
  ++ field_texts plain (PartialVideo.videoUrl v)
  ++ field_texts opt_text (PartialVideo.thumbnailUrl v)
  ++ field_texts plain (PartialVideo.category v)
  ++ field_texts tag_texts (PartialVideo.tags v)
  ++ field_texts opt_text (PartialVideo.duration v)
  ++ field_texts plain (PartialVideo.authorId v).

Definition comment_texts (c : InsertComment.t) : list string :=
  [InsertComment.content c; InsertComment.authorId c]
  ++ field_texts opt_text (InsertComment.postId c)
  ++ field_texts opt_text (InsertComment.videoId c).

(** ** Clauses of the query builder *)

Module Query.

Definition from {A : Type} (sc : scan_order A) (table : list A) : list A :=
  sc table.

(** A left join keeps every left row: once per matching right row, or once
    with no right side when nothing matches. *)
Definition leftJoin {A B : Type} (rows : list A) (right : list B)
    (on : A -> B -> Sql.cond) : list (A * option B) :=
  flat_map
    (fun a =>
       match filter (fun b => Sql.holds (on a b)) right with
       | [] => [(a, None)]
       | bs => map (fun b => (a, Some b)) bs
       end)
    rows.

Definition where_ {R : Type} (rows : list R) (c : R -> Sql.cond) : list R :=
  filter (fun r => Sql.holds (c r)) rows.

(** [desc(col)]: [a] may stand before [b].  The store sorts NULL as larger
    than every value, so under DESC the NULLs come first. *)
Definition desc (a b : option timestamp) : bool :=
  match a, b with
  | None, _ => true
  | Some _, None => false
  | Some x, Some y => (y <=? x)%Z
  end.

Fixpoint insert_sorted {R : Type} (le : R -> R -> bool) (x : R)
    (l : list R) : list R :=
  match l with
  | [] => [x]
  | y :: l' => if le x y then x :: l else y :: insert_sorted le x l'
  end.

(** [orderBy]: the rows sorted on the key.  Rows with equal keys come out as
    the execution met them, which, the scan order being free, is any order
    ([orderBy_any_tie_order]). *)
Definition orderBy {R : Type} (rows : list R) (key : R -> option timestamp)
    : list R :=
  fold_right (insert_sorted (fun a b => desc (key a) (key b))) [] rows.

(** [.limit(n)]: the builder writes [LIMIT] only for [n >= 0]; the store
    reads the parameter as a bigint.  [None] is a statement without the
    clause. *)
Definition limit_clause (n : number) : outcome (option nat) :=
  if Number.ge0 n
  then z <- Pg.bigint n ;; Resolved (Some (Z.to_nat z))
  else Resolved None.

(** [.offset(n)]: the builder writes [OFFSET] only for a truthy [n]; the
    store reads the parameter as a bigint and takes no negative one. *)
Definition offset_clause (n : number) : outcome (option nat) :=
  if Number.truthy n
  then z <- Pg.bigint n ;;
       if (z <? 0)%Z then Rejected InvalidRowCount
       else Resolved (Some (Z.to_nat z))
  else Resolved None.

Definition limit {R : Type} (clause : option nat) (rows : list R) : list R :=
  match clause with
  | Some n => firstn n rows
  | None => rows
  end.

Definition offset {R : Type} (clause : option nat) (rows : list R) : list R :=
  match clause with
  | Some n => skipn n rows
  | None => rows
  end.

(** [const [x] = rows]: the first row, or [undefined]. *)
Definition first {R : Type} (rows : list R) : option R := hd_error rows.

End Query.

(** [x!]: the non-null assertion is a compile-time annotation; at run time
    the expression is [x]. *)
Definition non_null {A : Type} (x : option A) : option A := x.

(** [row => ({ ...row.posts, author: row.users! })] *)
Definition withAuthor {E : Type} (row : E * option User.t) : WithAuthor E :=
  {| entity := fst row; author := non_null (snd row) |}.

(** [limit = 20, offset = 0]: a default parameter is used when the argument
    is left out. *)
Definition param {A : Type} (default : A) (arg : option A) : A :=
  match arg with
  | Some v => v
  | None => default
  end.

(** ** Join and filter conditions used by the methods *)

Definition str_eq (x y : option string) : Sql.cond := Sql.eq_ String.eqb x y.

Definition is_true (x : option bool) : Sql.cond :=
  Sql.eq_ Bool.eqb x (Some true).

(** [eq(posts.authorId, users.id)] and its siblings. *)
Definition post_author (p : Post.t) (u : User.t) : Sql.cond :=
  str_eq (Some (Post.authorId p)) (Some (User.id u)).

Definition video_author (v : Video.t) (u : User.t) : Sql.cond :=
  str_eq (Some (Video.authorId v)) (Some (User.id u)).

Definition comment_author (c : Comment.t) (u : User.t) : Sql.cond :=
  str_eq (Some (Comment.authorId c)) (Some (User.id u)).

(** ** DatabaseStorage: read methods *)

Definition getUser (sc : scan_order User.t) (st : Store) (id : string)
    : outcome (option User.t) :=
  if negb (Pg.text id) then Rejected InvalidByteSequence else
  let rows := Query.from sc (users st) in
  let rows := Query.where_ rows (fun u => str_eq (Some (User.id u)) (Some id)) in
  Resolved (Query.first rows).

Definition getPosts (sc : scan_order Post.t) (st : Store)
    (limit offset : option number) : outcome (list PostWithAuthor) :=
  let limit := param (whole 20) limit in
  let offset := param (whole 0) offset in
  limit <- Query.limit_clause limit ;;
  offset <- Query.offset_clause offset ;;
  let rows := Query.from sc (posts st) in
  let rows := Query.leftJoin rows (users st) post_author in
  let rows := Query.where_ rows (fun row => is_true (Post.published (fst row))) in
  let rows := Query.orderBy rows (fun row => Post.createdAt (fst row)) in
  let rows := Query.limit limit (Query.offset offset rows) in
  Resolved (map withAuthor rows).

Definition getPostsByCategory (sc : scan_order Post.t) (st : Store)
    (category : string) (limit offset : option number)
    : outcome (list PostWithAuthor) :=
  let limit := param (whole 20) limit in
  let offset := param (whole 0) offset in
  if negb (Pg.text category) then Rejected InvalidByteSequence else
  limit <- Query.limit_clause limit ;;
  offset <- Query.offset_clause offset ;;
  let rows := Query.from sc (posts st) in
  let rows := Query.leftJoin rows (users st) post_author in
  let rows :=
    Query.where_ rows
      (fun row =>
         Sql.and_ (is_true (Post.published (fst row)))
                  (str_eq (Some (Post.category (fst row))) (Some category))) in
  let rows := Query.orderBy rows (fun row => Post.createdAt (fst row)) in
  let rows := Query.limit limit (Query.offset offset rows) in
  Resolved (map withAuthor rows).

Definition getPost (sc : scan_order Post.t) (st : Store) (id : string)
    : outcome (option PostWithAuthor) :=
  if negb (Pg.text id) then Rejected InvalidByteSequence else
  let result := Query.from sc (posts st) in
  let result := Query.leftJoin result (users st) post_author in
  let result :=
    Query.where_ result (fun row => str_eq (Some (Post.id (fst row))) (Some id)) in
  match result with
  | [] => Resolved None
  | row :: _ => Resolved (Some (withAuthor row))
  end.

Definition getPostsByAuthor (sc : scan_order Post.t) (st : Store)
    (authorId : string) : outcome (list PostWithAuthor) :=
  if negb (Pg.text authorId) then Rejected InvalidByteSequence else
  let rows := Query.from sc (posts st) in
  let rows := Query.leftJoin rows (users st) post_author in
  let rows :=
    Query.where_ rows
      (fun row => str_eq (Some (Post.authorId (fst row))) (Some authorId)) in
  let rows := Query.orderBy rows (fun row => Post.createdAt (fst row)) in
  Resolved (map withAuthor rows).

(** The three [ilike] calls share one pattern; it is compiled once, and a
    pattern the store refuses rejects the query. *)
Definition searchPosts (fold : Like.folding) (sc : scan_order Post.t)
    (st : Store) (query : string) : outcome (list PostWithAuthor) :=
  if negb (Pg.text query) then Rejected InvalidByteSequence else
  match Like.contains_pattern fold query with
  | None => Rejected InvalidEscapeSequence
  | Some pat =>
      let rows := Query.from sc (posts st) in
      let rows := Query.leftJoin rows (users st) post_author in
      let rows :=
        Query.where_ rows
          (fun row =>
             Sql.and_
               (is_true (Post.published (fst row)))
               (Sql.or_
                  (Sql.or_ (Like.ilike fold (Some (Post.title (fst row))) pat)
                           (Like.ilike fold (Some (Post.content (fst row))) pat))
                  (Like.ilike fold (Post.excerpt (fst row)) pat))) in
      let rows := Query.orderBy rows (fun row => Post.createdAt (fst row)) in
      Resolved (map withAuthor rows)
  end.

Definition getVideos (sc : scan_order Video.t) (st : Store)
    (limit offset : option number) : outcome (list VideoWithAuthor) :=
  let limit := param (whole 20) limit in
  let offset := param (whole 0) offset in
  limit <- Query.limit_clause limit ;;
  offset <- Query.offset_clause offset ;;
  let rows := Query.from sc (videos st) in
  let rows := Query.leftJoin rows (users st) video_author in
  let rows := Query.where_ rows (fun row => is_true (Video.published (fst row))) in
  let rows := Query.orderBy rows (fun row => Video.createdAt (fst row)) in
  let rows := Query.limit limit (Query.offset offset rows) in
  Resolved (map withAuthor rows).

Definition getVideosByCategory (sc : scan_order Video.t) (st : Store)
    (category : string) (limit offset : option number)
    : outcome (list VideoWithAuthor) :=
  let limit := param (whole 20) limit in
  let offset := param (whole 0) offset in
  if negb (Pg.text category) then Rejected InvalidByteSequence else
  limit <- Query.limit_clause limit ;;
  offset <- Query.offset_clause offset ;;
  let rows := Query.from sc (videos st) in
  let rows := Query.leftJoin rows (users st) video_author in
  let rows :=
    Query.where_ rows
      (fun row =>
         Sql.and_ (is_true (Video.published (fst row)))
                  (str_eq (Some (Video.category (fst row))) (Some category))) in
  let rows := Query.orderBy rows (fun row => Video.createdAt (fst row)) in
  let rows := Query.limit limit (Query.offset offset rows) in
  Resolved (map withAuthor rows).

Definition getVideo (sc : scan_order Video.t) (st : Store) (id : string)
    : outcome (option VideoWithAuthor) :=
  if negb (Pg.text id) then Rejected InvalidByteSequence else
  let result := Query.from sc (videos st) in
  let result := Query.leftJoin result (users st) video_author in
  let result :=
    Query.where_ result (fun row => str_eq (Some (Video.id (fst row))) (Some id)) in
  match result with
  | [] => Resolved None
  | row :: _ => Resolved (Some (withAuthor row))
  end.

Definition getVideosByAuthor (sc : scan_order Video.t) (st : Store)
    (authorId : string) : outcome (list VideoWithAuthor) :=
  if negb (Pg.text authorId) then Rejected InvalidByteSequence else
  let rows := Query.from sc (videos st) in
  let rows := Query.leftJoin rows (users st) video_author in
  let rows :=
    Query.where_ rows
      (fun row => str_eq (Some (Video.authorId (fst row))) (Some authorId)) in
  let rows := Query.orderBy rows (fun row => Video.createdAt (fst row)) in
  Resolved (map withAuthor rows).

Definition searchVideos (fold : Like.folding) (sc : scan_order Video.t)
    (st : Store) (query : string) : outcome (list VideoWithAuthor) :=
  if negb (Pg.text query) then Rejected InvalidByteSequence else
  match Like.contains_pattern fold query with
  | None => Rejected InvalidEscapeSequence
  | Some pat =>
      let rows := Query.from sc (videos st) in
      let rows := Query.leftJoin rows (users st) video_author in
      let rows :=
        Query.where_ rows
          (fun row =>
             Sql.and_
               (is_true (Video.published (fst row)))
               (Sql.or_ (Like.ilike fold (Some (Video.title (fst row))) pat)
                        (Like.ilike fold (Video.description (fst row)) pat))) in
      let rows := Query.orderBy rows (fun row => Video.createdAt (fst row)) in
      Resolved (map withAuthor rows)
  end.

Definition getCommentsByPost (sc : scan_order Comment.t) (st : Store)
    (postId : string) : outcome (list CommentWithAuthor) :=
  if negb (Pg.text postId) then Rejected InvalidByteSequence else
  let rows := Query.from sc (comments st) in
  let rows := Query.leftJoin rows (users st) comment_author in
  let rows :=
    Query.where_ rows (fun row => str_eq (Comment.postId (fst row)) (Some postId)) in
  let rows := Query.orderBy rows (fun row => Comment.createdAt (fst row)) in
  Resolved (map withAuthor rows).

Definition getCommentsByVideo (sc : scan_order Comment.t) (st : Store)
    (videoId : string) : outcome (list CommentWithAuthor) :=
  if negb (Pg.text videoId) then Rejected InvalidByteSequence else
  let rows := Query.from sc (comments st) in
  let rows := Query.leftJoin rows (users st) comment_author in
  let rows :=
    Query.where_ rows
      (fun row => str_eq (Comment.videoId (fst row)) (Some videoId)) in
  let rows := Query.orderBy rows (fun row => Comment.createdAt (fst row)) in
  Resolved (map withAuthor rows).

(** ** Constraints the store enforces on writes

    Primary keys and [users.email] are unique; [authorId], [postId] and
    [videoId] reference existing rows; deleting a referenced post or video
    deletes the comments below it ([onDelete: "cascade"]). *)

Definition has_user (st : Store) (id : string) : bool :=
  existsb (fun u => String.eqb (User.id u) id) (users st).

Definition has_post (st : Store) (id : string) : bool :=
  existsb (fun p => String.eqb (Post.id p) id) (posts st).

Definition has_video (st : Store) (id : string) : bool :=
  existsb (fun v => String.eqb (Video.id v) id) (videos st).

Definition has_comment (st : Store) (id : string) : bool :=
  existsb (fun c => String.eqb (Comment.id c) id) (comments st).

(** A nullable foreign key is checked only when it is set. *)
Definition references (present : string -> bool) (fk : option string) : bool :=
  match fk with
  | None => true
  | Some k => present k
  end.

(** NULL e-mails never collide. *)
Definition email_taken (others : list User.t) (e : option string) : bool :=
  match e with
  | None => false
  | Some x =>
      existsb
        (fun u => match User.email u with
                  | Some y => String.eqb x y
                  | None => false
                  end)
        others
  end.

Definition with_users (st : Store) (us : list User.t) : Store :=
  {| users := us; posts := posts st; videos := videos st; comments := comments st |}.

Definition with_posts (st : Store) (ps : list Post.t) : Store :=
  {| users := users st; posts := ps; videos := videos st; comments := comments st |}.

Definition with_videos (st : Store) (vs : list Video.t) : Store :=
  {| users := users st; posts := posts st; videos := vs; comments := comments st |}.

Definition with_comments (st : Store) (cs : list Comment.t) : Store :=
  {| users := users st; posts := posts st; videos := videos st; comments := cs |}.

(** What the driver reports for a statement without [returning]. *)
Record QueryResult : Type := mkQueryResult {
  rowCount : option nat
}.

(** [(result.rowCount ?? 0) > 0] *)
Definition removed_any (result : QueryResult) : bool :=
  match rowCount result with
  | Some n => (0 <? n)%nat
  | None => (0 <? 0)%nat
  end.

(** ** DatabaseStorage: write methods *)

(** [insert(users).values(userData).onConflictDoUpdate({ target: users.id,
    set: { ...userData, updatedAt: new Date() } }).returning()].  The primary
    key admits at most one row in conflict.  The texts and dates of
    [userData] are parameters of the statement on either branch. *)
Definition upsertUser (st : Store) (now : timestamp) (uuid : string)
    (userData : UpsertUser.t) : outcome (User.t * Store) :=
  let values :=
    {| User.id := spread (UpsertUser.id userData) uuid;
       User.email := or_null (UpsertUser.email userData);
       User.firstName := or_null (UpsertUser.firstName userData);
       User.lastName := or_null (UpsertUser.lastName userData);
       User.profileImageUrl := or_null (UpsertUser.profileImageUrl userData);
       User.role := spread (UpsertUser.role userData) (Some "user");
       User.createdAt := spread (UpsertUser.createdAt userData) (Some now);
       User.updatedAt := spread (UpsertUser.updatedAt userData) (Some now) |} in
  let set_ (old : User.t) :=
    {| User.id := spread (UpsertUser.id userData) (User.id old);
       User.email := spread (UpsertUser.email userData) (User.email old);
       User.firstName := spread (UpsertUser.firstName userData) (User.firstName old);
       User.lastName := spread (UpsertUser.lastName userData) (User.lastName old);
       User.profileImageUrl :=
         spread (UpsertUser.profileImageUrl userData) (User.profileImageUrl old);
       User.role := spread (UpsertUser.role userData) (User.role old);
       User.createdAt := spread (UpsertUser.createdAt userData) (User.createdAt old);
       User.updatedAt := Some now |} in
  let conflict (u : User.t) := String.eqb (User.id u) (User.id values) in
  if negb (forallb Pg.text (User.id values :: user_texts userData))
  then Rejected InvalidByteSequence
  else if negb (forallb Pg.date (user_dates userData))
  then Rejected InvalidDatetime
  else
  match filter conflict (users st) with
  | [] =>
      if email_taken (users st) (User.email values)
      then Rejected UniqueViolation
      else Resolved (values, with_users st (users st ++ [values]))
  | old :: _ =>
      let others := filter (fun u => negb (conflict u)) (users st) in
      if email_taken others (User.email (set_ old))
      then Rejected UniqueViolation
      else Resolved
             (set_ old,
              with_users st
                (map (fun u => if conflict u then set_ u else u) (users st)))
  end.

(** [insert(posts).values(post).returning()]: the key is generated, the
    title is cut to the column's bound, the row is checked against the
    constraints of the table.  The generated key is a text the store holds,
    so it is held to what the store takes of a text, like the texts of
    [post]. *)
Definition createPost (st : Store) (now : timestamp) (uuid : string)
    (post : InsertPost.t) : outcome (Post.t * Store) :=
  if negb (forallb Pg.text (uuid :: post_texts post))
  then Rejected InvalidByteSequence
  else
  title <- Pg.varchar 255 (InsertPost.title post) ;;
  let newPost :=
    {| Post.id := uuid;
       Post.title := title;
       Post.content := InsertPost.content post;
       Post.excerpt := or_null (InsertPost.excerpt post);
       Post.imageUrl := or_null (InsertPost.imageUrl post);
       Post.category := InsertPost.category post;
       Post.tags := or_null (InsertPost.tags post);
       Post.authorId := InsertPost.authorId post;
       Post.published := spread (InsertPost.published post) (Some false);
       Post.createdAt := Some now;
       Post.updatedAt := Some now |} in
  if has_post st (Post.id newPost) then Rejected UniqueViolation
  else if negb (has_user st (Post.authorId newPost)) then Rejected ForeignKeyViolation
  else Resolved (newPost, with_posts st (posts st ++ [newPost])).

(** [update(posts).set({ ...post, updatedAt: new Date() }).where(eq(posts.id,
    id)).returning()].  The reference of an updated row is checked when its
    [authorId] changes. *)
Definition updatePost (st : Store) (now : timestamp) (id : string)
    (post : PartialPost.t) : outcome (option Post.t * Store) :=
  if negb (forallb Pg.text (post_patch_texts post ++ [id]))
  then Rejected InvalidByteSequence
  else
  title <- Pg.varchar_field 255 (PartialPost.title post) ;;
  let set_ (old : Post.t) :=
    {| Post.id := Post.id old;
       Post.title := spread title (Post.title old);
       Post.content := spread (PartialPost.content post) (Post.content old);
       Post.excerpt := spread (PartialPost.excerpt post) (Post.excerpt old);
       Post.imageUrl := spread (PartialPost.imageUrl post) (Post.imageUrl old);
       Post.category := spread (PartialPost.category post) (Post.category old);
       Post.tags := spread (PartialPost.tags post) (Post.tags old);
       Post.authorId := spread (PartialPost.authorId post) (Post.authorId old);
       Post.published := spread (PartialPost.published post) (Post.published old);
       Post.createdAt := Post.createdAt old;
       Post.updatedAt := Some now |} in
  let hit (p : Post.t) := String.eqb (Post.id p) id in
  let reference_ok (old : Post.t) :=
    String.eqb (Post.authorId (set_ old)) (Post.authorId old)
    || has_user st (Post.authorId (set_ old)) in
  if forallb reference_ok (filter hit (posts st))
  then Resolved
         (Query.first (map set_ (filter hit (posts st))),
          with_posts st (map (fun p => if hit p then set_ p else p) (posts st)))
  else Rejected ForeignKeyViolation.

(** [delete(posts).where(eq(posts.id, id))]: the driver counts the rows
    removed from [posts]; the comments of a removed post go with it. *)
Definition delete_posts (st : Store) (id : string) : QueryResult * Store :=
  let hit (p : Post.t) := String.eqb (Post.id p) id in
  let gone := filter hit (posts st) in
  let orphaned (c : Comment.t) :=
    existsb (fun p => Sql.holds (str_eq (Comment.postId c) (Some (Post.id p)))) gone in
  ({| rowCount := Some (List.length gone) |},
   {| users := users st;
      posts := filter (fun p => negb (hit p)) (posts st);
      videos := videos st;
      comments := filter (fun c => negb (orphaned c)) (comments st) |}).

Definition deletePost (st : Store) (id : string) : outcome (bool * Store) :=
  if negb (Pg.text id) then Rejected InvalidByteSequence else
  let (result, st') := delete_posts st id in
  Resolved (removed_any result, st').

Definition createVideo (st : Store) (now : timestamp) (uuid : string)
    (video : InsertVideo.t) : outcome (Video.t * Store) :=
  if negb (forallb Pg.text (uuid :: video_texts video))
  then Rejected InvalidByteSequence
  else
  title <- Pg.varchar 255 (InsertVideo.title video) ;;
  let newVideo :=
    {| Video.id := uuid;
       Video.title := title;
       Video.description := or_null (InsertVideo.description video);
       Video.videoUrl := InsertVideo.videoUrl video;
       Video.thumbnailUrl := or_null (InsertVideo.thumbnailUrl video);
       Video.category := InsertVideo.category video;
       Video.tags := or_null (InsertVideo.tags video);
       Video.duration := or_null (InsertVideo.duration video);
       Video.authorId := InsertVideo.authorId video;
       Video.published := spread (InsertVideo.published video) (Some false);
       Video.createdAt := Some now;
       Video.updatedAt := Some now |} in
  if has_video st (Video.id newVideo) then Rejected UniqueViolation
  else if negb (has_user st (Video.authorId newVideo)) then Rejected ForeignKeyViolation
  else Resolved (newVideo, with_videos st (videos st ++ [newVideo])).

Definition updateVideo (st : Store) (now : timestamp) (id : string)
    (video : PartialVideo.t) : outcome (option Video.t * Store) :=
  if negb (forallb Pg.text (video_patch_texts video ++ [id]))
  then Rejected InvalidByteSequence
  else
  title <- Pg.varchar_field 255 (PartialVideo.title video) ;;
  let set_ (old : Video.t) :=
    {| Video.id := Video.id old;
       Video.title := spread title (Video.title old);
       Video.description := spread (PartialVideo.description video) (Video.description old);
       Video.videoUrl := spread (PartialVideo.videoUrl video) (Video.videoUrl old);
       Video.thumbnailUrl :=
         spread (PartialVideo.thumbnailUrl video) (Video.thumbnailUrl old);
       Video.category := spread (PartialVideo.category video) (Video.category old);
       Video.tags := spread (PartialVideo.tags video) (Video.tags old);
       Video.duration := spread (PartialVideo.duration video) (Video.duration old);
       Video.authorId := spread (PartialVideo.authorId video) (Video.authorId old);
       Video.published := spread (PartialVideo.published video) (Video.published old);
       Video.createdAt := Video.createdAt old;
       Video.updatedAt := Some now |} in
  let hit (v : Video.t) := String.eqb (Video.id v) id in
  let reference_ok (old : Video.t) :=
    String.eqb (Video.authorId (set_ old)) (Video.authorId old)
    || has_user st (Video.authorId (set_ old)) in
  if forallb reference_ok (filter hit (videos st))
  then Resolved
         (Query.first (map set_ (filter hit (videos st))),
          with_videos st (map (fun v => if hit v then set_ v else v) (videos st)))
  else Rejected ForeignKeyViolation.

Definition delete_videos (st : Store) (id : string) : QueryResult * Store :=
  let hit (v : Video.t) := String.eqb (Video.id v) id in
  let gone := filter hit (videos st) in
  let orphaned (c : Comment.t) :=
    existsb (fun v => Sql.holds (str_eq (Comment.videoId c) (Some (Video.id v)))) gone in
  ({| rowCount := Some (List.length gone) |},
   {| users := users st;
      posts := posts st;
      videos := filter (fun v => negb (hit v)) (videos st);
      comments := filter (fun c => negb (orphaned c)) (comments st) |}).

Definition deleteVideo (st : Store) (id : string) : outcome (bool * Store) :=
  if negb (Pg.text id) then Rejected InvalidByteSequence else
  let (result, st') := delete_videos st id in
  Resolved (removed_any result, st').

Definition createComment (st : Store) (now : timestamp) (uuid : string)
    (comment : InsertComment.t) : outcome (Comment.t * Store) :=
  if negb (forallb Pg.text (uuid :: comment_texts comment))
  then Rejected InvalidByteSequence
  else
  let newComment :=
    {| Comment.id := uuid;
       Comment.content := InsertComment.content comment;
       Comment.authorId := InsertComment.authorId comment;
       Comment.postId := or_null (InsertComment.postId comment);
       Comment.videoId := or_null (InsertComment.videoId comment);
       Comment.createdAt := Some now;
       Comment.updatedAt := Some now |} in
  if has_comment st (Comment.id newComment) then Rejected UniqueViolation
  else if negb (has_user st (Comment.authorId newComment)
                && references (has_post st) (Comment.postId newComment)
                && references (has_video st) (Comment.videoId newComment))
  then Rejected ForeignKeyViolation
  else Resolved (newComment, with_comments st (comments st ++ [newComment])).

Definition delete_comments (st : Store) (id : string) : QueryResult * Store :=
  let hit (c : Comment.t) := String.eqb (Comment.id c) id in
  ({| rowCount := Some (List.length (filter hit (comments st))) |},
   with_comments st (filter (fun c => negb (hit c)) (comments st))).

Definition deleteComment (st : Store) (id : string) : outcome (bool * Store) :=
  if negb (Pg.text id) then Rejected InvalidByteSequence else
  let (result, st') := delete_comments st id in
  Resolved (removed_any result, st').

(** ** The repository as a transition system

    One request per write method; [run] keeps the store a request leaves
    behind. *)

Inductive request : Type :=
| UpsertUserReq (userData : UpsertUser.t)
| CreatePostReq (post : InsertPost.t)
| UpdatePostReq (id : string) (post : PartialPost.t)
| DeletePostReq (id : string)
| CreateVideoReq (video : InsertVideo.t)
| UpdateVideoReq (id : string) (video : PartialVideo.t)
| DeleteVideoReq (id : string)
| CreateCommentReq (comment : InsertComment.t)
| DeleteCommentReq (id : string).

Definition settle {A : Type} (o : outcome (A * Store)) : outcome Store :=
  match o with
  | Resolved (_, st') => Resolved st'
  | Rejected e => Rejected e
  end.

Definition run (st : Store) (now : timestamp) (uuid : string) (r : request)
    : outcome Store :=
  match r with
  | UpsertUserReq d => settle (upsertUser st now uuid d)
  | CreatePostReq p => settle (createPost st now uuid p)
  | UpdatePostReq id p => settle (updatePost st now id p)
  | DeletePostReq id => settle (deletePost st id)
  | CreateVideoReq v => settle (createVideo st now uuid v)
  | UpdateVideoReq id v => settle (updateVideo st now id v)
  | DeleteVideoReq id => settle (deleteVideo st id)
  | CreateCommentReq c => settle (createComment st now uuid c)
  | DeleteCommentReq id => settle (deleteComment st id)
  end.

(** Primary keys are unique in every table. *)
Record keyed (st : Store) : Prop := mkKeyed {
  users_keyed : NoDup (map User.id (users st));
  posts_keyed : NoDup (map Post.id (posts st));
  videos_keyed : NoDup (map Video.id (videos st));
  comments_keyed : NoDup (map Comment.id (comments st))
}.


(** ** Vocabulary of the statements *)

(** Texts the store takes: none holds the NUL character. *)
Definition storable (texts : list string) : Prop :=
  forallb Pg.text texts = true.

(** Dates the store reads: each lies in the years 1 to 9999. *)
Definition datable (dates : list timestamp) : Prop :=
  forallb Pg.date dates = true.

(** A text of at most [n] characters. *)
Definition within (n : nat) (s : string) : Prop := Text.length s <= n.

(** A key that, when supplied, holds at most [n] characters. *)
Definition field_within (n : nat) (f : field string) : Prop :=
  match f with
  | Omitted => True
  | Supplied s => within n s
  end.

(** [counts default arg n]: the argument, when there is one, is the whole
    number [n], and [n] is below 2^63; an argument left out stands for the
    default. *)
Definition counts (default : nat) (arg : option number) (n : nat) : Prop :=
  match arg with
  | None => n = default
  | Some x => x = whole (Z.of_nat n) /\ (Z.of_nat n < 2 ^ 63)%Z
  end.

(** [before key a b]: [a] may stand before [b] in the output of
    [orderBy(desc(key))]. *)
Definition before {R : Type} (key : R -> option timestamp) (a b : R) : Prop :=
  Query.desc (key a) (key b) = true.

Definition newest_first {R : Type} (key : R -> option timestamp)
    (l : list R) : Prop :=
  StronglySorted (before key) l.

(** The author a left join attaches to a row: the user whose [id] is the
    row's [authorId], when there is one. *)
Definition author_of (st : Store) (authorId : string) : option User.t :=
  find (fun u => String.eqb (User.id u) authorId) (users st).

(** The view of an entity row: the row with its author attached. *)
Definition attach {E : Type} (st : Store) (authorId : E -> string) (e : E)
    : WithAuthor E :=
  {| entity := e; author := author_of st (authorId e) |}.

(** The rows a public listing may show. *)
Definition visible {E : Type} (published : E -> option bool) (e : E) : bool :=
  Sql.holds (is_true (published e)).

(** [page_of ... limit offset result]: [result] is the window of [limit]
    rows after the first [offset] rows of an arrangement of the visible rows
    of [table] that is ordered by [createdAt], newest first, each row with
    its author attached. *)
Definition page_of {E : Type} (published : E -> option bool)
    (createdAt : E -> option timestamp) (authorId : E -> string)
    (st : Store) (table : list E) (limit offset : nat)
    (result : list (WithAuthor E)) : Prop :=
  exists ordering : list E,
    Permutation ordering (filter (visible published) table)
    /\ newest_first createdAt ordering
    /\ result = map (attach st authorId) (firstn limit (skipn offset ordering)).

(** The rows a query [q] is a case-insensitive substring of: some
    designated text column contains it. *)
Definition post_mentions (fold : Like.folding) (q : string) (p : Post.t)
    : Prop :=
  Like.ci_substring fold q (Post.title p)
  \/ Like.ci_substring fold q (Post.content p)
  \/ (exists e, Post.excerpt p = Some e /\ Like.ci_substring fold q e).

Definition video_mentions (fold : Like.folding) (q : string) (v : Video.t)
    : Prop :=
  Like.ci_substring fold q (Video.title v)
  \/ (exists d, Video.description v = Some d /\ Like.ci_substring fold q d).

(** A decision procedure for "occurs as a contiguous run". *)
Fixpoint prefixb (q s : list string) : bool :=
  match q, s with
  | [], _ => true
  | _ :: _, [] => false
  | a :: q', b :: s' => String.eqb a b && prefixb q' s'
  end.

Fixpoint infixb (q s : list string) : bool :=
  prefixb q s || match s with
                 | [] => false
                 | _ :: s' => infixb q s'
                 end.

(** [patched f old new]: column value [new] is what a partial patch with
    key [f] leaves in a column that held [old]: the supplied value, or [old]
    when the key was left out. *)
Definition patched {A : Type} (f : field A) (old new : A) : Prop :=
  match f with
  | Omitted => new = old
  | Supplied v => new = v
  end.

(** A patch the store's reference check lets through: [authorId] is left
    out, or names an existing user. *)
Definition author_accepted (st : Store) (f : field string) : Prop :=
  match f with
  | Omitted => True
  | Supplied a => has_user st a = true
  end.

Definition post_patched (post : PartialPost.t) (now : timestamp)
    (old new : Post.t) : Prop :=
  Post.id new = Post.id old
  /\ patched (PartialPost.title post) (Post.title old) (Post.title new)
  /\ patched (PartialPost.content post) (Post.content old) (Post.content new)
  /\ patched (PartialPost.excerpt post) (Post.excerpt old) (Post.excerpt new)
  /\ patched (PartialPost.imageUrl post) (Post.imageUrl old) (Post.imageUrl new)
  /\ patched (PartialPost.category post) (Post.category old) (Post.category new)
  /\ patched (PartialPost.tags post) (Post.tags old) (Post.tags new)
  /\ patched (PartialPost.authorId post) (Post.authorId old) (Post.authorId new)
  /\ patched (PartialPost.published post) (Post.published old) (Post.published new)
  /\ Post.createdAt new = Post.createdAt old
  /\ Post.updatedAt new = Some now.

Definition video_patched (video : PartialVideo.t) (now : timestamp)
    (old new : Video.t) : Prop :=
  Video.id new = Video.id old
  /\ patched (PartialVideo.title video) (Video.title old) (Video.title new)
  /\ patched (PartialVideo.description video) (Video.description old)
       (Video.description new)
  /\ patched (PartialVideo.videoUrl video) (Video.videoUrl old) (Video.videoUrl new)
  /\ patched (PartialVideo.thumbnailUrl video) (Video.thumbnailUrl old)
       (Video.thumbnailUrl new)
  /\ patched (PartialVideo.category video) (Video.category old) (Video.category new)
  /\ patched (PartialVideo.tags video) (Video.tags old) (Video.tags new)
  /\ patched (PartialVideo.duration video) (Video.duration old) (Video.duration new)
  /\ patched (PartialVideo.authorId video) (Video.authorId old) (Video.authorId new)
  /\ patched (PartialVideo.published video) (Video.published old)
       (Video.published new)
  /\ Video.createdAt new = Video.createdAt old
  /\ Video.updatedAt new = Some now.

(** [replaced id new old_table new_table]: the new table is the old one
    with the row keyed [id] replaced by [new], every other row as it was and
    where it was. *)
Definition replaced {E : Type} (key : E -> string) (id : string) (new : E)
    (old_table new_table : list E) : Prop :=
  new_table = map (fun e => if String.eqb (key e) id then new else e) old_table.

(** No two visible rows of a table were created at the same instant. *)
Definition distinct_dates {E : Type} (published : E -> option bool)
    (createdAt : E -> option timestamp) (table : list E) : Prop :=
  NoDup (map createdAt (filter (visible published) table)).

(** What the store requires of a new comment: texts it can take, a fresh id
    and resolvable references.  Nothing here relates [postId] to
    [videoId]. *)
Definition comment_accepted (st : Store) (uuid : string)
    (comment : InsertComment.t) : Prop :=
  storable (uuid :: comment_texts comment)
  /\ has_comment st uuid = false
  /\ has_user st (InsertComment.authorId comment) = true
  /\ references (has_post st) (or_null (InsertComment.postId comment)) = true
  /\ references (has_video st) (or_null (InsertComment.videoId comment)) = true.

(** The id an upsert is about: the one supplied, or the generated one. *)
Definition upsert_id (userData : UpsertUser.t) (uuid : string) : string :=
  spread (UpsertUser.id userData) uuid.

(** [user_inserted d now uuid u]: [u] is the row a fresh insert of [d]
    creates: supplied columns as supplied, the others at their defaults. *)
Definition user_inserted (userData : UpsertUser.t) (now : timestamp)
    (uuid : string) (u : User.t) : Prop :=
  User.id u = upsert_id userData uuid
  /\ patched (UpsertUser.email userData) None (User.email u)
  /\ patched (UpsertUser.firstName userData) None (User.firstName u)
  /\ patched (UpsertUser.lastName userData) None (User.lastName u)
  /\ patched (UpsertUser.profileImageUrl userData) None (User.profileImageUrl u)
  /\ patched (UpsertUser.role userData) (Some "user") (User.role u)
  /\ patched (UpsertUser.createdAt userData) (Some now) (User.createdAt u)
  /\ patched (UpsertUser.updatedAt userData) (Some now) (User.updatedAt u).

(** [user_merged d now old u]: [u] is [old] overwritten by the columns [d]
    supplies, [createdAt] among them, and touched at [now]. *)
Definition user_merged (userData : UpsertUser.t) (now : timestamp)
    (old u : User.t) : Prop :=
  User.id u = User.id old
  /\ patched (UpsertUser.email userData) (User.email old) (User.email u)
  /\ patched (UpsertUser.firstName userData) (User.firstName old) (User.firstName u)
  /\ patched (UpsertUser.lastName userData) (User.lastName old) (User.lastName u)
  /\ patched (UpsertUser.profileImageUrl userData) (User.profileImageUrl old)
       (User.profileImageUrl u)
  /\ patched (UpsertUser.role userData) (User.role old) (User.role u)
  /\ patched (UpsertUser.createdAt userData) (User.createdAt old) (User.createdAt u)
  /\ User.updatedAt u = Some now.

(** The e-mail a row would carry is free: NULL, or used by no row in
    [others]. *)
Definition email_free (others : list User.t) (e : option string) : Prop :=
  email_taken others e = false.

(** The rows of [users] other than the one keyed [id]. *)
Definition other_users (st : Store) (id : string) : list User.t :=
  filter (fun u => negb (String.eqb (User.id u) id)) (users st).

(** [post_created post now uuid row]: [row] is the row an insert of [post]
    creates: the supplied columns as supplied (the title as the
    [varchar(255)] column takes it), a nullable column left out at NULL,
    [published] at its default [false] when left out, the generated id, and
    both timestamps at the time of the insert. *)
Definition post_created (post : InsertPost.t) (now : timestamp) (uuid : string)
    (row : Post.t) : Prop :=
  Post.id row = uuid
  /\ Pg.varchar 255 (InsertPost.title post) = Resolved (Post.title row)
  /\ Post.content row = InsertPost.content post
  /\ patched (InsertPost.excerpt post) None (Post.excerpt row)
  /\ patched (InsertPost.imageUrl post) None (Post.imageUrl row)
  /\ Post.category row = InsertPost.category post
  /\ patched (InsertPost.tags post) None (Post.tags row)
  /\ Post.authorId row = InsertPost.authorId post
  /\ patched (InsertPost.published post) (Some false) (Post.published row)
  /\ Post.createdAt row = Some now
  /\ Post.updatedAt row = Some now.

Definition video_created (video : InsertVideo.t) (now : timestamp)
    (uuid : string) (row : Video.t) : Prop :=
  Video.id row = uuid
  /\ Pg.varchar 255 (InsertVideo.title video) = Resolved (Video.title row)
  /\ patched (InsertVideo.description video) None (Video.description row)
  /\ Video.videoUrl row = InsertVideo.videoUrl video
  /\ patched (InsertVideo.thumbnailUrl video) None (Video.thumbnailUrl row)
  /\ Video.category row = InsertVideo.category video
  /\ patched (InsertVideo.tags video) None (Video.tags row)
  /\ patched (InsertVideo.duration video) None (Video.duration row)
  /\ Video.authorId row = InsertVideo.authorId video
  /\ patched (InsertVideo.published video) (Some false) (Video.published row)
  /\ Video.createdAt row = Some now
  /\ Video.updatedAt row = Some now.

(** ** Timestamps across a request *)

(** Every row that survives from [old_table] into [new_table] under its id
    has the [createdAt] it had. *)
Definition stamps_kept {E : Type} (id : E -> string)
    (createdAt : E -> option timestamp) (old_table new_table : list E) : Prop :=
  forall old new, In old old_table -> In new new_table -> id new = id old ->
                  createdAt new = createdAt old.

Definition createdAt_kept (st st' : Store) : Prop :=
  stamps_kept User.id User.createdAt (users st) (users st')
  /\ stamps_kept Post.id Post.createdAt (posts st) (posts st')
  /\ stamps_kept Video.id Video.createdAt (videos st) (videos st')
  /\ stamps_kept Comment.id Comment.createdAt (comments st) (comments st').

(** The one way a request can carry a [createdAt] of its own: the data of an
    upsert. *)
Definition leaves_createdAt (r : request) : Prop :=
  match r with
  | UpsertUserReq d => UpsertUser.createdAt d = Omitted
  | _ => True
  end.

(** The rows an update request touches carry the time of the request. *)
Definition refreshed (st : Store) (now : timestamp) (uuid : string)
    (r : request) (st' : Store) : Prop :=
  match r with
  | UpdatePostReq id _ =>
      forall p, In p (posts st') -> Post.id p = id -> Post.updatedAt p = Some now
  | UpdateVideoReq id _ =>
      forall v, In v (videos st') -> Video.id v = id -> Video.updatedAt v = Some now
  | UpsertUserReq d =>
      (exists old, In old (users st) /\ User.id old = upsert_id d uuid) ->
      forall u, In u (users st') -> User.id u = upsert_id d uuid ->
                User.updatedAt u = Some now
  | _ => True
  end.

(** The row a create request adds is stamped with the time of the request. *)
Definition stamped_at_creation (st : Store) (now : timestamp) (r : request)
    (st' : Store) : Prop :=
  match r with
  | CreatePostReq _ =>
      forall p, In p (posts st') -> ~ In p (posts st) ->
                Post.createdAt p = Some now /\ Post.updatedAt p = Some now
  | CreateVideoReq _ =>
      forall v, In v (videos st') -> ~ In v (videos st) ->
                Video.createdAt v = Some now /\ Video.updatedAt v = Some now
  | CreateCommentReq _ =>
      forall c, In c (comments st') -> ~ In c (comments st) ->
                Comment.createdAt c = Some now /\ Comment.updatedAt c = Some now
  | _ => True
  end.

(** ** Referential integrity *)

(** Every [authorId], and every [postId] and [videoId] that is set, names a
    stored row. *)
Record referenced (st : Store) : Prop := mkReferenced {
  posts_authored :
    forall p, In p (posts st) -> has_user st (Post.authorId p) = true;
  videos_authored :
    forall v, In v (videos st) -> has_user st (Video.authorId v) = true;
  comments_attached :
    forall c, In c (comments st) ->
      has_user st (Comment.authorId c) = true
      /\ references (has_post st) (Comment.postId c) = true
      /\ references (has_video st) (Comment.videoId c) = true
}.

(** The stores the repository can bring about: the empty store, and what a
    resolved request makes of such a store. *)
Inductive reachable : Store -> Prop :=
| reach_empty :
    reachable {| users := []; posts := []; videos := []; comments := [] |}
| reach_step (st st' : Store) (now : timestamp) (uuid : string) (r : request) :
    reachable st -> run st now uuid r = Resolved st' -> reachable st'.

(** A returned row carries its author: the [author] key holds the user
    whose [id] is the row's [authorId]. *)
Definition authored {E : Type} (authorId : E -> string) (r : WithAuthor E)
    : Prop :=
  exists u, author r = Some u /\ User.id u = authorId (entity r).

(** No two users share an e-mail address (NULL e-mails aside). *)
Definition emails_unique (st : Store) : Prop :=
  forall u1 u2 e,
    In u1 (users st) -> In u2 (users st) ->
    User.email u1 = Some e -> User.email u2 = Some e ->
    User.id u1 = User.id u2.

(** Every post, video and comment carries both timestamps. *)
Record dated (st : Store) : Prop := mkDated {
  posts_dated :
    forall p, In p (posts st) ->
      Post.createdAt p <> None /\ Post.updatedAt p <> None;
  videos_dated :
    forall v, In v (videos st) ->
      Video.createdAt v <> None /\ Video.updatedAt v <> None;
  comments_dated :
    forall c, In c (comments st) ->
      Comment.createdAt c <> None /\ Comment.updatedAt c <> None
}.


(** ** Sample stores and requests *)

Module Sample.

Definition alice : User.t :=
  {| User.id := "u1"; User.email := Some "alice@example.org";
     User.firstName := Some "Alice"; User.lastName := None;
     User.profileImageUrl := None; User.role := Some "author";
     User.createdAt := Some 10%Z; User.updatedAt := Some 10%Z |}.

Definition bob : User.t :=
  {| User.id := "u2"; User.email := Some "bob@example.org";
     User.firstName := Some "Bob"; User.lastName := None;
     User.profileImageUrl := None; User.role := Some "user";
     User.createdAt := Some 20%Z; User.updatedAt := Some 20%Z |}.

Definition cooking : Post.t :=
  {| Post.id := "p1"; Post.title := "1000 ways to cook rice";
     Post.content := "Start with water."; Post.excerpt := None;
     Post.imageUrl := None; Post.category := "food"; Post.tags := None;
     Post.authorId := "u1"; Post.published := Some true;
     Post.createdAt := Some 100%Z; Post.updatedAt := Some 100%Z |}.

Definition draft : Post.t :=
  {| Post.id := "p2"; Post.title := "Draft"; Post.content := "Not yet.";
     Post.excerpt := Some "soon"; Post.imageUrl := None;
     Post.category := "tech"; Post.tags := Some ["wip"];
     Post.authorId := "u1"; Post.published := Some false;
     Post.createdAt := Some 200%Z; Post.updatedAt := Some 200%Z |}.

Definition travel : Post.t :=
  {| Post.id := "p3"; Post.title := "Travel notes";
     Post.content := "The trip was 100% fun."; Post.excerpt := None;
     Post.imageUrl := None; Post.category := "life"; Post.tags := None;
     Post.authorId := "u2"; Post.published := Some true;
     Post.createdAt := Some 300%Z; Post.updatedAt := Some 300%Z |}.

Definition clip : Video.t :=
  {| Video.id := "v1"; Video.title := "Knife skills";
     Video.description := Some "Chopping 1000 onions";
     Video.videoUrl := "https://cdn.example.org/v1.mp4";
     Video.thumbnailUrl := None; Video.category := "food";
     Video.tags := None; Video.duration := Some "03:20";
     Video.authorId := "u1"; Video.published := Some true;
     Video.createdAt := Some 150%Z; Video.updatedAt := Some 150%Z |}.

Definition remark : Comment.t :=
  {| Comment.id := "c1"; Comment.content := "Nice."; Comment.authorId := "u2";
     Comment.postId := Some "p1"; Comment.videoId := None;
     Comment.createdAt := Some 120%Z; Comment.updatedAt := Some 120%Z |}.

Definition store : Store :=
  {| users := [alice; bob]; posts := [cooking; draft; travel];
     videos := [clip]; comments := [remark] |}.

(** A patch that hands the post to an author who does not exist. *)
Definition reassign : PartialPost.t :=
  {| PartialPost.title := Omitted; PartialPost.content := Omitted;
     PartialPost.excerpt := Omitted; PartialPost.imageUrl := Omitted;
     PartialPost.category := Omitted; PartialPost.tags := Omitted;
     PartialPost.authorId := Supplied "ghost";
     PartialPost.published := Omitted |}.

Definition publish : PartialPost.t :=
  {| PartialPost.title := Omitted; PartialPost.content := Omitted;
     PartialPost.excerpt := Omitted; PartialPost.imageUrl := Omitted;
     PartialPost.category := Omitted; PartialPost.tags := Omitted;
     PartialPost.authorId := Omitted;
     PartialPost.published := Supplied (Some true) |}.

Definition retitle : PartialVideo.t :=
  {| PartialVideo.title := Supplied "Knife skills, part 1";
     PartialVideo.description := Omitted; PartialVideo.videoUrl := Omitted;
     PartialVideo.thumbnailUrl := Omitted; PartialVideo.category := Omitted;
     PartialVideo.tags := Omitted; PartialVideo.duration := Omitted;
     PartialVideo.authorId := Omitted; PartialVideo.published := Omitted |}.

(** A post whose author row is missing. *)
Definition stray : Post.t :=
  {| Post.id := "p9"; Post.title := "Stray"; Post.content := "c";
     Post.excerpt := None; Post.imageUrl := None; Post.category := "misc";
     Post.tags := None; Post.authorId := "ghost"; Post.published := Some true;
     Post.createdAt := Some 50%Z; Post.updatedAt := Some 50%Z |}.

Definition orphaned : Store :=
  {| users := [alice]; posts := [stray]; videos := []; comments := [] |}.

(** Comments with both parents, with none, and with an unknown author. *)
Definition both_parents : InsertComment.t :=
  {| InsertComment.content := "On both."; InsertComment.authorId := "u2";
     InsertComment.postId := Supplied (Some "p1");
     InsertComment.videoId := Supplied (Some "v1") |}.

Definition no_parent : InsertComment.t :=
  {| InsertComment.content := "On nothing."; InsertComment.authorId := "u2";
     InsertComment.postId := Omitted; InsertComment.videoId := Omitted |}.

Definition unknown_author : InsertComment.t :=
  {| InsertComment.content := "Who?"; InsertComment.authorId := "ghost";
     InsertComment.postId := Omitted; InsertComment.videoId := Omitted |}.

Definition unknown_post : InsertComment.t :=
  {| InsertComment.content := "Where?"; InsertComment.authorId := "u2";
     InsertComment.postId := Supplied (Some "p404");
     InsertComment.videoId := Omitted |}.

Definition empty : Store :=
  {| users := []; posts := []; videos := []; comments := [] |}.

(** Two upserts of the same user; the second also carries [createdAt]. *)
Definition carol_first : UpsertUser.t :=
  {| UpsertUser.id := Supplied "u9";
     UpsertUser.email := Supplied (Some "carol@example.org");
     UpsertUser.firstName := Supplied (Some "Carol");
     UpsertUser.lastName := Omitted; UpsertUser.profileImageUrl := Omitted;
     UpsertUser.role := Omitted; UpsertUser.createdAt := Omitted;
     UpsertUser.updatedAt := Omitted |}.

Definition carol_renamed : UpsertUser.t :=
  {| UpsertUser.id := Supplied "u9"; UpsertUser.email := Omitted;
     UpsertUser.firstName := Supplied (Some "Caroline");
     UpsertUser.lastName := Omitted; UpsertUser.profileImageUrl := Omitted;
     UpsertUser.role := Omitted; UpsertUser.createdAt := Omitted;
     UpsertUser.updatedAt := Omitted |}.

Definition carol_backdated : UpsertUser.t :=
  {| UpsertUser.id := Supplied "u9"; UpsertUser.email := Omitted;
     UpsertUser.firstName := Supplied (Some "Caroline");
     UpsertUser.lastName := Omitted; UpsertUser.profileImageUrl := Omitted;
     UpsertUser.role := Omitted; UpsertUser.createdAt := Supplied (Some 5%Z);
     UpsertUser.updatedAt := Omitted |}.

Definition alice_backdated : UpsertUser.t :=
  {| UpsertUser.id := Supplied "u1"; UpsertUser.email := Omitted;
     UpsertUser.firstName := Omitted; UpsertUser.lastName := Omitted;
     UpsertUser.profileImageUrl := Omitted; UpsertUser.role := Omitted;
     UpsertUser.createdAt := Supplied (Some 999%Z);
     UpsertUser.updatedAt := Omitted |}.

Definition recipe : InsertPost.t :=
  {| InsertPost.title := "Soup"; InsertPost.content := "Boil.";
     InsertPost.excerpt := Omitted; InsertPost.imageUrl := Omitted;
     InsertPost.category := "food"; InsertPost.tags := Omitted;
     InsertPost.authorId := "u2"; InsertPost.published := Omitted |}.

Definition headline : InsertPost.t :=
  {| InsertPost.title := "News"; InsertPost.content := "Today.";
     InsertPost.excerpt := Omitted; InsertPost.imageUrl := Omitted;
     InsertPost.category := "life"; InsertPost.tags := Omitted;
     InsertPost.authorId := "u1"; InsertPost.published := Supplied (Some true) |}.

Definition teaser : InsertVideo.t :=
  {| InsertVideo.title := "Teaser"; InsertVideo.description := Omitted;
     InsertVideo.videoUrl := "https://cdn.example.org/v2.mp4";
     InsertVideo.thumbnailUrl := Omitted; InsertVideo.category := "food";
     InsertVideo.tags := Omitted; InsertVideo.duration := Omitted;
     InsertVideo.authorId := "u1"; InsertVideo.published := Omitted |}.

Definition greeting : InsertPost.t :=
  {| InsertPost.title := "Hello"; InsertPost.content := "World";
     InsertPost.excerpt := Omitted; InsertPost.imageUrl := Omitted;
     InsertPost.category := "life"; InsertPost.tags := Omitted;
     InsertPost.authorId := "u9"; InsertPost.published := Supplied (Some true) |}.

(** The store after Carol signs up and posts a greeting. *)
Definition carol : User.t :=
  {| User.id := "u9"; User.email := Some "carol@example.org";
     User.firstName := Some "Carol"; User.lastName := None;
     User.profileImageUrl := None; User.role := Some "user";
     User.createdAt := Some 1000%Z; User.updatedAt := Some 1000%Z |}.

Definition hello : Post.t :=
  {| Post.id := "p1"; Post.title := "Hello"; Post.content := "World";
     Post.excerpt := None; Post.imageUrl := None; Post.category := "life";
     Post.tags := None; Post.authorId := "u9"; Post.published := Some true;
     Post.createdAt := Some 1100%Z; Post.updatedAt := Some 1100%Z |}.

Definition blog : Store :=
  {| users := [carol]; posts := [hello]; videos := []; comments := [] |}.

(** Alice asking for the e-mail address Bob holds. *)
Definition alice_as_bob : UpsertUser.t :=
  {| UpsertUser.id := Supplied "u1";
     UpsertUser.email := Supplied (Some "bob@example.org");
     UpsertUser.firstName := Omitted; UpsertUser.lastName := Omitted;
     UpsertUser.profileImageUrl := Omitted; UpsertUser.role := Omitted;
     UpsertUser.createdAt := Omitted; UpsertUser.updatedAt := Omitted |}.


(** Five published posts created at the same instant. *)
Definition simultaneous (id : string) : Post.t :=
  {| Post.id := id; Post.title := "Same time"; Post.content := "c";
     Post.excerpt := None; Post.imageUrl := None; Post.category := "life";
     Post.tags := None; Post.authorId := "u1"; Post.published := Some true;
     Post.createdAt := Some 100%Z; Post.updatedAt := Some 100%Z |}.

Definition five : Store :=
  {| users := [alice];
     posts := map simultaneous ["m00"; "m01"; "m02"; "m03"; "m04"];
     videos := []; comments := [] |}.

(** Two ways an execution may meet the rows: last row first, and the same
    with the first two exchanged. *)
Definition newest_stored_first : scan_order Post.t := @rev Post.t.

Definition second_first : scan_order Post.t :=
  fun l =>
    match rev l with
    | a :: b :: rest => b :: a :: rest
    | short => short
    end.

(** An id that holds the NUL character. *)
Definition nul_id : string := String "p" (String Text.nul "1").

(** A title of 256 characters, and one of 255 followed by a space. *)
Definition long_title : string := String.concat "" (repeat "x" 256).

Definition padded_title : string := String.concat "" (repeat "x" 255) ++ " ".

Definition overlong : InsertPost.t :=
  {| InsertPost.title := long_title; InsertPost.content := "Boil.";
     InsertPost.excerpt := Omitted; InsertPost.imageUrl := Omitted;
     InsertPost.category := "food"; InsertPost.tags := Omitted;
     InsertPost.authorId := "u2"; InsertPost.published := Omitted |}.

Definition padded : InsertPost.t :=
  {| InsertPost.title := padded_title; InsertPost.content := "Boil.";
     InsertPost.excerpt := Omitted; InsertPost.imageUrl := Omitted;
     InsertPost.category := "food"; InsertPost.tags := Omitted;
     InsertPost.authorId := "u2"; InsertPost.published := Omitted |}.

Definition overlong_patch : PartialPost.t :=
  {| PartialPost.title := Supplied long_title; PartialPost.content := Omitted;
     PartialPost.excerpt := Omitted; PartialPost.imageUrl := Omitted;
     PartialPost.category := Omitted; PartialPost.tags := Omitted;
     PartialPost.authorId := Omitted; PartialPost.published := Omitted |}.

Definition nul_patch : PartialPost.t :=
  {| PartialPost.title := Omitted; PartialPost.content := Supplied nul_id;
     PartialPost.excerpt := Omitted; PartialPost.imageUrl := Omitted;
     PartialPost.category := Omitted; PartialPost.tags := Omitted;
     PartialPost.authorId := Omitted; PartialPost.published := Omitted |}.

Definition nul_comment : InsertComment.t :=
  {| InsertComment.content := nul_id; InsertComment.authorId := "u2";
     InsertComment.postId := Supplied (Some "p1");
     InsertComment.videoId := Omitted |}.

(** Upserts of Carol that the store refuses: a [createdAt] in the year
    10000, and a first name that holds NUL. *)
Definition carol_far_future : UpsertUser.t :=
  {| UpsertUser.id := Supplied "u9"; UpsertUser.email := Omitted;
     UpsertUser.firstName := Omitted; UpsertUser.lastName := Omitted;
     UpsertUser.profileImageUrl := Omitted; UpsertUser.role := Omitted;
     UpsertUser.createdAt := Supplied (Some 253402300800000%Z);
     UpsertUser.updatedAt := Omitted |}.

Definition carol_nul : UpsertUser.t :=
  {| UpsertUser.id := Supplied "u9"; UpsertUser.email := Omitted;
     UpsertUser.firstName := Supplied (Some nul_id);
     UpsertUser.lastName := Omitted; UpsertUser.profileImageUrl := Omitted;
     UpsertUser.role := Omitted; UpsertUser.createdAt := Omitted;
     UpsertUser.updatedAt := Omitted |}.

(** A first upsert that brings its own, later, [updatedAt]. *)
Definition carol_postdated : UpsertUser.t :=
  {| UpsertUser.id := Supplied "u9";
     UpsertUser.email := Supplied (Some "carol@example.org");
     UpsertUser.firstName := Supplied (Some "Carol");
     UpsertUser.lastName := Omitted; UpsertUser.profileImageUrl := Omitted;
     UpsertUser.role := Omitted; UpsertUser.createdAt := Omitted;
     UpsertUser.updatedAt := Supplied (Some 9000%Z) |}.

(** Carol asking for the e-mail address Alice holds. *)
Definition carol_as_alice : UpsertUser.t :=
  {| UpsertUser.id := Supplied "u9";
     UpsertUser.email := Supplied (Some "alice@example.org");
     UpsertUser.firstName := Omitted; UpsertUser.lastName := Omitted;
     UpsertUser.profileImageUrl := Omitted; UpsertUser.role := Omitted;
     UpsertUser.createdAt := Omitted; UpsertUser.updatedAt := Omitted |}.

End Sample.

(** * Properties *)

(** ** Conditions *)

Lemma holds_and a b : Sql.holds (Sql.and_ a b) = Sql.holds a && Sql.holds b.
Proof. destruct a as [[|]|], b as [[|]|]; reflexivity. Qed.

Lemma holds_or a b : Sql.holds (Sql.or_ a b) = Sql.holds a || Sql.holds b.
Proof. destruct a as [[|]|], b as [[|]|]; reflexivity. Qed.

Lemma holds_is_true (x : option bool) :
  Sql.holds (is_true x) = true <-> x = Some true.
Proof. destruct x as [[|]|]; simpl; split; congruence. Qed.

Lemma holds_str_eq (x : option string) (k : string) :
  Sql.holds (str_eq x (Some k)) = true <-> x = Some k.
Proof.
  destruct x as [s|]; simpl.
  - destruct (String.eqb_spec s k); split; congruence.
  - split; discriminate.
Qed.

Lemma holds_key_eq (a k : string) :
  Sql.holds (str_eq (Some a) (Some k)) = String.eqb a k.
Proof. simpl. destruct (String.eqb a k); reflexivity. Qed.

Unset Implicit Arguments.

(** ** Parameters *)

Lemma text_taken (s : string) : Text.has_nul s = false -> Pg.text s = true.
Proof. unfold Pg.text. now intros ->. Qed.

Lemma text_refused (s : string) : Text.has_nul s = true -> Pg.text s = false.
Proof. unfold Pg.text. now intros ->. Qed.

Lemma storable_cons (s : string) (l : list string) :
  storable (s :: l) <-> Text.has_nul s = false /\ storable l.
Proof.
  unfold storable. cbn [forallb]. rewrite andb_true_iff. unfold Pg.text.
  rewrite negb_true_iff. tauto.
Qed.

Lemma storable_app (l l' : list string) :
  storable (l ++ l') <-> storable l /\ storable l'.
Proof. unfold storable. rewrite forallb_app, andb_true_iff. tauto. Qed.

Lemma storable_in (l : list string) (s : string) :
  storable l -> In s l -> Text.has_nul s = false.
Proof.
  unfold storable. rewrite forallb_forall. intros H Hin.
  specialize (H s Hin). unfold Pg.text in H. now apply negb_true_iff.
Qed.

Lemma varchar_within (n : nat) (s : string) :
  within n s -> Pg.varchar n s = Resolved s.
Proof.
  unfold within, Text.length, Pg.varchar. intros H.
  apply Nat.leb_le in H. now rewrite H.
Qed.

Lemma varchar_field_within (n : nat) (f : field string) :
  field_within n f -> Pg.varchar_field n f = Resolved f.
Proof.
  destruct f as [|s]; simpl; [reflexivity|]. intros H.
  now rewrite (varchar_within n s H).
Qed.

(** What a [varchar] column takes holds at most its bound. *)
Lemma varchar_bound (n : nat) (s s' : string) :
  Pg.varchar n s = Resolved s' ->
  (within n s /\ s' = s)
  \/ (~ within n s
      /\ s' = String.concat "" (firstn n (Text.chars s))
      /\ Forall (eq Pg.space) (skipn n (Text.chars s))).
Proof.
  unfold within, Text.length, Pg.varchar.
  destruct (Nat.leb_spec (List.length (Text.chars s)) n) as [Hle|Hgt].
  - intros H. injection H as <-. now left.
  - destruct (forallb _ _) eqn:Hsp; [|discriminate].
    intros H. injection H as <-. right. split; [lia|]. split; [reflexivity|].
    apply Forall_forall. intros c Hc. rewrite forallb_forall in Hsp.
    apply String.eqb_eq. now apply Hsp.
Qed.

Lemma bigint_whole (z : Z) :
  (- 2 ^ 63 <= z < 2 ^ 63)%Z -> Pg.bigint (whole z) = Resolved z.
Proof.
  intros Hz. unfold Pg.bigint, whole, Number.integral, Number.floor.
  cbn [Qnum Qden]. rewrite Z.mod_1_r, Z.div_1_r. cbn [Z.eqb andb].
  assert (Habs : (Z.abs z <? 10 ^ 21)%Z = true).
  { apply Z.ltb_lt. assert ((2 ^ 63 < 10 ^ 21)%Z) by reflexivity. lia. }
  rewrite Habs.
  assert (Hlo : (- 2 ^ 63 <=? z)%Z = true) by (apply Z.leb_le; lia).
  assert (Hhi : (z <? 2 ^ 63)%Z = true) by (apply Z.ltb_lt; lia).
  now rewrite Hlo, Hhi.
Qed.

Lemma limit_clause_whole (n : nat) :
  (Z.of_nat n < 2 ^ 63)%Z ->
  Query.limit_clause (whole (Z.of_nat n)) = Resolved (Some n).
Proof.
  intros Hn. unfold Query.limit_clause.
  assert (Hge : Number.ge0 (whole (Z.of_nat n)) = true).
  { unfold Number.ge0, whole. cbn [Qnum]. apply Z.leb_le. lia. }
  rewrite Hge, bigint_whole by lia. cbn [bind]. now rewrite Nat2Z.id.
Qed.

Lemma offset_clause_whole (n : nat) :
  (Z.of_nat n < 2 ^ 63)%Z ->
  exists clause,
    Query.offset_clause (whole (Z.of_nat n)) = Resolved clause
    /\ forall (R : Type) (rows : list R), Query.offset clause rows = skipn n rows.
Proof.
  intros Hn. unfold Query.offset_clause, Number.truthy, whole. cbn [Qnum].
  destruct (Z.eqb_spec (Z.of_nat n) 0) as [E|E]; cbn [negb].
  - exists None. split; [reflexivity|]. intros R rows.
    assert (n = 0) by lia. now subst n.
  - change (Finite (Qmake (Z.of_nat n) 1)) with (whole (Z.of_nat n)).
    rewrite bigint_whole by lia. cbn [bind].
    assert (Hneg : (Z.of_nat n <? 0)%Z = false) by (apply Z.ltb_ge; lia).
    rewrite Hneg, Nat2Z.id. exists (Some n). split; reflexivity.
Qed.

Lemma counts_limit (default : nat) (arg : option number) (n : nat) :
  (Z.of_nat default < 2 ^ 63)%Z -> counts default arg n ->
  Query.limit_clause (param (whole (Z.of_nat default)) arg) = Resolved (Some n).
Proof.
  intros Hd. destruct arg as [x|]; cbn [counts param].
  - intros [-> Hn]. now apply limit_clause_whole.
  - intros ->. now apply limit_clause_whole.
Qed.

Lemma counts_offset (default : nat) (arg : option number) (n : nat) :
  (Z.of_nat default < 2 ^ 63)%Z -> counts default arg n ->
  exists clause,
    Query.offset_clause (param (whole (Z.of_nat default)) arg) = Resolved clause
    /\ forall (R : Type) (rows : list R), Query.offset clause rows = skipn n rows.
Proof.
  intros Hd. destruct arg as [x|]; cbn [counts param].
  - intros [-> Hn]. now apply offset_clause_whole.
  - intros ->. now apply offset_clause_whole.
Qed.

(** A negative limit, or [NaN], writes no [LIMIT]. *)
Lemma limit_clause_dropped (x : number) :
  Number.ge0 x = false -> Query.limit_clause x = Resolved None.
Proof. unfold Query.limit_clause. now intros ->. Qed.

(** A whole limit that the store takes is below 2^63. *)
Lemma limit_clause_bound (n : nat) (clause : option nat) :
  Query.limit_clause (whole (Z.of_nat n)) = Resolved clause ->
  (Z.of_nat n < 2 ^ 63)%Z.
Proof.
  unfold Query.limit_clause, Pg.bigint, whole, Number.ge0, Number.integral,
    Number.floor.
  cbn [Qnum Qden]. rewrite Z.mod_1_r, Z.div_1_r.
  destruct (Z.leb_spec 0 (Z.of_nat n)) as [_|Hneg]; [|lia].
  destruct ((0 =? 0)%Z && (Z.abs (Z.of_nat n) <? 10 ^ 21)%Z);
    [|discriminate].
  destruct (- 2 ^ 63 <=? Z.of_nat n)%Z; [|discriminate].
  destruct (Z.ltb_spec (Z.of_nat n) (2 ^ 63)) as [Hlt|Hge];
    [intros _; exact Hlt | discriminate].
Qed.

(** ** Characters *)

Lemma chars_single (b : ascii) (s : string) :
  Text.single b = true -> Text.chars (String b s) = String b "" :: Text.chars s.
Proof.
  intros H. cbn [Text.chars]. rewrite H. cbn [negb andb].
  now destruct (Text.chars s).
Qed.

Lemma continues_app (s : string) (b : ascii) :
  Text.continuation b = false ->
  Text.continues (s ++ String b "") = Text.continues s.
Proof. intros H. destruct s as [|a s]; simpl; [exact H | reflexivity]. Qed.

Lemma chars_nil (s : string) : Text.chars s = [] -> s = "".
Proof.
  destruct s as [|a s]; [reflexivity|]. cbn [Text.chars].
  destruct (Text.chars s); [discriminate|].
  destruct (negb (Text.single a) && Text.continues s); discriminate.
Qed.

Lemma chars_snoc (s : string) (b : ascii) :
  Text.continuation b = false ->
  Text.chars (s ++ String b "") = Text.chars s ++ [String b ""].
Proof.
  intros H. induction s as [|a s IH]; [reflexivity|].
  change (String a s ++ String b "")%string
    with (String a (s ++ String b "")).
  cbn [Text.chars]. rewrite IH, (continues_app s b H).
  destruct (Text.chars s) as [|c cs] eqn:E; cbn [app].
  - apply chars_nil in E. subst s. cbn [Text.continues].
    now rewrite andb_false_r.
  - now destruct (negb (Text.single a) && Text.continues s).
Qed.

Lemma chars_wrap (q : string) :
  Text.chars (Like.percent ++ q ++ Like.percent)
  = Like.percent :: Text.chars q ++ [Like.percent].
Proof.
  unfold Like.percent.
  change ("%" ++ q ++ "%")%string
    with (String "%"%char (q ++ String "%"%char "")).
  rewrite chars_single by reflexivity. now rewrite chars_snoc.
Qed.

Set Implicit Arguments.

(** ** Lists: filters, keys, sorted rearrangements *)

Section ListFacts.

Context {A B : Type}.

Lemma filter_map_swap (f : A -> B) (p : B -> bool) (l : list A) :
  filter p (map f l) = map f (filter (fun a => p (f a)) l).
Proof.
  induction l as [|a l IH]; simpl; [reflexivity|].
  destruct (p (f a)); simpl; rewrite IH; reflexivity.
Qed.

Lemma filter_none (p : A -> bool) (l : list A) :
  (forall a, In a l -> p a = false) -> filter p l = [].
Proof.
  induction l as [|a l IH]; simpl; intros H; [reflexivity|].
  rewrite (H a (or_introl eq_refl)). apply IH. intros b Hb. apply H. now right.
Qed.

Lemma filter_all (p : A -> bool) (l : list A) :
  (forall a, In a l -> p a = true) -> filter p l = l.
Proof.
  induction l as [|a l IH]; simpl; intros H; [reflexivity|].
  rewrite (H a (or_introl eq_refl)). f_equal. apply IH. intros b Hb. apply H. now right.
Qed.

(** Under a unique key, the rows carrying one key value are at most one. *)
Lemma key_injective (key : A -> B) (l : list A) (a b : A) :
  NoDup (map key l) -> In a l -> In b l -> key a = key b -> a = b.
Proof.
  induction l as [|x l IH]; simpl; intros Hnd Ha Hb Hk; [contradiction|].
  inversion Hnd as [|? ? Hx Hnd']; subst.
  destruct Ha as [<-|Ha], Hb as [<-|Hb].
  - reflexivity.
  - exfalso. apply Hx. rewrite Hk. now apply in_map.
  - exfalso. apply Hx. rewrite <- Hk. now apply in_map.
  - now apply IH.
Qed.

Lemma filter_key_unique (key : A -> string) (l : list A) (a : A) :
  NoDup (map key l) -> In a l ->
  filter (fun x => String.eqb (key x) (key a)) l = [a].
Proof.
  induction l as [|x l IH]; simpl; intros Hnd Ha; [contradiction|].
  inversion Hnd as [|? ? Hx Hnd']; subst.
  destruct Ha as [->|Ha].
  - rewrite String.eqb_refl. f_equal. apply filter_none.
    intros b Hb. apply String.eqb_neq. intros E. apply Hx. rewrite <- E.
    now apply in_map.
  - destruct (String.eqb_spec (key x) (key a)) as [E|E].
    + exfalso. apply Hx. rewrite E. now apply in_map.
    + now apply IH.
Qed.

Lemma filter_key_absent (key : A -> string) (l : list A) (k : string) :
  (forall x, In x l -> key x <> k) ->
  filter (fun x => String.eqb (key x) k) l = [].
Proof.
  intros H. apply filter_none. intros a Ha. apply String.eqb_neq. now apply H.
Qed.

Lemma filter_perm (p : A -> bool) (l1 l2 : list A) :
  Permutation l1 l2 -> Permutation (filter p l1) (filter p l2).
Proof.
  induction 1 as [|x l1 l2 _ IH|x y l|l1 l2 l3 _ IH1 _ IH2]; simpl.
  - constructor.
  - destruct (p x); [now constructor | assumption].
  - destruct (p x), (p y); try reflexivity. constructor.
  - now transitivity (filter p l2).
Qed.

End ListFacts.

Section Ordering.

Context {R : Type} (key : R -> option timestamp).

Local Abbreviation before := (before key).
Local Abbreviation newest_first := (newest_first key).

Lemma desc_total (a b : option timestamp) :
  Query.desc a b = false -> Query.desc b a = true.
Proof.
  destruct a as [x|], b as [y|]; simpl; try congruence.
  intros H. apply Z.leb_gt in H. apply Z.leb_le. lia.
Qed.

Lemma desc_trans (a b c : option timestamp) :
  Query.desc a b = true -> Query.desc b c = true -> Query.desc a c = true.
Proof.
  destruct a as [x|], b as [y|], c as [z|]; simpl; try congruence.
  intros H1 H2. apply Z.leb_le in H1, H2. apply Z.leb_le. lia.
Qed.

Lemma desc_antisym (a b : option timestamp) :
  Query.desc a b = true -> Query.desc b a = true -> a = b.
Proof.
  destruct a as [x|], b as [y|]; simpl; try congruence.
  intros H1 H2. apply Z.leb_le in H1, H2. f_equal. lia.
Qed.

(** Between two dated rows, [before] is "not older than". *)
Lemma before_dated (a b : R) (x y : timestamp) :
  key a = Some x -> key b = Some y -> (before a b <-> (y <= x)%Z).
Proof.
  unfold before. intros -> ->. simpl. apply Z.leb_le.
Qed.

Let le (a b : R) : bool := Query.desc (key a) (key b).

Lemma insert_sorted_perm (x : R) (l : list R) :
  Permutation (Query.insert_sorted le x l) (x :: l).
Proof.
  induction l as [|y l IH]; simpl; [reflexivity|].
  destruct (le x y); [reflexivity|].
  rewrite IH. apply perm_swap.
Qed.

Lemma orderBy_perm (l : list R) : Permutation (Query.orderBy l key) l.
Proof.
  induction l as [|x l IH]; simpl; [constructor|].
  unfold Query.orderBy in *. simpl.
  etransitivity; [apply insert_sorted_perm|]. now constructor.
Qed.

Lemma insert_sorted_sorted (x : R) (l : list R) :
  newest_first l -> newest_first (Query.insert_sorted le x l).
Proof.
  induction l as [|y l IH]; simpl; intros Hs.
  - constructor; [constructor | constructor].
  - inversion Hs as [|? ? Hl Hy]; subst.
    destruct (le x y) eqn:E.
    + constructor; [assumption|]. constructor; [exact E|].
      eapply Forall_impl; [|exact Hy].
      intros z Hz. unfold before in *. eapply desc_trans; eauto.
    + constructor; [now apply IH|].
      assert (Hp : Permutation (Query.insert_sorted le x l) (x :: l))
        by apply insert_sorted_perm.
      apply Forall_forall. intros z Hz.
      apply (Permutation_in _ Hp) in Hz. destruct Hz as [<-|Hz].
      * unfold before. now apply desc_total.
      * rewrite Forall_forall in Hy. now apply Hy.
Qed.

Lemma orderBy_sorted (l : list R) : newest_first (Query.orderBy l key).
Proof.
  induction l as [|x l IH]; unfold Query.orderBy in *; simpl.
  - constructor.
  - now apply insert_sorted_sorted.
Qed.

(** Two sorted arrangements of the same rows agree as soon as no two rows
    share a key. *)
Lemma sorted_perm_unique (l1 l2 : list R) :
  newest_first l1 -> newest_first l2 -> Permutation l1 l2 ->
  (forall a b, In a l1 -> In b l1 -> key a = key b -> a = b) ->
  l1 = l2.
Proof.
  revert l2. induction l1 as [|a l1 IH]; intros l2 H1 H2 Hp Hinj.
  - now apply Permutation_nil in Hp.
  - destruct l2 as [|b l2].
    + symmetry in Hp. now apply Permutation_nil in Hp.
    + inversion H1 as [|? ? H1' Ha]; inversion H2 as [|? ? H2' Hb]; subst.
      assert (E : a = b).
      { assert (Ia : In a (b :: l2))
          by (apply (Permutation_in _ Hp); now left).
        assert (Ib : In b (a :: l1))
          by (apply (Permutation_in _ (Permutation_sym Hp)); now left).
        destruct Ia as [->|Ia]; [reflexivity|].
        destruct Ib as [->|Ib]; [reflexivity|].
        rewrite Forall_forall in Ha, Hb.
        apply Hinj; [now left | now right |].
        apply desc_antisym; [now apply Ha | now apply Hb]. }
      subst b. f_equal. apply IH; try assumption.
      * now apply Permutation_cons_inv in Hp.
      * intros x y Hx Hy. apply Hinj; now right.
Qed.

Lemma sorted_firstn (n : nat) (l : list R) :
  newest_first l -> newest_first (firstn n l).
Proof.
  intros Hs. revert n. induction Hs as [|a l Hs IH Ha]; intros [|n]; simpl;
    try constructor.
  - apply IH.
  - apply Forall_forall. intros x Hx. rewrite Forall_forall in Ha.
    apply Ha. rewrite <- (firstn_skipn n l). apply in_or_app. now left.
Qed.

Lemma sorted_skipn (n : nat) (l : list R) :
  newest_first l -> newest_first (skipn n l).
Proof.
  intros Hs. revert n. induction Hs as [|a l Hs IH Ha]; intros [|n]; simpl.
  - constructor.
  - constructor.
  - now constructor.
  - apply IH.
Qed.

End Ordering.

(** ** The read pipeline in normal form *)

Section Pipeline.

Context {E : Type} (authorId : E -> string).

Let on (e : E) (u : User.t) : Sql.cond :=
  str_eq (Some (authorId e)) (Some (User.id u)).

Lemma filter_by_key (us : list User.t) (k : string) :
  NoDup (map User.id us) ->
  filter (fun u => Sql.holds (str_eq (Some k) (Some (User.id u)))) us
  = match find (fun u => String.eqb (User.id u) k) us with
    | Some u => [u]
    | None => []
    end.
Proof.
  induction us as [|u us IH]; simpl; intros Hnd; [reflexivity|].
  inversion Hnd as [|? ? Hu Hnd']; subst.
  rewrite (String.eqb_sym k (User.id u)).
  destruct (String.eqb_spec (User.id u) k) as [Ek|Ek]; simpl.
  - f_equal. apply filter_none. intros v Hv.
    destruct (String.eqb_spec k (User.id v)) as [Ev|Ev]; [|reflexivity].
    exfalso. apply Hu. rewrite Ek, Ev. now apply in_map.
  - destruct (String.eqb k (User.id u)) eqn:E'; now apply IH.
Qed.

(** With a unique [users.id], the join yields each entity row once, beside
    the author found for it. *)
Lemma leftJoin_keyed (st : Store) (rows : list E) :
  NoDup (map User.id (users st)) ->
  Query.leftJoin rows (users st) on
  = map (fun e => (e, author_of st (authorId e))) rows.
Proof.
  intros Hnd. unfold Query.leftJoin.
  set (f := fun a : E => _).
  induction rows as [|e rows IH]; [reflexivity|].
  change (flat_map f (e :: rows)) with (f e ++ flat_map f rows).
  rewrite IH, map_cons. subst f. cbv beta. unfold on.
  rewrite filter_by_key by exact Hnd. unfold author_of.
  destruct (find (fun u => String.eqb (User.id u) (authorId e)) (users st));
    reflexivity.
Qed.

(** Without that assumption the join still shows exactly the entity rows. *)
Lemma leftJoin_rows (us : list User.t) (rows : list E) (e : E) :
  In e (map fst (Query.leftJoin rows us on)) <-> In e rows.
Proof.
  unfold Query.leftJoin. set (f := fun a : E => _).
  assert (Hf : forall x, In e (map fst (f x)) <-> x = e).
  { intros x. subst f. cbv beta.
    destruct (filter (fun b => Sql.holds (on x b)) us) as [|b bs].
    - simpl. tauto.
    - rewrite map_map. cbn [fst]. split.
      + intros H. apply in_map_iff in H. now destruct H as (? & ? & _).
      + intros ->. apply in_map_iff. exists b. split; [reflexivity | now left]. }
  induction rows as [|x rows IH]; [simpl; tauto|].
  change (flat_map f (x :: rows)) with (f x ++ flat_map f rows).
  rewrite map_app, in_app_iff, IH, Hf. simpl. tauto.
Qed.

Lemma insert_sorted_map {R S : Type} (f : R -> S) (le : S -> S -> bool)
    (x : R) (l : list R) :
  Query.insert_sorted le (f x) (map f l)
  = map f (Query.insert_sorted (fun a b => le (f a) (f b)) x l).
Proof.
  induction l as [|y l IH]; simpl; [reflexivity|].
  destruct (le (f x) (f y)); simpl; [reflexivity|]. now rewrite IH.
Qed.

Lemma orderBy_map {R S : Type} (f : R -> S) (key : S -> option timestamp)
    (l : list R) :
  Query.orderBy (map f l) key = map f (Query.orderBy l (fun r => key (f r))).
Proof.
  unfold Query.orderBy. induction l as [|x l IH]; simpl; [reflexivity|].
  rewrite IH.
  apply (insert_sorted_map f (fun a b => Query.desc (key a) (key b))).
Qed.

(** A filtered, ordered, paged and mapped join, row by row over the entity
    table. *)
Lemma pipeline_normal (st : Store) (rows : list E) (c : E -> Sql.cond)
    (key : E -> option timestamp) (n m : nat) :
  NoDup (map User.id (users st)) ->
  map withAuthor
    (firstn n
       (skipn m
          (Query.orderBy
             (Query.where_ (Query.leftJoin rows (users st) on)
                (fun row => c (fst row)))
             (fun row => key (fst row)))))
  = map (attach st authorId)
      (firstn n (skipn m
         (Query.orderBy (filter (fun e => Sql.holds (c e)) rows) key))).
Proof.
  intros Hnd. rewrite leftJoin_keyed by exact Hnd.
  unfold Query.where_.
  rewrite filter_map_swap. simpl.
  rewrite (orderBy_map (fun e => (e, author_of st (authorId e)))
             (fun row => key (fst row))).
  cbn [fst]. rewrite skipn_map, firstn_map, map_map. reflexivity.
Qed.

(** The same without a bound on the number of rows. *)
Lemma pipeline_unbounded (st : Store) (rows : list E) (c : E -> Sql.cond)
    (key : E -> option timestamp) (m : nat) :
  NoDup (map User.id (users st)) ->
  map withAuthor
    (skipn m
       (Query.orderBy
          (Query.where_ (Query.leftJoin rows (users st) on)
             (fun row => c (fst row)))
          (fun row => key (fst row))))
  = map (attach st authorId)
      (skipn m (Query.orderBy (filter (fun e => Sql.holds (c e)) rows) key)).
Proof.
  intros Hnd. rewrite leftJoin_keyed by exact Hnd.
  unfold Query.where_.
  rewrite filter_map_swap. simpl.
  rewrite (orderBy_map (fun e => (e, author_of st (authorId e)))
             (fun row => key (fst row))).
  cbn [fst]. rewrite skipn_map, map_map. reflexivity.
Qed.

End Pipeline.

(** ** Public listings *)

Section Listing.

Context {E : Type} (published : E -> option bool)
  (createdAt : E -> option timestamp) (authorId : E -> string).

Lemma in_window (n m : nat) (l : list E) (e : E) :
  In e (firstn n (skipn m l)) -> In e l.
Proof.
  intros H. rewrite <- (firstn_skipn m l). apply in_or_app. right.
  rewrite <- (firstn_skipn n (skipn m l)). apply in_or_app. now left.
Qed.

Lemma entity_attach (st : Store) (l : list E) :
  map entity (map (attach st authorId) l) = l.
Proof. rewrite map_map. simpl. apply map_id. Qed.

(** What follows for a page from its description. *)
Lemma page_of_facts (st : Store) (table : list E) (limit offset : nat)
    (result : list (WithAuthor E)) :
  page_of published createdAt authorId st table limit offset result ->
  Forall (fun r => published (entity r) = Some true /\ In (entity r) table) result
  /\ List.length result <= limit
  /\ newest_first createdAt (map entity result)
  /\ Forall (fun r => author r = author_of st (authorId (entity r))) result.
Proof.
  intros (ordering & Hperm & Hsorted & ->). repeat split.
  - apply Forall_forall. intros r Hr. apply in_map_iff in Hr.
    destruct Hr as (e & <- & He). simpl. apply in_window in He.
    apply (Permutation_in _ Hperm) in He. apply filter_In in He.
    destruct He as [Hin Hv]. split; [|assumption].
    now apply holds_is_true.
  - rewrite length_map. apply firstn_le_length.
  - rewrite entity_attach. now apply sorted_firstn, sorted_skipn.
  - apply Forall_forall. intros r Hr. apply in_map_iff in Hr.
    now destruct Hr as (e & <- & _).
Qed.

(** The listing pipeline computes a page. *)
Lemma listing_page (sc : scan_order E) (st : Store) (table : list E)
    (limit offset : nat) :
  fair sc -> NoDup (map User.id (users st)) ->
  page_of published createdAt authorId st table limit offset
    (map withAuthor
       (firstn limit
          (skipn offset
             (Query.orderBy
                (Query.where_
                   (Query.leftJoin (Query.from sc table) (users st)
                      (fun e u => str_eq (Some (authorId e)) (Some (User.id u))))
                   (fun row => is_true (published (fst row))))
                (fun row => createdAt (fst row)))))).
Proof.
  intros Hfair Hnd.
  rewrite (pipeline_normal authorId st (Query.from sc table)
             (fun e => is_true (published e)) createdAt limit offset Hnd).
  exists (Query.orderBy (filter (visible published) (sc table)) createdAt).
  split; [|split].
  - etransitivity; [apply orderBy_perm|]. apply filter_perm, Hfair.
  - apply orderBy_sorted.
  - reflexivity.
Qed.

End Listing.

(** The paged methods on arguments that are row counts, and on whatever
    arguments they resolve with. *)
Ltac paged Hl Ho :=
  cbv zeta;
  change (whole 20) with (whole (Z.of_nat 20));
  change (whole 0) with (whole (Z.of_nat 0));
  rewrite (counts_limit 20 _ _ eq_refl Hl);
  let c := fresh "clause" in
  let Hc := fresh "Hclause" in
  let Hskip := fresh "Hskip" in
  destruct (counts_offset 0 _ _ eq_refl Ho) as (c & Hc & Hskip);
  rewrite Hc; cbn [bind Query.limit]; rewrite Hskip.

Ltac unbounded Hx Ho :=
  cbv zeta; cbn [param];
  change (whole 0) with (whole (Z.of_nat 0));
  rewrite (limit_clause_dropped _ Hx);
  let c := fresh "clause" in
  let Hc := fresh "Hclause" in
  let Hskip := fresh "Hskip" in
  destruct (counts_offset 0 _ _ eq_refl Ho) as (c & Hc & Hskip);
  rewrite Hc; cbn [bind Query.limit]; rewrite Hskip.

Ltac clauses H lim off :=
  cbv zeta in H;
  destruct (Query.limit_clause _) as [lim|]; [|discriminate H];
  cbn [bind] in H;
  destruct (Query.offset_clause _) as [off|]; [|discriminate H];
  cbn [bind] in H.

Lemma getPosts_counts (sc : scan_order Post.t) (st : Store)
    (limit offset : option number) (l o : nat) :
  counts 20 limit l -> counts 0 offset o ->
  getPosts sc st limit offset
  = Resolved
      (map withAuthor
         (firstn l
            (skipn o
               (Query.orderBy
                  (Query.where_
                     (Query.leftJoin (Query.from sc (posts st)) (users st)
                        post_author)
                     (fun row => is_true (Post.published (fst row))))
                  (fun row => Post.createdAt (fst row)))))).
Proof. intros Hl Ho. unfold getPosts. paged Hl Ho. reflexivity. Qed.

Lemma getVideos_counts (sv : scan_order Video.t) (st : Store)
    (limit offset : option number) (l o : nat) :
  counts 20 limit l -> counts 0 offset o ->
  getVideos sv st limit offset
  = Resolved
      (map withAuthor
         (firstn l
            (skipn o
               (Query.orderBy
                  (Query.where_
                     (Query.leftJoin (Query.from sv (videos st)) (users st)
                        video_author)
                     (fun row => is_true (Video.published (fst row))))
                  (fun row => Video.createdAt (fst row)))))).
Proof. intros Hl Ho. unfold getVideos. paged Hl Ho. reflexivity. Qed.

Lemma getPosts_resolved (sc : scan_order Post.t) (st : Store)
    (limit offset : option number) (rows : list PostWithAuthor) :
  getPosts sc st limit offset = Resolved rows ->
  exists lim off,
    rows
    = map withAuthor
        (Query.limit lim
           (Query.offset off
              (Query.orderBy
                 (Query.where_
                    (Query.leftJoin (Query.from sc (posts st)) (users st)
                       post_author)
                    (fun row => is_true (Post.published (fst row))))
                 (fun row => Post.createdAt (fst row))))).
Proof.
  unfold getPosts. intros H. clauses H lim off.
  injection H as <-. now exists lim, off.
Qed.

Lemma getVideos_resolved (sv : scan_order Video.t) (st : Store)
    (limit offset : option number) (rows : list VideoWithAuthor) :
  getVideos sv st limit offset = Resolved rows ->
  exists lim off,
    rows
    = map withAuthor
        (Query.limit lim
           (Query.offset off
              (Query.orderBy
                 (Query.where_
                    (Query.leftJoin (Query.from sv (videos st)) (users st)
                       video_author)
                    (fun row => is_true (Video.published (fst row))))
                 (fun row => Video.createdAt (fst row))))).
Proof.
  unfold getVideos. intros H. clauses H lim off.
  injection H as <-. now exists lim, off.
Qed.

(** [C1], as the code has it.  When [limit] and [offset] are whole numbers
    from 0 to below 2^63 (20 and 0 when left out), [getPosts] and [getVideos]
    resolve with a page of the published rows: the result is the window of
    [limit] rows after the first [offset] rows of the published rows ordered
    by [createdAt], newest first; every returned entity has
    [published = true], the result has at most [limit] entries and is itself
    ordered newest first.  A [limit] that is negative or [NaN] writes no
    [LIMIT] at all: every published row after the first [offset] is
    returned. *)
Theorem getPosts_getVideos_page (sc : scan_order Post.t)
    (sv : scan_order Video.t) (st : Store) (limit offset : option number)
    (l o : nat) :
  fair sc -> fair sv -> keyed st ->
  counts 20 limit l -> counts 0 offset o ->
  (exists rows,
     getPosts sc st limit offset = Resolved rows
     /\ page_of Post.published Post.createdAt Post.authorId st (posts st)
          l o rows
     /\ Forall (fun r => Post.published (entity r) = Some true
                         /\ In (entity r) (posts st)) rows
     /\ List.length rows <= l
     /\ newest_first Post.createdAt (map entity rows))
  /\ (exists rows,
        getVideos sv st limit offset = Resolved rows
        /\ page_of Video.published Video.createdAt Video.authorId st (videos st)
             l o rows
        /\ Forall (fun r => Video.published (entity r) = Some true
                            /\ In (entity r) (videos st)) rows
        /\ List.length rows <= l
        /\ newest_first Video.createdAt (map entity rows))
  /\ (forall x, Number.ge0 x = false ->
      exists rows ordering,
        getPosts sc st (Some x) offset = Resolved rows
        /\ Permutation ordering (filter (visible Post.published) (posts st))
        /\ newest_first Post.createdAt ordering
        /\ rows = map (attach st Post.authorId) (skipn o ordering))
  /\ (forall x, Number.ge0 x = false ->
      exists rows ordering,
        getVideos sv st (Some x) offset = Resolved rows
        /\ Permutation ordering (filter (visible Video.published) (videos st))
        /\ newest_first Video.createdAt ordering
        /\ rows = map (attach st Video.authorId) (skipn o ordering)).
Proof.
  intros Hsc Hsv Hk Hl Ho. split; [|split; [|split]].
  - eexists. split; [exact (getPosts_counts sc st limit offset l o Hl Ho)|].
    pose proof (listing_page Post.published Post.createdAt Post.authorId
                  st (posts st) l o Hsc (users_keyed Hk)) as Hp.
    split; [exact Hp|].
    destruct (page_of_facts Hp) as (H1 & H2 & H3 & _). auto.
  - eexists. split; [exact (getVideos_counts sv st limit offset l o Hl Ho)|].
    pose proof (listing_page Video.published Video.createdAt Video.authorId
                  st (videos st) l o Hsv (users_keyed Hk)) as Hp.
    split; [exact Hp|].
    destruct (page_of_facts Hp) as (H1 & H2 & H3 & _). auto.
  - intros x Hx. unfold getPosts. unbounded Hx Ho.
    eexists. eexists. split; [reflexivity|]. unfold post_author.
    rewrite (pipeline_unbounded Post.authorId st (Query.from sc (posts st))
               (fun e => is_true (Post.published e)) Post.createdAt o
               (users_keyed Hk)).
    split; [|split; [apply orderBy_sorted | reflexivity]].
    etransitivity; [apply orderBy_perm | apply filter_perm, Hsc].
  - intros x Hx. unfold getVideos. unbounded Hx Ho.
    eexists. eexists. split; [reflexivity|]. unfold video_author.
    rewrite (pipeline_unbounded Video.authorId st (Query.from sv (videos st))
               (fun e => is_true (Video.published e)) Video.createdAt o
               (users_keyed Hk)).
    split; [|split; [apply orderBy_sorted | reflexivity]].
    etransitivity; [apply orderBy_perm | apply filter_perm, Hsv].
Qed.

(** [C1] fails as stated: [limit] and [offset] are JavaScript numbers.  On
    the sample store a limit of -1 returns two rows, more than the limit; a
    limit of 2^63, a limit of 3/2 and an offset of -1 are refused by the
    store. *)
Lemma getPosts_limit_counterexample :
  (exists rows,
     getPosts stored_order Sample.store (Some (whole (-1))) None = Resolved rows
     /\ ~ (Z.of_nat (List.length rows) <= -1)%Z)
  /\ (exists e,
        getPosts stored_order Sample.store (Some (whole (2 ^ 63))) None
        = Rejected e)
  /\ (exists e,
        getPosts stored_order Sample.store (Some (Finite (Qmake 3 2))) None
        = Rejected e)
  /\ (exists e,
        getPosts stored_order Sample.store None (Some (whole (-1)))
        = Rejected e).
Proof.
  split; [|split; [|split]].
  - eexists. split; [vm_compute; reflexivity|]. cbn. lia.
  - eexists. vm_compute. reflexivity.
  - eexists. vm_compute. reflexivity.
  - eexists. vm_compute. reflexivity.
Qed.

(** ** Point lookups *)

Section Lookup.

Context {E : Type} (id : E -> string) (authorId : E -> string).

Lemma fair_keyed (sc : scan_order E) (table : list E) :
  fair sc -> NoDup (map id table) -> NoDup (map id (sc table)).
Proof.
  intros Hf Hnd. eapply Permutation_NoDup; [|exact Hnd].
  apply Permutation_map, Permutation_sym, Hf.
Qed.

Lemma lookup_hit (sc : scan_order E) (st : Store) (table : list E) (e : E) :
  fair sc -> NoDup (map User.id (users st)) -> NoDup (map id table) ->
  In e table ->
  Query.where_
    (Query.leftJoin (Query.from sc table) (users st)
       (fun x u => str_eq (Some (authorId x)) (Some (User.id u))))
    (fun row => str_eq (Some (id (fst row))) (Some (id e)))
  = [(e, author_of st (authorId e))].
Proof.
  intros Hf Hu Hk He.
  rewrite leftJoin_keyed by exact Hu.
  unfold Query.where_, Query.from. rewrite filter_map_swap. cbn [fst].
  erewrite filter_ext; [|intros x; apply holds_key_eq].
  rewrite (filter_key_unique id).
  - reflexivity.
  - now apply fair_keyed.
  - apply (Permutation_in _ (Permutation_sym (Hf table))). exact He.
Qed.

Lemma lookup_miss (sc : scan_order E) (st : Store) (table : list E)
    (k : string) :
  fair sc -> (forall x, In x table -> id x <> k) ->
  Query.where_
    (Query.leftJoin (Query.from sc table) (users st)
       (fun x u => str_eq (Some (authorId x)) (Some (User.id u))))
    (fun row => str_eq (Some (id (fst row))) (Some k))
  = [].
Proof.
  intros Hf Hno. unfold Query.where_. apply filter_none.
  intros row Hrow. rewrite holds_key_eq. apply String.eqb_neq. apply Hno.
  apply (Permutation_in _ (Hf table)).
  apply (leftJoin_rows authorId (users st) (Query.from sc table)).
  now apply in_map.
Qed.

End Lookup.

(** A text parameter without NUL passes the driver. *)
Ltac taken H := rewrite (text_taken _ H); cbn [negb].

Ltac refused H := rewrite (text_refused _ H); cbn [negb].

(** The post half of the lookup, for reuse. *)
Lemma getPost_lookup (sc : scan_order Post.t) (st : Store)
    (id : string) :
  fair sc -> keyed st -> Text.has_nul id = false ->
  (forall p, In p (posts st) -> Post.id p = id ->
     getPost sc st id = Resolved (Some (attach st Post.authorId p)))
  /\ ((forall p, In p (posts st) -> Post.id p <> id) ->
      getPost sc st id = Resolved None).
Proof.
  intros Hsc Hk Hid. split.
  - intros p Hp E. unfold getPost, post_author. taken Hid. subst id.
    rewrite (lookup_hit Post.id Post.authorId st (posts st) p Hsc
               (users_keyed Hk) (posts_keyed Hk) Hp).
    reflexivity.
  - intros Hno. unfold getPost, post_author. taken Hid.
    rewrite (lookup_miss Post.id Post.authorId st (posts st) Hsc Hno).
    reflexivity.
Qed.

(** [C2], as the code has it.  [getPost] and [getVideo] apply no publish
    gate.  For an id that holds no NUL character: when a row with the id
    exists, whatever its [published] column holds, the lookup resolves with
    that row and its author; when no row has the id it resolves with
    nothing.  An id that holds NUL is refused by the store: the lookup
    rejects. *)
Theorem getPost_getVideo_lookup (sc : scan_order Post.t)
    (sv : scan_order Video.t) (st : Store) (id : string) :
  fair sc -> fair sv -> keyed st ->
  (Text.has_nul id = false ->
   (forall p, In p (posts st) -> Post.id p = id ->
      getPost sc st id = Resolved (Some (attach st Post.authorId p)))
   /\ ((forall p, In p (posts st) -> Post.id p <> id) ->
       getPost sc st id = Resolved None)
   /\ (forall v, In v (videos st) -> Video.id v = id ->
         getVideo sv st id = Resolved (Some (attach st Video.authorId v)))
   /\ ((forall v, In v (videos st) -> Video.id v <> id) ->
       getVideo sv st id = Resolved None))
  /\ (Text.has_nul id = true ->
      getPost sc st id = Rejected InvalidByteSequence
      /\ getVideo sv st id = Rejected InvalidByteSequence).
Proof.
  intros Hsc Hsv Hk. split.
  - intros Hid. repeat split.
    + intros p Hp E. unfold getPost, post_author. taken Hid. subst id.
      rewrite (lookup_hit Post.id Post.authorId st (posts st) p Hsc
                 (users_keyed Hk) (posts_keyed Hk) Hp).
      reflexivity.
    + intros Hno. unfold getPost, post_author. taken Hid.
      rewrite (lookup_miss Post.id Post.authorId st (posts st) Hsc Hno).
      reflexivity.
    + intros v Hv E. unfold getVideo, video_author. taken Hid. subst id.
      rewrite (lookup_hit Video.id Video.authorId st (videos st) v Hsv
                 (users_keyed Hk) (videos_keyed Hk) Hv).
      reflexivity.
    + intros Hno. unfold getVideo, video_author. taken Hid.
      rewrite (lookup_miss Video.id Video.authorId st (videos st) Hsv Hno).
      reflexivity.
  - intros Hid. unfold getPost, getVideo. refused Hid. split; reflexivity.
Qed.

(** [C2] fails as stated: an id is a text parameter of the statement.  On
    the sample store no post and no video has the id made of [p], NUL and
    [1], yet the lookups do not resolve with nothing: they reject. *)
Lemma getPost_nul_counterexample :
  (forall p, In p (posts Sample.store) -> Post.id p <> Sample.nul_id)
  /\ (forall v, In v (videos Sample.store) -> Video.id v <> Sample.nul_id)
  /\ getPost stored_order Sample.store Sample.nul_id
     = Rejected InvalidByteSequence
  /\ getVideo stored_order Sample.store Sample.nul_id
     = Rejected InvalidByteSequence
  /\ getPost stored_order Sample.store Sample.nul_id <> Resolved None.
Proof.
  split; [|split; [|split; [|split]]].
  - intros p [<-|[<-|[<-|[]]]]; discriminate.
  - intros v [<-|[]]; discriminate.
  - reflexivity.
  - reflexivity.
  - discriminate.
Qed.

(** ** LIKE patterns and substrings *)

Unset Implicit Arguments.

Section LikeFacts.

Import Like.

Variable fold : folding.

Lemma fold_ascii_regular : regular fold_ascii.
Proof.
  split; [reflexivity|].
  intros [|b [|b' rest]] H; try exact H.
  destruct b as [[] [] [] [] [] [] [] []]; try reflexivity; discriminate H.
Qed.

Lemma lower_app (a b : list string) :
  lower fold (a ++ b) = lower fold a ++ lower fold b.
Proof. apply map_app. Qed.

Lemma lower_meta_free (l : list string) :
  regular fold ->
  forallb (fun c => negb (is_meta c)) l = true ->
  forallb (fun c => negb (is_meta c)) (lower fold l) = true.
Proof.
  intros [_ Hfold]. induction l as [|c l IH]; simpl; [reflexivity|].
  rewrite !andb_true_iff, !negb_true_iff. intros [Hc Hl].
  split; [now apply Hfold | now apply IH].
Qed.

(** A pattern without special characters compiles to its own letters. *)
Lemma compile_plain (l : list string) (rest : list string) :
  forallb (fun c => negb (is_meta c)) l = true ->
  compile (l ++ rest) = option_map (app (map Lit l)) (compile rest).
Proof.
  induction l as [|c l IH]; simpl; intros H.
  - destruct (compile rest); reflexivity.
  - apply andb_prop in H. destruct H as [Hc Hl].
    unfold is_meta in Hc. apply negb_true_iff in Hc.
    apply orb_false_elim in Hc. destruct Hc as [Hc Hb].
    apply orb_false_elim in Hc. destruct Hc as [Hp Hu].
    rewrite Hb, Hp, Hu, (IH Hl).
    destruct (compile rest); reflexivity.
Qed.

(** The pattern built around a query: [%], the folded characters of the
    query, [%]. *)
Lemma pattern_chars (q : string) :
  fold percent = percent ->
  lower fold (Text.chars (percent ++ q ++ percent))
  = percent :: lower fold (Text.chars q) ++ [percent].
Proof.
  intros Hp. rewrite chars_wrap. unfold lower. cbn [map].
  rewrite map_app. cbn [map]. now rewrite Hp.
Qed.

Lemma contains_pattern_plain (q : string) :
  regular fold -> meta_free q = true ->
  contains_pattern fold q
  = Some (AnyRun :: map Lit (lower fold (Text.chars q)) ++ [AnyRun]).
Proof.
  intros Hreg H. unfold contains_pattern.
  rewrite (pattern_chars q (proj1 Hreg)).
  cbn [compile]. change (String.eqb percent backslash) with false.
  change (String.eqb percent percent) with true. cbv iota.
  rewrite compile_plain by (apply lower_meta_free; assumption).
  reflexivity.
Qed.

(** The interpolated pattern always ends in [%], so it never ends in a lone
    backslash: the store accepts it whatever the query. *)
Lemma compile_closed (l : list string) :
  compile (l ++ [percent]) <> None
  /\ forall c, compile (c :: l ++ [percent]) <> None.
Proof.
  induction l as [|a l [IH1 IH2]].
  - split; [discriminate|]. intros c. simpl.
    destruct (String.eqb c backslash); [discriminate|].
    destruct (String.eqb c percent); [discriminate|].
    destruct (String.eqb c underscore); discriminate.
  - split; [apply IH2|]. intros c.
    change (compile (c :: (a :: l) ++ [percent]))
      with (if String.eqb c backslash
            then option_map (cons (Lit a)) (compile (l ++ [percent]))
            else if String.eqb c percent
                 then option_map (cons AnyRun) (compile (a :: l ++ [percent]))
                 else if String.eqb c underscore
                      then option_map (cons AnyOne) (compile (a :: l ++ [percent]))
                      else option_map (cons (Lit c)) (compile (a :: l ++ [percent]))).
    specialize (IH2 a).
    destruct (String.eqb c backslash).
    + destruct (compile (l ++ [percent])); [discriminate | contradiction].
    + destruct (compile (a :: l ++ [percent])); [|contradiction].
      destruct (String.eqb c percent); [discriminate|].
      destruct (String.eqb c underscore); discriminate.
Qed.

Lemma contains_pattern_accepted (q : string) :
  fold percent = percent ->
  exists pat, contains_pattern fold q = Some pat.
Proof.
  intros Hp. unfold contains_pattern. rewrite (pattern_chars q Hp).
  destruct (compile_closed (lower fold (Text.chars q))) as [_ H].
  specialize (H percent).
  destruct (compile (percent :: lower fold (Text.chars q) ++ [percent]))
    as [pat|]; [now exists pat | contradiction].
Qed.

Lemma matches_lits (l : list string) (p : list token) (s : list string) :
  matches (map Lit l ++ p) s = true
  <-> exists rest, s = l ++ rest /\ matches p rest = true.
Proof.
  revert s. induction l as [|c l IH]; intros s; simpl.
  - split.
    + intros H. now exists s.
    + now intros (rest & -> & H).
  - destruct s as [|x s].
    + split; [discriminate|]. intros (rest & H & _). discriminate.
    + rewrite andb_true_iff, IH. split.
      * intros [Hx (rest & -> & H)]. apply String.eqb_eq in Hx. subst x.
        now exists rest.
      * intros (rest & E & H). injection E as -> ->. split.
        -- apply String.eqb_refl.
        -- now exists rest.
Qed.

Lemma matches_run (p : list token) (s : list string) :
  matches (AnyRun :: p) s = true
  <-> exists pre post, s = pre ++ post /\ matches p post = true.
Proof.
  induction s as [|x s IH].
  - simpl. rewrite orb_false_r. split.
    + intros H. now exists [], [].
    + intros (pre & post & E & H). symmetry in E.
      apply app_eq_nil in E. destruct E as [_ ->]. exact H.
  - change (matches (AnyRun :: p) (x :: s))
      with (matches p (x :: s) || matches (AnyRun :: p) s).
    rewrite orb_true_iff, IH. split.
    + intros [H|(pre & post & -> & H)].
      * now exists [], (x :: s).
      * now exists (x :: pre), post.
    + intros (pre & post & E & H). destruct pre as [|y pre].
      * left. simpl in E. now rewrite E.
      * right. injection E as -> ->. now exists pre, post.
Qed.

Lemma matches_any (s : list string) : matches [AnyRun] s = true.
Proof.
  apply matches_run. exists s, []. split; [now rewrite app_nil_r | reflexivity].
Qed.

(** [%q%] with a plain [q] decides "contains [q]". *)
Lemma matches_contains (l s : list string) :
  matches (AnyRun :: map Lit l ++ [AnyRun]) s = true
  <-> exists pre post, s = pre ++ l ++ post.
Proof.
  rewrite matches_run. split.
  - intros (pre & rest & -> & H). apply matches_lits in H.
    destruct H as (post & -> & _). now exists pre, post.
  - intros (pre & post & ->). exists pre, (l ++ post). split; [reflexivity|].
    apply matches_lits. exists post. split; [reflexivity | apply matches_any].
Qed.

Lemma ilike_plain (q : string) (col : option string) :
  Sql.holds
    (ilike fold col (AnyRun :: map Lit (lower fold (Text.chars q)) ++ [AnyRun]))
  = true
  <-> exists s, col = Some s /\ ci_substring fold q s.
Proof.
  destruct col as [s|]; unfold ilike, Sql.holds.
  - pose proof (matches_contains (lower fold (Text.chars q))
                  (lower fold (Text.chars s))) as M.
    destruct (matches _ (lower fold (Text.chars s))).
    + split; [|reflexivity].
      intros _. exists s. split; [reflexivity | now apply M].
    + split; [discriminate|]. intros (s' & E & H). injection E as <-.
      now apply M.
  - split; [discriminate|]. intros (s & E & _). discriminate.
Qed.

Lemma prefixb_spec (q s : list string) :
  prefixb q s = true <-> exists post, s = q ++ post.
Proof.
  revert s. induction q as [|a q IH]; intros s; simpl.
  - split; [intros _; now exists s | reflexivity].
  - destruct s as [|b s].
    + split; [discriminate|]. intros (post & E). discriminate.
    + rewrite andb_true_iff, IH, String.eqb_eq. split.
      * intros [-> (post & ->)]. now exists post.
      * intros (post & E). injection E as -> ->. split; [reflexivity|].
        now exists post.
Qed.

Lemma infixb_spec (q s : list string) :
  infixb q s = true <-> exists pre post, s = pre ++ q ++ post.
Proof.
  induction s as [|x s IH].
  - simpl. rewrite orb_false_r, prefixb_spec. split.
    + intros (post & E). now exists [], post.
    + intros (pre & post & E). destruct pre; [|discriminate].
      now exists post.
  - change (infixb q (x :: s)) with (prefixb q (x :: s) || infixb q s).
    rewrite orb_true_iff, IH, prefixb_spec. split.
    + intros [(post & E)|(pre & post & ->)].
      * now exists [], post.
      * now exists (x :: pre), post.
    + intros (pre & post & E). destruct pre as [|y pre].
      * left. now exists post.
      * right. injection E as -> ->. now exists pre, post.
Qed.

Lemma ci_substring_dec (q s : string) :
  ci_substring fold q s
  <-> infixb (lower fold (Text.chars q)) (lower fold (Text.chars s)) = true.
Proof. symmetry. apply infixb_spec. Qed.

Lemma ci_substring_empty (s : string) : ci_substring fold "" s.
Proof. exists [], (lower fold (Text.chars s)). reflexivity. Qed.

End LikeFacts.

Set Implicit Arguments.

(** ** Search *)

Section Search.

Context {E : Type} (id : E -> string) (authorId : E -> string)
  (published : E -> option bool) (createdAt : E -> option timestamp).

Lemma ordered_normal (st : Store) (rows : list E) (c : E -> Sql.cond) :
  NoDup (map User.id (users st)) ->
  map withAuthor
    (Query.orderBy
       (Query.where_
          (Query.leftJoin rows (users st)
             (fun e u => str_eq (Some (authorId e)) (Some (User.id u))))
          (fun row => c (fst row)))
       (fun row => createdAt (fst row)))
  = map (attach st authorId)
      (Query.orderBy (filter (fun e => Sql.holds (c e)) rows) createdAt).
Proof.
  intros Hnd. rewrite leftJoin_keyed by exact Hnd.
  unfold Query.where_. rewrite filter_map_swap. cbn [fst].
  rewrite (orderBy_map (fun e => (e, author_of st (authorId e)))
             (fun row => createdAt (fst row))).
  cbn [fst]. rewrite map_map. reflexivity.
Qed.

Lemma keyed_filter (p : E -> bool) (l : list E) :
  NoDup (map id l) -> NoDup (map id (filter p l)).
Proof using id.
  induction l as [|x l IH]; simpl; intros Hnd; [constructor|].
  inversion Hnd as [|? ? Hx Hnd']; subst.
  destruct (p x); simpl; [|now apply IH].
  constructor; [|now apply IH].
  intros Hin. apply Hx. apply in_map_iff in Hin. destruct Hin as (y & Ey & Hy).
  apply filter_In in Hy. rewrite <- Ey. apply in_map. exact (proj1 Hy).
Qed.

(** The published rows that satisfy a further condition, each once, newest
    first, with the author attached. *)
Lemma search_rows (sc : scan_order E) (st : Store) (table : list E)
    (cnd : E -> Sql.cond) :
  fair sc -> NoDup (map User.id (users st)) -> NoDup (map id table) ->
  let rows :=
    map withAuthor
      (Query.orderBy
         (Query.where_
            (Query.leftJoin (Query.from sc table) (users st)
               (fun e u => str_eq (Some (authorId e)) (Some (User.id u))))
            (fun row => Sql.and_ (is_true (published (fst row))) (cnd (fst row))))
         (fun row => createdAt (fst row))) in
  (forall e, In e (map entity rows)
             <-> In e table /\ published e = Some true
                 /\ Sql.holds (cnd e) = true)
  /\ NoDup (map id (map entity rows))
  /\ newest_first createdAt (map entity rows)
  /\ rows = map (attach st authorId) (map entity rows).
Proof.
  intros Hf Hu Hk rows. subst rows.
  rewrite (ordered_normal st (Query.from sc table)
             (fun e => Sql.and_ (is_true (published e)) (cnd e)) Hu).
  rewrite entity_attach.
  set (kept := filter _ (Query.from sc table)).
  assert (Hperm : Permutation (Query.orderBy kept createdAt) kept)
    by apply orderBy_perm.
  split; [|split; [|split]].
  - intros e. split.
    + intros He. apply (Permutation_in _ Hperm) in He.
      apply filter_In in He. destruct He as [Hin Hc].
      rewrite holds_and in Hc. apply andb_prop in Hc. destruct Hc as [Hp Hc].
      split; [|split].
      * apply (Permutation_in _ (Hf table)), Hin.
      * now apply holds_is_true.
      * exact Hc.
    + intros (Hin & Hpub & Hc).
      apply (Permutation_in _ (Permutation_sym Hperm)). apply filter_In. split.
      * apply (Permutation_in _ (Permutation_sym (Hf table))), Hin.
      * rewrite holds_and, Hc, andb_true_r. now apply holds_is_true.
  - eapply Permutation_NoDup.
    + apply Permutation_map, Permutation_sym, Hperm.
    + apply keyed_filter. now apply (fair_keyed id).
  - apply orderBy_sorted.
  - reflexivity.
Qed.

End Search.

Lemma post_condition (fold : Like.folding) (q : string) (p : Post.t) :
  let pat := Like.AnyRun
               :: map Like.Lit (Like.lower fold (Text.chars q))
               ++ [Like.AnyRun] in
  Sql.holds
    (Sql.or_
       (Sql.or_ (Like.ilike fold (Some (Post.title p)) pat)
                (Like.ilike fold (Some (Post.content p)) pat))
       (Like.ilike fold (Post.excerpt p) pat)) = true
  <-> post_mentions fold q p.
Proof.
  intros pat. unfold post_mentions.
  rewrite !holds_or, !orb_true_iff. subst pat. rewrite !ilike_plain.
  split.
  - intros [[(s & E & H)|(s & E & H)]|(s & E & H)].
    + injection E as <-. now left.
    + injection E as <-. right. now left.
    + right. right. now exists s.
  - intros [H|[H|(e & E & H)]].
    + left. left. now exists (Post.title p).
    + left. right. now exists (Post.content p).
    + right. now exists e.
Qed.

Lemma video_condition (fold : Like.folding) (q : string) (v : Video.t) :
  let pat := Like.AnyRun
               :: map Like.Lit (Like.lower fold (Text.chars q))
               ++ [Like.AnyRun] in
  Sql.holds
    (Sql.or_ (Like.ilike fold (Some (Video.title v)) pat)
             (Like.ilike fold (Video.description v) pat)) = true
  <-> video_mentions fold q v.
Proof.
  intros pat. unfold video_mentions.
  rewrite holds_or, orb_true_iff. subst pat. rewrite !ilike_plain.
  split.
  - intros [(s & E & H)|(s & E & H)].
    + injection E as <-. now left.
    + right. now exists s.
  - intros [H|(d & E & H)].
    + left. now exists (Video.title v).
    + right. now exists d.
Qed.

(** [C3], as the code has it.  For every query that holds no NUL character
    and none of the pattern characters [%], [_] and backslash, [searchPosts]
    resolves with exactly the published posts whose title, content or
    excerpt contains the query, case folded as the locale of the database
    folds it, and [searchVideos] with exactly the published videos whose
    title or description does; each matching row appears once, with its
    author, newest first.  For the empty query every published row is
    returned. *)
Theorem search_plain_query (fold : Like.folding) (sc : scan_order Post.t)
    (sv : scan_order Video.t) (st : Store) (q : string) :
  Like.regular fold -> fair sc -> fair sv -> keyed st ->
  Text.has_nul q = false -> Like.meta_free q = true ->
  (exists rows,
     searchPosts fold sc st q = Resolved rows
     /\ (forall p, In p (map entity rows)
                   <-> In p (posts st) /\ Post.published p = Some true
                       /\ post_mentions fold q p)
     /\ NoDup (map Post.id (map entity rows))
     /\ newest_first Post.createdAt (map entity rows)
     /\ rows = map (attach st Post.authorId) (map entity rows)
     /\ (q = "" -> forall p, In p (posts st) -> Post.published p = Some true ->
                   In p (map entity rows)))
  /\ (exists rows,
        searchVideos fold sv st q = Resolved rows
        /\ (forall v, In v (map entity rows)
                      <-> In v (videos st) /\ Video.published v = Some true
                          /\ video_mentions fold q v)
        /\ NoDup (map Video.id (map entity rows))
        /\ newest_first Video.createdAt (map entity rows)
        /\ rows = map (attach st Video.authorId) (map entity rows)
        /\ (q = "" -> forall v, In v (videos st) -> Video.published v = Some true ->
                      In v (map entity rows))).
Proof.
  intros Hreg Hsc Hsv Hk Hnul Hq. split.
  - unfold searchPosts. taken Hnul.
    rewrite (contains_pattern_plain fold q Hreg Hq).
    eexists. split; [reflexivity|]. unfold post_author.
    set (pat := Like.AnyRun :: _).
    destruct (search_rows Post.id Post.authorId Post.published Post.createdAt
                st (posts st)
                (fun p => Sql.or_
                            (Sql.or_ (Like.ilike fold (Some (Post.title p)) pat)
                                     (Like.ilike fold (Some (Post.content p)) pat))
                            (Like.ilike fold (Post.excerpt p) pat))
                Hsc (users_keyed Hk) (posts_keyed Hk))
      as (Hmem & Hnd & Hsorted & Hattach).
    assert (Hiff : forall p, In p (map entity
                     (map withAuthor
                        (Query.orderBy
                           (Query.where_
                              (Query.leftJoin (Query.from sc (posts st)) (users st)
                                 (fun e u => str_eq (Some (Post.authorId e))
                                                    (Some (User.id u))))
                              (fun row =>
                                 Sql.and_ (is_true (Post.published (fst row)))
                                   (Sql.or_
                                      (Sql.or_
                                         (Like.ilike fold (Some (Post.title (fst row))) pat)
                                         (Like.ilike fold (Some (Post.content (fst row))) pat))
                                      (Like.ilike fold (Post.excerpt (fst row)) pat))))
                           (fun row => Post.createdAt (fst row)))))
                   <-> In p (posts st) /\ Post.published p = Some true
                       /\ post_mentions fold q p).
    { intros p. rewrite Hmem. subst pat. rewrite (post_condition fold q p). tauto. }
    repeat split; try assumption; try (now apply Hiff).
    intros -> p Hp Hpub. apply Hiff. repeat split; try assumption.
    left. apply ci_substring_empty.
  - unfold searchVideos. taken Hnul.
    rewrite (contains_pattern_plain fold q Hreg Hq).
    eexists. split; [reflexivity|]. unfold video_author.
    set (pat := Like.AnyRun :: _).
    destruct (search_rows Video.id Video.authorId Video.published Video.createdAt
                st (videos st)
                (fun v => Sql.or_ (Like.ilike fold (Some (Video.title v)) pat)
                                  (Like.ilike fold (Video.description v) pat))
                Hsv (users_keyed Hk) (videos_keyed Hk))
      as (Hmem & Hnd & Hsorted & Hattach).
    assert (Hiff : forall v, In v (map entity
                     (map withAuthor
                        (Query.orderBy
                           (Query.where_
                              (Query.leftJoin (Query.from sv (videos st)) (users st)
                                 (fun e u => str_eq (Some (Video.authorId e))
                                                    (Some (User.id u))))
                              (fun row =>
                                 Sql.and_ (is_true (Video.published (fst row)))
                                   (Sql.or_
                                      (Like.ilike fold (Some (Video.title (fst row))) pat)
                                      (Like.ilike fold (Video.description (fst row)) pat))))
                           (fun row => Video.createdAt (fst row)))))
                   <-> In v (videos st) /\ Video.published v = Some true
                       /\ video_mentions fold q v).
    { intros v. rewrite Hmem. subst pat. rewrite (video_condition fold q v). tauto. }
    repeat split; try assumption; try (now apply Hiff).
    intros -> v Hv Hpub. apply Hiff. repeat split; try assumption.
    left. apply ci_substring_empty.
Qed.

(** [C3] fails as stated: a query is read as a pattern, and as a text
    parameter.  On the sample store the query [100%] returns the post titled
    "1000 ways to cook rice", none of whose text columns contains [100%];
    and a query that holds the NUL character is refused by the store. *)
Lemma searchPosts_pattern_counterexample :
  ~ (forall rows,
       searchPosts Like.fold_ascii stored_order Sample.store "100%"
       = Resolved rows ->
       forall p, In p (map entity rows) ->
                 post_mentions Like.fold_ascii "100%" p)
  /\ searchPosts Like.fold_ascii stored_order Sample.store Sample.nul_id
     = Rejected InvalidByteSequence
  /\ searchVideos Like.fold_ascii stored_order Sample.store Sample.nul_id
     = Rejected InvalidByteSequence.
Proof.
  split; [|split; reflexivity].
  intros H.
  specialize (H _ eq_refl Sample.cooking).
  assert (Hin : In Sample.cooking
                  (map entity
                     [attach Sample.store Post.authorId Sample.travel;
                      attach Sample.store Post.authorId Sample.cooking]))
    by (simpl; tauto).
  apply H in Hin. clear H.
  destruct Hin as [H|[H|(e & E & _)]].
  - apply ci_substring_dec in H. vm_compute in H. discriminate.
  - apply ci_substring_dec in H. vm_compute in H. discriminate.
  - discriminate.
Qed.

(** ** Updates *)

Lemma patched_spread {A : Type} (f : field A) (old : A) :
  patched f old (spread f old).
Proof. destruct f; reflexivity. Qed.

Lemma with_posts_same (st : Store) : with_posts st (posts st) = st.
Proof. destruct st; reflexivity. Qed.

Lemma with_videos_same (st : Store) : with_videos st (videos st) = st.
Proof. destruct st; reflexivity. Qed.

Lemma with_comments_same (st : Store) : with_comments st (comments st) = st.
Proof. destruct st; reflexivity. Qed.

Lemma map_untouched {E : Type} (hit : E -> bool) (f : E -> E) (l : list E) :
  (forall e, In e l -> hit e = false) ->
  map (fun e => if hit e then f e else e) l = l.
Proof.
  intros H. rewrite <- (map_id l) at 2. apply map_ext_in.
  intros e He. now rewrite (H e He).
Qed.

Lemma author_accepted_ok (st : Store) (f : field string) (old : string) :
  author_accepted st f ->
  String.eqb (spread f old) old || has_user st (spread f old) = true.
Proof.
  destruct f as [|a]; simpl.
  - intros _. now rewrite String.eqb_refl.
  - intros ->. apply orb_true_r.
Qed.

(** The texts of a write are storable: the driver passes them. *)
Ltac accepted Ht := unfold storable in Ht; rewrite Ht; cbn [negb].

(** [C4], as the code has it.  Take a partial field set whose texts hold no
    NUL character and whose [title], when supplied, has at most 255
    characters.  For every existing id, when [authorId] is left out or names
    an existing user, [updatePost] and [updateVideo] resolve with the updated
    row: each supplied column holds the supplied value, each column left out
    holds what it held, [createdAt] is kept and [updatedAt] is the current
    time; the table differs from the old one in that row only and the other
    tables are untouched.  When no row has the id they resolve with nothing
    and leave the store as it was. *)
Theorem update_partial_patch (st : Store) (now : timestamp) (id : string)
    (post : PartialPost.t) (video : PartialVideo.t) :
  keyed st ->
  (storable (post_patch_texts post ++ [id]) ->
   field_within 255 (PartialPost.title post) ->
   (forall old, In old (posts st) -> Post.id old = id ->
      author_accepted st (PartialPost.authorId post) ->
      exists updated st',
        updatePost st now id post = Resolved (Some updated, st')
        /\ post_patched post now old updated
        /\ replaced Post.id id updated (posts st) (posts st')
        /\ users st' = users st /\ videos st' = videos st
        /\ comments st' = comments st)
   /\ ((forall p, In p (posts st) -> Post.id p <> id) ->
       updatePost st now id post = Resolved (None, st)))
  /\ (storable (video_patch_texts video ++ [id]) ->
      field_within 255 (PartialVideo.title video) ->
      (forall old, In old (videos st) -> Video.id old = id ->
         author_accepted st (PartialVideo.authorId video) ->
         exists updated st',
           updateVideo st now id video = Resolved (Some updated, st')
           /\ video_patched video now old updated
           /\ replaced Video.id id updated (videos st) (videos st')
           /\ users st' = users st /\ posts st' = posts st
           /\ comments st' = comments st)
      /\ ((forall v, In v (videos st) -> Video.id v <> id) ->
          updateVideo st now id video = Resolved (None, st))).
Proof.
  intros Hk. split; intros Ht Hw; split.
  - intros old Hold E Hacc. unfold updatePost. accepted Ht.
    rewrite (varchar_field_within 255 _ Hw). cbn [bind]. subst id.
    rewrite (filter_key_unique Post.id (posts st) old (posts_keyed Hk) Hold).
    cbn [forallb map Query.first hd_error Post.authorId].
    rewrite (author_accepted_ok st _ (Post.authorId old) Hacc). cbn [andb].
    eexists. eexists. split; [reflexivity|]. split; [|split].
    + unfold post_patched. cbn. repeat split; apply patched_spread.
    + unfold replaced. cbn [posts with_posts].
      apply map_ext_in. intros e He.
      destruct (String.eqb_spec (Post.id e) (Post.id old)) as [Ek|Ek];
        [|reflexivity].
      now rewrite (key_injective Post.id (posts st) e old (posts_keyed Hk) He Hold Ek).
    + repeat split.
  - intros Hno. unfold updatePost. accepted Ht.
    rewrite (varchar_field_within 255 _ Hw). cbn [bind].
    rewrite (filter_key_absent Post.id (posts st) Hno).
    cbn [forallb map Query.first hd_error].
    rewrite map_untouched.
    + now rewrite with_posts_same.
    + intros p Hp. apply String.eqb_neq. now apply Hno.
  - intros old Hold E Hacc. unfold updateVideo. accepted Ht.
    rewrite (varchar_field_within 255 _ Hw). cbn [bind]. subst id.
    rewrite (filter_key_unique Video.id (videos st) old (videos_keyed Hk) Hold).
    cbn [forallb map Query.first hd_error Video.authorId].
    rewrite (author_accepted_ok st _ (Video.authorId old) Hacc). cbn [andb].
    eexists. eexists. split; [reflexivity|]. split; [|split].
    + unfold video_patched. cbn. repeat split; apply patched_spread.
    + unfold replaced. cbn [videos with_videos].
      apply map_ext_in. intros e He.
      destruct (String.eqb_spec (Video.id e) (Video.id old)) as [Ek|Ek];
        [|reflexivity].
      now rewrite (key_injective Video.id (videos st) e old (videos_keyed Hk) He Hold Ek).
    + repeat split.
  - intros Hno. unfold updateVideo. accepted Ht.
    rewrite (varchar_field_within 255 _ Hw). cbn [bind].
    rewrite (filter_key_absent Video.id (videos st) Hno).
    cbn [forallb map Query.first hd_error].
    rewrite map_untouched.
    + now rewrite with_videos_same.
    + intros v Hv. apply String.eqb_neq. now apply Hno.
Qed.

(** [C4] fails as stated: on the sample store, the store refuses three
    patches of the existing post [p1], so none returns an updated row: the
    one that sets [authorId] to a user that does not exist, the one whose
    title has 256 characters, and the one whose content holds the NUL
    character. *)
Lemma updatePost_refused_counterexample :
  In Sample.cooking (posts Sample.store)
  /\ ~ (exists updated st',
          updatePost Sample.store 500%Z "p1" Sample.reassign
          = Resolved (Some updated, st'))
  /\ updatePost Sample.store 500%Z "p1" Sample.overlong_patch
     = Rejected StringDataRightTruncation
  /\ updatePost Sample.store 500%Z "p1" Sample.nul_patch
     = Rejected InvalidByteSequence.
Proof.
  split; [simpl; tauto|]. split; [|split].
  - intros (updated & st' & H). vm_compute in H. discriminate.
  - vm_compute. reflexivity.
  - vm_compute. reflexivity.
Qed.

(** ** Deletes *)

Lemma removed_any_spec {E : Type} (hit : E -> bool) (l : list E) :
  removed_any {| rowCount := Some (List.length (filter hit l)) |} = true
  <-> exists e, In e l /\ hit e = true.
Proof.
  unfold removed_any. cbn [rowCount]. rewrite Nat.ltb_lt. split.
  - destruct (filter hit l) as [|e rest] eqn:F; simpl; [lia|].
    intros _. exists e. apply filter_In. rewrite F. now left.
  - intros (e & He & Hh).
    assert (Hin : In e (filter hit l)) by (apply filter_In; tauto).
    destruct (filter hit l); [contradiction | simpl; lia].
Qed.

Lemma filter_negb_hit {E : Type} (hit : E -> bool) (l : list E) :
  filter hit (filter (fun e => negb (hit e)) l) = [].
Proof.
  apply filter_none. intros e He. apply filter_In in He.
  destruct He as [_ He]. now apply negb_true_iff.
Qed.

Lemma filter_negb_again {E : Type} (hit : E -> bool) (l : list E) :
  filter (fun e => negb (hit e)) (filter (fun e => negb (hit e)) l)
  = filter (fun e => negb (hit e)) l.
Proof.
  apply filter_all. intros e He. apply filter_In in He. tauto.
Qed.

Lemma in_filter_negb_key {E : Type} (key : E -> string) (k : string)
    (l : list E) (e : E) :
  In e (filter (fun x => negb (String.eqb (key x) k)) l)
  <-> In e l /\ key e <> k.
Proof.
  rewrite filter_In, negb_true_iff, String.eqb_neq. tauto.
Qed.

(** The comment listings show rows of the [comments] table only. *)
Lemma listed_comment_stored (sc : scan_order Comment.t) (us : list User.t)
    (table : list Comment.t) (c : Comment.t * option User.t -> Sql.cond)
    (r : CommentWithAuthor) :
  fair sc ->
  In r (map withAuthor
          (Query.orderBy
             (Query.where_
                (Query.leftJoin (Query.from sc table) us comment_author) c)
             (fun row => Comment.createdAt (fst row)))) ->
  In (entity r) table.
Proof.
  intros Hf Hr. apply in_map_iff in Hr. destruct Hr as (row & <- & Hrow).
  apply (Permutation_in _ (orderBy_perm _ _)) in Hrow.
  apply filter_In in Hrow. destruct Hrow as [Hrow _].
  apply (Permutation_in _ (Hf table)).
  apply (leftJoin_rows Comment.authorId us (Query.from sc table)).
  cbn [withAuthor entity]. now apply in_map.
Qed.

Lemma getCommentsByPost_resolved (sc : scan_order Comment.t) (st : Store)
    (postId : string) (rows : list CommentWithAuthor) :
  getCommentsByPost sc st postId = Resolved rows ->
  Text.has_nul postId = false
  /\ rows
     = map withAuthor
         (Query.orderBy
            (Query.where_
               (Query.leftJoin (Query.from sc (comments st)) (users st)
                  comment_author)
               (fun row => str_eq (Comment.postId (fst row)) (Some postId)))
            (fun row => Comment.createdAt (fst row))).
Proof.
  unfold getCommentsByPost, Pg.text.
  destruct (Text.has_nul postId); cbn [negb]; [discriminate|].
  intros H. injection H as <-. split; reflexivity.
Qed.

Lemma getCommentsByVideo_resolved (sc : scan_order Comment.t) (st : Store)
    (videoId : string) (rows : list CommentWithAuthor) :
  getCommentsByVideo sc st videoId = Resolved rows ->
  Text.has_nul videoId = false
  /\ rows
     = map withAuthor
         (Query.orderBy
            (Query.where_
               (Query.leftJoin (Query.from sc (comments st)) (users st)
                  comment_author)
               (fun row => str_eq (Comment.videoId (fst row)) (Some videoId)))
            (fun row => Comment.createdAt (fst row))).
Proof.
  unfold getCommentsByVideo, Pg.text.
  destruct (Text.has_nul videoId); cbn [negb]; [discriminate|].
  intros H. injection H as <-. split; reflexivity.
Qed.

(** [C5], as the code has it.  For an id that holds no NUL character,
    [deletePost], [deleteVideo] and [deleteComment] resolve.  The flag
    returned is true exactly when a row with the id existed; the table keeps
    precisely the rows with another id; a second delete of the same id
    resolves with false and changes nothing; and the id is then absent from
    every lookup ([getPost]/[getVideo] resolve with nothing, no comment
    listing shows the comment).  An id that holds NUL is refused by the
    store: the delete rejects. *)
Theorem delete_reports_removal (st : Store) (id : string) :
  (Text.has_nul id = false ->
   (exists b st',
      deletePost st id = Resolved (b, st')
      /\ (b = true <-> exists p, In p (posts st) /\ Post.id p = id)
      /\ (forall p, In p (posts st') <-> In p (posts st) /\ Post.id p <> id)
      /\ deletePost st' id = Resolved (false, st')
      /\ (forall sc, fair sc -> getPost sc st' id = Resolved None))
   /\ (exists b st',
         deleteVideo st id = Resolved (b, st')
         /\ (b = true <-> exists v, In v (videos st) /\ Video.id v = id)
         /\ (forall v, In v (videos st') <-> In v (videos st) /\ Video.id v <> id)
         /\ deleteVideo st' id = Resolved (false, st')
         /\ (forall sc, fair sc -> getVideo sc st' id = Resolved None))
   /\ (exists b st',
         deleteComment st id = Resolved (b, st')
         /\ (b = true <-> exists c, In c (comments st) /\ Comment.id c = id)
         /\ (forall c, In c (comments st') <-> In c (comments st) /\ Comment.id c <> id)
         /\ deleteComment st' id = Resolved (false, st')
         /\ (forall sc parent rows r,
               fair sc ->
               getCommentsByPost sc st' parent = Resolved rows
               \/ getCommentsByVideo sc st' parent = Resolved rows ->
               In r rows -> Comment.id (entity r) <> id)))
  /\ (Text.has_nul id = true ->
      deletePost st id = Rejected InvalidByteSequence
      /\ deleteVideo st id = Rejected InvalidByteSequence
      /\ deleteComment st id = Rejected InvalidByteSequence).
Proof.
  split.
  2:{ intros Hid. unfold deletePost, deleteVideo, deleteComment. refused Hid.
      repeat split. }
  intros Hid. split; [|split].
  - unfold deletePost at 1. taken Hid.
    eexists. eexists. split; [reflexivity|].
    cbn [posts]. split; [|split; [|split]].
    + rewrite removed_any_spec. split.
      * intros (p & Hp & Hh). apply String.eqb_eq in Hh. now exists p.
      * intros (p & Hp & Hh). exists p. split; [assumption|].
        now apply String.eqb_eq.
    + intros p. apply in_filter_negb_key.
    + unfold deletePost, delete_posts. taken Hid.
      cbn [posts users videos comments].
      rewrite filter_negb_hit, filter_negb_again. cbn [List.length existsb negb].
      rewrite (filter_all (fun _ => true)) by reflexivity. reflexivity.
    + intros sc Hf. unfold getPost, post_author. taken Hid.
      rewrite (lookup_miss Post.id Post.authorId); [reflexivity | exact Hf |].
      cbn [posts]. intros p Hp. now apply in_filter_negb_key in Hp.
  - unfold deleteVideo at 1. taken Hid.
    eexists. eexists. split; [reflexivity|].
    cbn [videos]. split; [|split; [|split]].
    + rewrite removed_any_spec. split.
      * intros (v & Hv & Hh). apply String.eqb_eq in Hh. now exists v.
      * intros (v & Hv & Hh). exists v. split; [assumption|].
        now apply String.eqb_eq.
    + intros v. apply in_filter_negb_key.
    + unfold deleteVideo, delete_videos. taken Hid.
      cbn [posts users videos comments].
      rewrite filter_negb_hit, filter_negb_again. cbn [List.length existsb negb].
      rewrite (filter_all (fun _ => true)) by reflexivity. reflexivity.
    + intros sc Hf. unfold getVideo, video_author. taken Hid.
      rewrite (lookup_miss Video.id Video.authorId); [reflexivity | exact Hf |].
      cbn [videos]. intros v Hv. now apply in_filter_negb_key in Hv.
  - unfold deleteComment at 1. taken Hid.
    eexists. eexists. split; [reflexivity|].
    cbn [comments with_comments]. split; [|split; [|split]].
    + rewrite removed_any_spec. split.
      * intros (c & Hc & Hh). apply String.eqb_eq in Hh. now exists c.
      * intros (c & Hc & Hh). exists c. split; [assumption|].
        now apply String.eqb_eq.
    + intros c. apply in_filter_negb_key.
    + unfold deleteComment, delete_comments, with_comments. taken Hid.
      cbn [posts users videos comments].
      rewrite filter_negb_hit, filter_negb_again. reflexivity.
    + intros sc parent rows r Hf Hrows Hr.
      assert (Hin : In (entity r)
                      (filter (fun c => negb (String.eqb (Comment.id c) id))
                         (comments st))).
      { destruct Hrows as [Hrows|Hrows];
          [apply getCommentsByPost_resolved in Hrows
          |apply getCommentsByVideo_resolved in Hrows];
          destruct Hrows as [_ ->];
          apply (listed_comment_stored _ _ _ _ Hf) in Hr; exact Hr. }
      now apply in_filter_negb_key in Hin.
Qed.

(** [C5] fails as stated: an id is a text parameter of the statement.  On
    the sample store no row has the id made of [p], NUL and [1], yet the
    deletes do not report false: they reject. *)
Lemma delete_nul_counterexample :
  (forall p, In p (posts Sample.store) -> Post.id p <> Sample.nul_id)
  /\ deletePost Sample.store Sample.nul_id = Rejected InvalidByteSequence
  /\ deleteVideo Sample.store Sample.nul_id = Rejected InvalidByteSequence
  /\ deleteComment Sample.store Sample.nul_id = Rejected InvalidByteSequence
  /\ deletePost Sample.store Sample.nul_id
     <> Resolved (false, Sample.store).
Proof.
  split; [|split; [|split; [|split]]]; try reflexivity.
  - intros p [<-|[<-|[<-|[]]]]; discriminate.
  - discriminate.
Qed.

(** ** Consecutive pages *)

Section Pages.

Context {E : Type} (id : E -> string) (authorId : E -> string)
  (published : E -> option bool) (createdAt : E -> option timestamp).

Lemma firstn_plus (n m : nat) (l : list E) :
  firstn (n + m) l = firstn n l ++ firstn m (skipn n l).
Proof.
  revert l. induction n as [|n IH]; intros l; [reflexivity|].
  destruct l as [|x l]; simpl.
  - now rewrite firstn_nil.
  - now rewrite IH.
Qed.

Lemma keyed_firstn (n : nat) (l : list E) :
  NoDup (map id l) -> NoDup (map id (firstn n l)).
Proof.
  intros Hnd. rewrite <- (firstn_skipn n l), map_app in Hnd.
  now apply NoDup_app_remove_r in Hnd.
Qed.

(** Two executions arrange the visible rows in the same order when the
    dates alone decide the order. *)
Lemma same_arrangement (sc1 sc2 : scan_order E) (table : list E) :
  fair sc1 -> fair sc2 ->
  distinct_dates published createdAt table ->
  Query.orderBy (filter (visible published) (sc1 table)) createdAt
  = Query.orderBy (filter (visible published) (sc2 table)) createdAt.
Proof.
  intros H1 H2 Hd.
  assert (P1 : Permutation
                 (Query.orderBy (filter (visible published) (sc1 table)) createdAt)
                 (filter (visible published) table)).
  { etransitivity; [apply orderBy_perm | apply filter_perm, H1]. }
  assert (P2 : Permutation
                 (Query.orderBy (filter (visible published) (sc2 table)) createdAt)
                 (filter (visible published) table)).
  { etransitivity; [apply orderBy_perm | apply filter_perm, H2]. }
  apply (@sorted_perm_unique E createdAt).
  - apply orderBy_sorted.
  - apply orderBy_sorted.
  - etransitivity; [exact P1 | symmetry; exact P2].
  - intros a b Ha Hb. apply (Permutation_in _ P1) in Ha, Hb.
    now apply (key_injective createdAt (filter (visible published) table)).
Qed.

Lemma pages_partition (sc1 sc2 : scan_order E) (st : Store) (table : list E)
    (k : nat) :
  fair sc1 -> fair sc2 ->
  NoDup (map User.id (users st)) -> NoDup (map id table) ->
  distinct_dates published createdAt table ->
  let page (sc : scan_order E) (off : nat) :=
    map withAuthor
      (firstn k
         (skipn off
            (Query.orderBy
               (Query.where_
                  (Query.leftJoin (Query.from sc table) (users st)
                     (fun e u => str_eq (Some (authorId e)) (Some (User.id u))))
                  (fun row => is_true (published (fst row))))
               (fun row => createdAt (fst row))))) in
  exists ordering,
    Permutation ordering (filter (visible published) table)
    /\ newest_first createdAt ordering
    /\ map entity (page sc1 0) ++ map entity (page sc2 k)
       = firstn (k + k) ordering
    /\ NoDup (map id (map entity (page sc1 0) ++ map entity (page sc2 k))).
Proof.
  intros H1 H2 Hu Hk Hsame page. subst page. cbv beta.
  rewrite (pipeline_normal authorId st (Query.from sc1 table)
             (fun e => is_true (published e)) createdAt k 0 Hu).
  rewrite (pipeline_normal authorId st (Query.from sc2 table)
             (fun e => is_true (published e)) createdAt k k Hu).
  rewrite !entity_attach. unfold Query.from.
  change (fun e => Sql.holds (is_true (published e))) with (visible published).
  rewrite <- (same_arrangement H1 H2 Hsame).
  set (ordering := Query.orderBy (filter (visible published) (sc1 table)) createdAt).
  assert (P : Permutation ordering (filter (visible published) table)).
  { etransitivity; [apply orderBy_perm | apply filter_perm, H1]. }
  exists ordering. split; [exact P|]. split; [apply orderBy_sorted|].
  cbn [skipn]. rewrite <- firstn_plus. split; [reflexivity|].
  apply keyed_firstn. eapply Permutation_NoDup.
  - apply Permutation_map, Permutation_sym, P.
  - now apply keyed_filter.
Qed.

(** Rows that arrive sorted leave [orderBy] as they came. *)
Lemma orderBy_sorted_fixed (l : list E) :
  newest_first createdAt l -> Query.orderBy l createdAt = l.
Proof.
  induction 1 as [|a l Hs IH Ha]; [reflexivity|].
  unfold Query.orderBy in *. cbn [fold_right]. rewrite IH.
  destruct l as [|y l']; [reflexivity|]. cbn [Query.insert_sorted].
  inversion Ha as [|? ? Hay _]; subst. unfold before in Hay. now rewrite Hay.
Qed.

(** The order among rows of equal date is free: every arrangement of the
    rows that is sorted on the date is what [orderBy] returns for some order
    in which the execution meets them. *)
Lemma orderBy_any_tie_order (rows target : list E) :
  Permutation target rows -> newest_first createdAt target ->
  exists met,
    Permutation met rows /\ Query.orderBy met createdAt = target.
Proof.
  intros Hperm Hsorted. exists target. split; [exact Hperm|].
  now apply orderBy_sorted_fixed.
Qed.

End Pages.

Lemma rev_fair {A : Type} : fair (@rev A).
Proof. intros l. apply Permutation_sym, Permutation_rev. Qed.

Lemma stored_order_fair {A : Type} : fair (@stored_order A).
Proof. intros l. apply Permutation_refl. Qed.

Lemma counts_whole (default n : nat) :
  (Z.of_nat n < 2 ^ 63)%Z -> counts default (Some (whole (Z.of_nat n))) n.
Proof. intros H. split; [reflexivity | exact H]. Qed.

(** [C7], as the code has it.  Take two consecutive pages of size [k], a
    whole number below 2^63 ([offset = 0], then [offset = k]).  When no two
    published rows share [createdAt], the pages partition the first [2k]
    published rows in [createdAt] order, newest first, however the two
    executions meet the rows: the first page followed by the second is
    exactly that prefix, so no row of the range is missing, and no row occurs
    twice. *)
Theorem consecutive_pages_partition (sc1 sc2 : scan_order Post.t)
    (sv1 sv2 : scan_order Video.t) (st : Store) (k : nat) :
  fair sc1 -> fair sc2 -> fair sv1 -> fair sv2 -> keyed st ->
  (Z.of_nat k < 2 ^ 63)%Z ->
  (distinct_dates Post.published Post.createdAt (posts st) ->
   exists ordering page1 page2,
     getPosts sc1 st (Some (whole (Z.of_nat k))) (Some (whole 0))
     = Resolved page1
     /\ getPosts sc2 st (Some (whole (Z.of_nat k))) (Some (whole (Z.of_nat k)))
        = Resolved page2
     /\ Permutation ordering (filter (visible Post.published) (posts st))
     /\ newest_first Post.createdAt ordering
     /\ map entity page1 ++ map entity page2 = firstn (k + k) ordering
     /\ NoDup (map Post.id (map entity page1 ++ map entity page2)))
  /\ (distinct_dates Video.published Video.createdAt (videos st) ->
      exists ordering page1 page2,
        getVideos sv1 st (Some (whole (Z.of_nat k))) (Some (whole 0))
        = Resolved page1
        /\ getVideos sv2 st (Some (whole (Z.of_nat k)))
             (Some (whole (Z.of_nat k)))
           = Resolved page2
        /\ Permutation ordering (filter (visible Video.published) (videos st))
        /\ newest_first Video.createdAt ordering
        /\ map entity page1 ++ map entity page2 = firstn (k + k) ordering
        /\ NoDup (map Video.id (map entity page1 ++ map entity page2))).
Proof.
  intros Hc1 Hc2 Hv1 Hv2 Hk Hbound.
  pose proof (counts_whole 20 k Hbound) as Hl.
  pose proof (counts_whole 0 k Hbound) as Hok.
  assert (Ho0 : counts 0 (Some (whole 0)) 0) by (split; reflexivity).
  split.
  - intros Hposts.
    destruct (@pages_partition Post.t Post.id Post.authorId Post.published
                Post.createdAt sc1 sc2 st (posts st) k Hc1 Hc2
                (users_keyed Hk) (posts_keyed Hk) Hposts)
      as (ordering & HP & HS & Happ & Hnd).
    exists ordering. eexists. eexists.
    split; [exact (getPosts_counts sc1 st _ _ k 0 Hl Ho0)|].
    split; [exact (getPosts_counts sc2 st _ _ k k Hl Hok)|].
    split; [exact HP|]. split; [exact HS|]. split; [exact Happ | exact Hnd].
  - intros Hvideos.
    destruct (@pages_partition Video.t Video.id Video.authorId Video.published
                Video.createdAt sv1 sv2 st (videos st) k Hv1 Hv2
                (users_keyed Hk) (videos_keyed Hk) Hvideos)
      as (ordering & HP & HS & Happ & Hnd).
    exists ordering. eexists. eexists.
    split; [exact (getVideos_counts sv1 st _ _ k 0 Hl Ho0)|].
    split; [exact (getVideos_counts sv2 st _ _ k k Hl Hok)|].
    split; [exact HP|]. split; [exact HS|]. split; [exact Happ | exact Hnd].
Qed.

Lemma five_keyed : keyed Sample.five.
Proof.
  split; simpl; repeat constructor; simpl; intuition discriminate.
Qed.

Lemma second_first_fair : fair Sample.second_first.
Proof.
  intros l. unfold Sample.second_first.
  assert (P : Permutation (rev l) l) by apply rev_fair.
  destruct (rev l) as [|a [|b rest]]; try exact P.
  etransitivity; [apply perm_swap | exact P].
Qed.

(** [C7] fails as stated: [createdAt] alone does not fix the order of rows
    created at the same instant, and the store orders them anew for every
    statement.  On a store with five such published posts, an execution of
    the first page of one row and an execution of the second page both
    return post [m04]; post [m03], which a page of two rows shows, is on
    neither.  And a page size of 2^63 gives no pages at all: the store
    refuses the number. *)
Lemma pages_overlap_counterexample :
  fair Sample.newest_stored_first /\ fair Sample.second_first
  /\ keyed Sample.five
  /\ exists page1 page2 both,
       getPosts Sample.newest_stored_first Sample.five
         (Some (whole 1)) (Some (whole 0)) = Resolved page1
       /\ getPosts Sample.second_first Sample.five
            (Some (whole 1)) (Some (whole 1)) = Resolved page2
       /\ getPosts Sample.second_first Sample.five
            (Some (whole 2)) (Some (whole 0)) = Resolved both
       /\ map Post.id (map entity page1) = ["m04"]
       /\ map Post.id (map entity page2) = ["m04"]
       /\ map Post.id (map entity both) = ["m03"; "m04"]
       /\ getPosts Sample.newest_stored_first Sample.five
            (Some (whole (2 ^ 63))) (Some (whole 0))
          = Rejected NumericValueOutOfRange.
Proof.
  split; [apply rev_fair|]. split; [apply second_first_fair|].
  split; [apply five_keyed|].
  eexists. eexists. eexists.
  split; [vm_compute; reflexivity|]. split; [vm_compute; reflexivity|].
  split; [vm_compute; reflexivity|].
  split; [reflexivity|]. split; [reflexivity|]. split; [reflexivity|].
  vm_compute. reflexivity.
Qed.

(** ** Rows without an author *)

Lemma sample_keyed : keyed Sample.store.
Proof.
  split; simpl; repeat constructor; simpl; intuition discriminate.
Qed.

Lemma orphaned_keyed : keyed Sample.orphaned.
Proof.
  split; simpl; repeat constructor; simpl; intuition discriminate.
Qed.

Lemma firstn_whole {E : Type} (l l' : list E) :
  List.length l' <= List.length l -> firstn (List.length l) l' = l'.
Proof. intros H. now apply firstn_all2. Qed.

(** [C8], as the code has it.  The mapping step never rejects: applied to a
    joined row whose author side is absent it yields the entity with an
    absent author.  So for a stored post whose [authorId] names no user,
    [getPost] under its id (an id the store takes as a parameter) resolves
    with that post and no author, and a listing wide enough to reach the post
    resolves with it, again with no author. *)
Theorem orphan_row_author_absent (sc : scan_order Post.t) (st : Store)
    (p : Post.t) :
  fair sc -> keyed st -> In p (posts st) ->
  author_of st (Post.authorId p) = None ->
  withAuthor (p, None) = {| entity := p; author := None |}
  /\ (Text.has_nul (Post.id p) = false ->
      getPost sc st (Post.id p)
      = Resolved (Some {| entity := p; author := None |}))
  /\ (Post.published p = Some true ->
      (Z.of_nat (List.length (posts st)) < 2 ^ 63)%Z ->
      exists rows,
        getPosts sc st (Some (whole (Z.of_nat (List.length (posts st))))) None
        = Resolved rows
        /\ In {| entity := p; author := None |} rows).
Proof.
  intros Hf Hk Hp Hnone. split; [reflexivity|]. split.
  - intros Hid.
    destruct (@getPost_lookup sc st (Post.id p) Hf Hk Hid) as [Hhit _].
    rewrite (Hhit p Hp eq_refl). unfold attach. now rewrite Hnone.
  - intros Hpub Hbound. eexists.
    split.
    { exact (getPosts_counts sc st _ None (List.length (posts st)) 0
               (counts_whole 20 _ Hbound) eq_refl). }
    unfold post_author.
    rewrite (pipeline_normal Post.authorId st (Query.from sc (posts st))
               (fun e => is_true (Post.published e)) Post.createdAt
               (List.length (posts st)) 0 (users_keyed Hk)).
    cbn [skipn].
    set (ordering := Query.orderBy _ Post.createdAt).
    assert (P : Permutation ordering
                  (filter (visible Post.published) (posts st))).
    { etransitivity; [apply orderBy_perm | apply filter_perm, Hf]. }
    rewrite firstn_whole.
    + apply in_map_iff. exists p. split.
      * unfold attach. now rewrite Hnone.
      * apply (Permutation_in _ (Permutation_sym P)). apply filter_In.
        split; [exact Hp|]. now apply holds_is_true.
    + rewrite (Permutation_length P). apply filter_length_le.
Qed.

(** [C8] fails as stated: on a store holding a post whose author row is
    missing, the lookup and the listing resolve, with an absent author in the
    result, and raise nothing. *)
Lemma orphan_row_resolves_counterexample :
  author_of Sample.orphaned (Post.authorId Sample.stray) = None
  /\ (exists r,
        getPost stored_order Sample.orphaned "p9" = Resolved (Some r)
        /\ author r = None)
  /\ (exists r,
        getPosts stored_order Sample.orphaned None None = Resolved [r]
        /\ author r = None).
Proof.
  split; [reflexivity|].
  split; eexists; (split; [vm_compute; reflexivity | reflexivity]).
Qed.

(** ** Comments *)

(** [C10], as the code has it.  [createComment] applies no rule relating
    [postId] and [videoId].  Every comment whose texts the store takes as
    parameters (none holds a NUL character), whose [authorId] names an
    existing user and whose [postId] and [videoId], where set, name an
    existing post and video is inserted and returned with its columns as
    supplied (a key left out is stored as NULL), under the generated id and
    the current time, whether both parents, one, or none are set.  A comment
    is refused only for a text the store does not take, a reference that does
    not resolve or an id already in use. *)
Theorem createComment_no_exclusivity (st : Store) (now : timestamp)
    (uuid : string) (comment : InsertComment.t) :
  (comment_accepted st uuid comment ->
   exists row,
     createComment st now uuid comment
     = Resolved (row, with_comments st (comments st ++ [row]))
     /\ Comment.id row = uuid
     /\ Comment.content row = InsertComment.content comment
     /\ Comment.authorId row = InsertComment.authorId comment
     /\ Comment.postId row = or_null (InsertComment.postId comment)
     /\ Comment.videoId row = or_null (InsertComment.videoId comment)
     /\ Comment.createdAt row = Some now
     /\ Comment.updatedAt row = Some now)
  /\ (~ comment_accepted st uuid comment ->
      exists e, createComment st now uuid comment = Rejected e).
Proof.
  unfold comment_accepted, createComment. cbn [Comment.id Comment.authorId
    Comment.postId Comment.videoId]. split.
  - intros (H0 & H1 & H2 & H3 & H4). accepted H0.
    rewrite H1, H2, H3, H4. cbn [andb negb].
    eexists. split; [reflexivity|]. repeat split.
  - intros Hno. unfold storable in Hno.
    destruct (forallb Pg.text (uuid :: comment_texts comment));
      cbn [negb]; [|now eexists].
    destruct (has_comment st uuid); [now eexists|].
    destruct (has_user st (InsertComment.authorId comment));
      destruct (references (has_post st) (or_null (InsertComment.postId comment)));
      destruct (references (has_video st) (or_null (InsertComment.videoId comment)));
      cbn [andb negb]; try (now eexists).
    exfalso. apply Hno. repeat split.
Qed.

(** [C10] fails as stated: on the sample store a comment with neither parent
    set, written under an [authorId] that names no user, is refused; so is a
    comment by an existing user on a post that does not exist, and a comment
    on an existing post by an existing user whose content holds a NUL
    character. *)
Lemma createComment_reference_counterexample :
  InsertComment.postId Sample.unknown_author = Omitted
  /\ InsertComment.videoId Sample.unknown_author = Omitted
  /\ createComment Sample.store 500%Z "c2" Sample.unknown_author
     = Rejected ForeignKeyViolation
  /\ has_user Sample.store (InsertComment.authorId Sample.unknown_post) = true
  /\ createComment Sample.store 500%Z "c2" Sample.unknown_post
     = Rejected ForeignKeyViolation
  /\ has_user Sample.store (InsertComment.authorId Sample.nul_comment) = true
  /\ references (has_post Sample.store)
       (or_null (InsertComment.postId Sample.nul_comment)) = true
  /\ InsertComment.videoId Sample.nul_comment = Omitted
  /\ createComment Sample.store 500%Z "c2" Sample.nul_comment
     = Rejected InvalidByteSequence.
Proof. repeat split; vm_compute; reflexivity. Qed.

(** ** Upserting users *)

Section Upsert.

Variables (st : Store) (now : timestamp) (uuid : string)
  (userData : UpsertUser.t).

Let i : string := upsert_id userData uuid.

(** The statement's parameters pass the store's checks. *)
Lemma upsert_checked (u : User.t) (st' : Store) :
  upsertUser st now uuid userData = Resolved (u, st') ->
  storable (i :: user_texts userData) /\ datable (user_dates userData).
Proof.
  unfold upsertUser, storable, datable, i, upsert_id. cbn [User.id].
  destruct (forallb Pg.text _); cbn [negb]; [|discriminate].
  destruct (forallb Pg.date _); cbn [negb]; [|discriminate].
  now split.
Qed.

(** No row carries the id: the insert goes through. *)
Lemma upsert_inserts :
  storable (i :: user_texts userData) -> datable (user_dates userData) ->
  (forall u, In u (users st) -> User.id u <> i) ->
  email_free (users st) (or_null (UpsertUser.email userData)) ->
  exists u,
    upsertUser st now uuid userData
    = Resolved (u, with_users st (users st ++ [u]))
    /\ user_inserted userData now uuid u.
Proof.
  intros Ht Hd Hno Hfree. unfold upsertUser. cbn [User.id User.email].
  unfold i, upsert_id in Hno, Ht. accepted Ht.
  unfold datable in Hd. rewrite Hd. cbn [negb].
  rewrite (filter_key_absent User.id (users st) Hno).
  unfold email_free in Hfree. rewrite Hfree.
  eexists. split; [reflexivity|].
  unfold user_inserted, or_null. cbn. repeat split; apply patched_spread.
Qed.

Lemma spread_id_conflict (old : User.t) :
  User.id old = i -> spread (UpsertUser.id userData) (User.id old) = User.id old.
Proof.
  unfold i, upsert_id. destruct (UpsertUser.id userData); simpl; congruence.
Qed.

(** A row carries the id: it is overwritten in place. *)
Lemma upsert_updates (old : User.t) :
  storable (i :: user_texts userData) -> datable (user_dates userData) ->
  NoDup (map User.id (users st)) ->
  In old (users st) -> User.id old = i ->
  email_free (other_users st i)
    (spread (UpsertUser.email userData) (User.email old)) ->
  exists u st',
    upsertUser st now uuid userData = Resolved (u, st')
    /\ user_merged userData now old u
    /\ replaced User.id i u (users st) (users st')
    /\ posts st' = posts st /\ videos st' = videos st
    /\ comments st' = comments st.
Proof.
  intros Ht Hd Hnd Hold Hid Hfree. unfold upsertUser.
  cbn [User.id User.email].
  pose proof (spread_id_conflict old Hid) as Hsame.
  unfold i, upsert_id in Hid, Hfree, Ht. accepted Ht.
  unfold datable in Hd. rewrite Hd. cbn [negb].
  rewrite <- Hid.
  rewrite (filter_key_unique User.id (users st) old Hnd Hold).
  unfold email_free, other_users in Hfree. rewrite <- Hid in Hfree.
  rewrite Hfree.
  eexists. eexists. split; [reflexivity|]. split; [|split].
  - unfold user_merged. cbn. split; [exact Hsame|].
    repeat split; apply patched_spread.
  - unfold replaced, i, upsert_id. cbn [users with_users]. rewrite <- Hid.
    apply map_ext_in. intros e He.
    destruct (String.eqb_spec (User.id e) (User.id old)) as [Ek|Ek];
      [|reflexivity].
    now rewrite (key_injective User.id (users st) e old Hnd He Hold Ek).
  - repeat split.
Qed.

(** Whatever an upsert resolves with is the one row of its id, and the key
    stays unique. *)
Lemma upsert_row (u : User.t) (st' : Store) :
  NoDup (map User.id (users st)) ->
  upsertUser st now uuid userData = Resolved (u, st') ->
  User.id u = i
  /\ NoDup (map User.id (users st'))
  /\ In u (users st')
  /\ ((forall x, In x (users st) -> User.id x <> i) ->
      user_inserted userData now uuid u)
  /\ (forall old, In old (users st) -> User.id old = i ->
      user_merged userData now old u).
Proof.
  intros Hnd Hres.
  destruct (upsert_checked Hres) as [Ht Hd].
  assert (Hbody : forall (A : Type) (k : outcome A),
             (if negb (forallb Pg.text
                         (spread (UpsertUser.id userData) uuid
                          :: user_texts userData))
              then Rejected InvalidByteSequence
              else if negb (forallb Pg.date (user_dates userData))
                   then Rejected InvalidDatetime else k) = k).
  { intros A k. unfold storable, datable, i, upsert_id in Ht, Hd.
    now rewrite Ht, Hd. }
  destruct (existsb (fun x => String.eqb (User.id x) i) (users st)) eqn:Ex.
  - apply existsb_exists in Ex. destruct Ex as (old & Hold & Hid).
    apply String.eqb_eq in Hid.
    assert (Hfree : email_free (other_users st i)
                      (spread (UpsertUser.email userData) (User.email old))).
    { unfold email_free, other_users.
      revert Hres. unfold upsertUser. cbn [User.id User.email].
      rewrite Hbody.
      unfold i, upsert_id in Hid |- *. rewrite <- Hid.
      rewrite (filter_key_unique User.id (users st) old Hnd Hold).
      destruct (email_taken _ _); [discriminate | reflexivity]. }
    destruct (upsert_updates old Ht Hd Hnd Hold Hid Hfree)
      as (u0 & st0 & Hres0 & Hm & Hrep & _).
    rewrite Hres0 in Hres. injection Hres as -> ->.
    assert (Eid : User.id u = i) by (destruct Hm as [-> _]; exact Hid).
    split; [exact Eid|]. split; [|split; [|split]].
    + rewrite Hrep, map_map.
      erewrite map_ext; [exact Hnd|]. intros x. cbn beta.
      destruct (String.eqb_spec (User.id x) i); congruence.
    + rewrite Hrep. apply in_map_iff. exists old. split; [|exact Hold].
      rewrite Hid. now rewrite String.eqb_refl.
    + intros Hno. exfalso. now apply (Hno old Hold).
    + intros old' Hold' Hid'.
      now rewrite (key_injective User.id (users st) old' old Hnd Hold' Hold)
        by congruence.
  - assert (Hno : forall x, In x (users st) -> User.id x <> i).
    { intros x Hx E. apply not_true_iff_false in Ex. apply Ex.
      apply existsb_exists. exists x. split; [exact Hx|].
      now apply String.eqb_eq. }
    assert (Hfree : email_free (users st) (or_null (UpsertUser.email userData))).
    { unfold email_free. revert Hres. unfold upsertUser.
      cbn [User.id User.email]. rewrite Hbody.
      unfold i, upsert_id in Hno.
      rewrite (filter_key_absent User.id (users st) Hno).
      destruct (email_taken _ _); [discriminate | reflexivity]. }
    destruct (upsert_inserts Ht Hd Hno Hfree) as (u0 & Hres0 & Hins).
    rewrite Hres0 in Hres. injection Hres as <- <-.
    assert (Eid : User.id u0 = i) by (destruct Hins as [-> _]; reflexivity).
    split; [exact Eid|]. split; [|split; [|split]].
    + cbn [users with_users]. rewrite map_app. cbn [map].
      apply NoDup_app; [exact Hnd | repeat constructor; simpl; tauto |].
      intros k Hk [<-|[]]. apply in_map_iff in Hk.
      destruct Hk as (x & Ex' & Hx). apply (Hno x Hx). congruence.
    + cbn [users with_users]. apply in_or_app. right. now left.
    + intros _. exact Hins.
    + intros old Hold Hid. exfalso. now apply (Hno old Hold).
Qed.

(** A text with a NUL character, then a date outside the years 1 to 9999,
    stops the statement before it reaches the table. *)
Lemma upsert_refused :
  (~ storable (i :: user_texts userData) ->
   upsertUser st now uuid userData = Rejected InvalidByteSequence)
  /\ (storable (i :: user_texts userData) ->
      ~ datable (user_dates userData) ->
      upsertUser st now uuid userData = Rejected InvalidDatetime).
Proof.
  unfold upsertUser, storable, datable, i, upsert_id. cbn [User.id]. split.
  - intros Hno. destruct (forallb Pg.text _); [now elim Hno | reflexivity].
  - intros -> Hno. cbn [negb].
    destruct (forallb Pg.date _); [now elim Hno | reflexivity].
Qed.

End Upsert.

(** [C6], as the code has it.  Take user data whose id and supplied texts the
    store takes as parameters (none holds a NUL character) and whose supplied
    dates lie in the years 1 to 9999.  [upsertUser] inserts a new row when no
    row carries the id and the e-mail is free, with supplied columns as
    supplied and the others at their defaults.  When a row carries the id and
    the e-mail is not in use by another row it overwrites, in place, exactly
    the columns the data supplies, [createdAt] included when the data
    supplies it, and sets [updatedAt] to the current time.  After two calls
    for the same id there is a single row of that id; it reflects the second
    call's values, its [updatedAt] is the second call's time (later than the
    first call's stamp when the clock moved on and the first call left
    [updatedAt] to the store), and its [createdAt] is that of the first call
    whenever the second call leaves [createdAt] out.  Data with a NUL
    character in a text is rejected, and so is data with a date outside that
    range. *)
Theorem upsertUser_insert_or_merge (st : Store) (now : timestamp)
    (uuid : string) (userData : UpsertUser.t) :
  keyed st ->
  (storable (upsert_id userData uuid :: user_texts userData) ->
   datable (user_dates userData) ->
   (forall u, In u (users st) -> User.id u <> upsert_id userData uuid) ->
   email_free (users st) (or_null (UpsertUser.email userData)) ->
   exists u,
     upsertUser st now uuid userData
     = Resolved (u, with_users st (users st ++ [u]))
     /\ user_inserted userData now uuid u)
  /\ (storable (upsert_id userData uuid :: user_texts userData) ->
      datable (user_dates userData) ->
      forall old, In old (users st) -> User.id old = upsert_id userData uuid ->
      email_free (other_users st (upsert_id userData uuid))
        (spread (UpsertUser.email userData) (User.email old)) ->
      exists u st',
        upsertUser st now uuid userData = Resolved (u, st')
        /\ user_merged userData now old u
        /\ replaced User.id (upsert_id userData uuid) u (users st) (users st')
        /\ posts st' = posts st /\ videos st' = videos st
        /\ comments st' = comments st)
  /\ (forall now2 uuid2 second u1 st1 u2 st2,
      upsert_id second uuid2 = upsert_id userData uuid ->
      upsertUser st now uuid userData = Resolved (u1, st1) ->
      upsertUser st1 now2 uuid2 second = Resolved (u2, st2) ->
      filter (fun x => String.eqb (User.id x) (upsert_id userData uuid))
        (users st2) = [u2]
      /\ user_merged second now2 u1 u2
      /\ User.updatedAt u2 = Some now2
      /\ (UpsertUser.updatedAt userData = Omitted -> (now < now2)%Z ->
          exists t1, User.updatedAt u1 = Some t1 /\ (t1 < now2)%Z)
      /\ (UpsertUser.createdAt second = Omitted ->
          User.createdAt u2 = User.createdAt u1))
  /\ (~ storable (upsert_id userData uuid :: user_texts userData) ->
      upsertUser st now uuid userData = Rejected InvalidByteSequence)
  /\ (storable (upsert_id userData uuid :: user_texts userData) ->
      ~ datable (user_dates userData) ->
      upsertUser st now uuid userData = Rejected InvalidDatetime).
Proof.
  intros Hk. split; [|split; [|split]].
  - intros Ht Hd Hno Hfree. now apply upsert_inserts.
  - intros Ht Hd old Hold Hid Hfree.
    now apply (upsert_updates st now uuid userData old Ht Hd (users_keyed Hk)).
  - intros now2 uuid2 second u1 st1 u2 st2 Hsame H1 H2.
    destruct (upsert_row st now uuid userData (users_keyed Hk) H1)
      as (Hid1 & Hnd1 & Hin1 & Hins1 & Hmer1).
    destruct (upsert_row st1 now2 uuid2 second Hnd1 H2)
      as (Hid2 & Hnd2 & Hin2 & _ & Hmer2).
    assert (Hm : user_merged second now2 u1 u2).
    { apply Hmer2; [exact Hin1 | congruence]. }
    split; [|split; [exact Hm|split; [|split]]].
    + rewrite <- Hsame, <- Hid2.
      now apply (filter_key_unique User.id).
    + now destruct Hm as (_ & _ & _ & _ & _ & _ & _ & Hu).
    + intros Hom Hlt. exists now. split; [|exact Hlt].
      destruct (existsb (fun x => String.eqb (User.id x) (upsert_id userData uuid))
                  (users st)) eqn:Ex.
      * apply existsb_exists in Ex. destruct Ex as (old & Hold & Hid).
        apply String.eqb_eq in Hid.
        now destruct (Hmer1 old Hold Hid) as (_ & _ & _ & _ & _ & _ & _ & Hu).
      * assert (Hno : forall x, In x (users st) ->
                                User.id x <> upsert_id userData uuid).
        { intros x Hx E. apply not_true_iff_false in Ex. apply Ex.
          apply existsb_exists. exists x. split; [exact Hx|].
          now apply String.eqb_eq. }
        destruct (Hins1 Hno) as (_ & _ & _ & _ & _ & _ & _ & Hu).
        rewrite Hom in Hu. exact Hu.
    + intros Hom. destruct Hm as (_ & _ & _ & _ & _ & _ & Hc & _).
      rewrite Hom in Hc. exact Hc.
  - exact (upsert_refused st now uuid userData).
Qed.

(** [C6] fails as stated, in each of the points the statement above adds.
    [createdAt] is a key of the upsert data: a second upsert of the same id
    that carries [createdAt] replaces the stamp of the first call.  The
    second call's [updatedAt] is the clock's time, which is earlier than the
    stamp of a first call that brought its own, later, [updatedAt], and
    equal to the first call's stamp when both calls fall in the same
    millisecond.  An
    upsert under a new id, and one under an existing id, that asks for the
    e-mail address of another row is rejected and writes nothing.  So is an
    upsert with a [createdAt] past the year 9999, and one with a NUL
    character in a name. *)
Lemma upsertUser_createdAt_counterexample :
  (exists u1 st1 u2 st2,
     upsertUser Sample.empty 1000%Z "g1" Sample.carol_first = Resolved (u1, st1)
     /\ upsertUser st1 2000%Z "g2" Sample.carol_backdated = Resolved (u2, st2)
     /\ users st2 = [u2]
     /\ User.createdAt u2 <> User.createdAt u1)
  /\ (exists u1 st1 u2 st2 t1 t2,
        upsertUser Sample.empty 1000%Z "g1" Sample.carol_postdated
        = Resolved (u1, st1)
        /\ upsertUser st1 2000%Z "g2" Sample.carol_renamed = Resolved (u2, st2)
        /\ User.updatedAt u1 = Some t1 /\ User.updatedAt u2 = Some t2
        /\ (t2 < t1)%Z)
  /\ (exists u1 st1 u2 st2,
        upsertUser Sample.empty 1000%Z "g1" Sample.carol_first
        = Resolved (u1, st1)
        /\ upsertUser st1 1000%Z "g2" Sample.carol_renamed = Resolved (u2, st2)
        /\ User.updatedAt u2 = User.updatedAt u1)
  /\ (forall u, In u (users Sample.store) ->
                User.id u <> upsert_id Sample.carol_as_alice "g1")
  /\ upsertUser Sample.store 1000%Z "g1" Sample.carol_as_alice
     = Rejected UniqueViolation
  /\ In Sample.alice (users Sample.store)
  /\ User.id Sample.alice = upsert_id Sample.alice_as_bob "g1"
  /\ upsertUser Sample.store 1000%Z "g1" Sample.alice_as_bob
     = Rejected UniqueViolation
  /\ upsertUser Sample.blog 2000%Z "g1" Sample.carol_far_future
     = Rejected InvalidDatetime
  /\ upsertUser Sample.blog 2000%Z "g1" Sample.carol_nul
     = Rejected InvalidByteSequence.
Proof.
  split.
  { eexists. eexists. eexists. eexists.
    split; [vm_compute; reflexivity|]. split; [vm_compute; reflexivity|].
    split; [reflexivity|]. cbn. discriminate. }
  split.
  { eexists. eexists. eexists. eexists. eexists. eexists.
    split; [vm_compute; reflexivity|]. split; [vm_compute; reflexivity|].
    split; [reflexivity|]. split; [reflexivity|]. reflexivity. }
  split.
  { eexists. eexists. eexists. eexists.
    split; [vm_compute; reflexivity|]. split; [vm_compute; reflexivity|].
    reflexivity. }
  split.
  { intros u [<-|[<-|[]]]; discriminate. }
  split; [vm_compute; reflexivity|].
  split; [now left|]. split; [reflexivity|].
  split; [vm_compute; reflexivity|].
  split; vm_compute; reflexivity.
Qed.

(** ** Timestamps *)

Section Stamps.

Context {E : Type} (id : E -> string) (createdAt : E -> option timestamp).

Lemma stamps_subset (l l' : list E) :
  NoDup (map id l) -> (forall x, In x l' -> In x l) ->
  stamps_kept id createdAt l l'.
Proof.
  intros Hnd Hsub old new Hold Hnew Hid.
  now rewrite (key_injective id l new old Hnd (Hsub new Hnew) Hold Hid).
Qed.

Lemma stamps_same (l : list E) :
  NoDup (map id l) -> stamps_kept id createdAt l l.
Proof. intros Hnd. now apply stamps_subset. Qed.

Lemma stamps_filter (p : E -> bool) (l : list E) :
  NoDup (map id l) -> stamps_kept id createdAt l (filter p l).
Proof.
  intros Hnd. apply stamps_subset; [exact Hnd|].
  intros x Hx. apply filter_In in Hx. tauto.
Qed.

Lemma stamps_append (l : list E) (new : E) :
  NoDup (map id l) -> (forall x, In x l -> id x <> id new) ->
  stamps_kept id createdAt l (l ++ [new]).
Proof.
  intros Hnd Hfresh old x Hold Hx Hid.
  apply in_app_or in Hx. destruct Hx as [Hx|[<-|[]]].
  - now rewrite (key_injective id l x old Hnd Hx Hold Hid).
  - exfalso. apply (Hfresh old Hold). congruence.
Qed.

Lemma stamps_map (f : E -> E) (l : list E) :
  NoDup (map id l) ->
  (forall x, In x l -> id (f x) = id x /\ createdAt (f x) = createdAt x) ->
  stamps_kept id createdAt l (map f l).
Proof.
  intros Hnd Hf old new Hold Hnew Hid.
  apply in_map_iff in Hnew. destruct Hnew as (x & <- & Hx).
  destruct (Hf x Hx) as [Ei Ec]. rewrite Ec.
  rewrite Ei in Hid.
  now rewrite (key_injective id l x old Hnd Hx Hold Hid).
Qed.

Lemma absent_key (l : list E) (k : string) :
  existsb (fun x => String.eqb (id x) k) l = false ->
  forall x, In x l -> id x <> k.
Proof.
  intros Hex x Hx Hk. apply not_true_iff_false in Hex. apply Hex.
  apply existsb_exists. exists x. split; [exact Hx|]. now apply String.eqb_eq.
Qed.

Lemma filter_empty_key (l : list E) (k : string) :
  filter (fun x => String.eqb (id x) k) l = [] ->
  forall x, In x l -> id x <> k.
Proof.
  intros Hf x Hx Hk.
  assert (Hin : In x (filter (fun y => String.eqb (id y) k) l)).
  { apply filter_In. split; [exact Hx|]. now apply String.eqb_eq. }
  now rewrite Hf in Hin.
Qed.

End Stamps.

Lemma createdAt_kept_same (st : Store) : keyed st -> createdAt_kept st st.
Proof.
  intros [Hu Hp Hv Hc]. repeat split; now apply stamps_same.
Qed.

Ltac kept_elsewhere Hk :=
  destruct Hk as [Hu Hp Hv Hc];
  split; [|split; [|split]];
  cbn [users posts videos comments
       with_users with_posts with_videos with_comments];
  try (now apply stamps_same);
  try (now apply stamps_filter).

(** A statement that resolves has passed the check of its text
    parameters. *)
Ltac through_checks :=
  destruct (forallb Pg.text _); cbn [negb]; [|discriminate].

Lemma createPost_kept (st : Store) (now : timestamp) (uuid : string)
    (post : InsertPost.t) (row : Post.t) (st' : Store) :
  keyed st -> createPost st now uuid post = Resolved (row, st') ->
  createdAt_kept st st'
  /\ (forall p, In p (posts st') -> ~ In p (posts st) ->
                Post.createdAt p = Some now /\ Post.updatedAt p = Some now).
Proof.
  intros Hk. unfold createPost. through_checks.
  destruct (Pg.varchar 255 _) as [title|]; cbn [bind]; [|discriminate].
  cbn [Post.id Post.authorId].
  destruct (has_post st uuid) eqn:Hfresh; [discriminate|].
  destruct (has_user st (InsertPost.authorId post)); [|discriminate].
  cbn [negb]. intros H. injection H as <- <-. split.
  - kept_elsewhere Hk. apply stamps_append; [exact Hp|].
    now apply absent_key.
  - cbn [posts with_posts]. intros p Hin Hnew.
    apply in_app_or in Hin. destruct Hin as [Hin|[<-|[]]]; [contradiction|].
    split; reflexivity.
Qed.

Lemma createVideo_kept (st : Store) (now : timestamp) (uuid : string)
    (video : InsertVideo.t) (row : Video.t) (st' : Store) :
  keyed st -> createVideo st now uuid video = Resolved (row, st') ->
  createdAt_kept st st'
  /\ (forall v, In v (videos st') -> ~ In v (videos st) ->
                Video.createdAt v = Some now /\ Video.updatedAt v = Some now).
Proof.
  intros Hk. unfold createVideo. through_checks.
  destruct (Pg.varchar 255 _) as [title|]; cbn [bind]; [|discriminate].
  cbn [Video.id Video.authorId].
  destruct (has_video st uuid) eqn:Hfresh; [discriminate|].
  destruct (has_user st (InsertVideo.authorId video)); [|discriminate].
  cbn [negb]. intros H. injection H as <- <-. split.
  - kept_elsewhere Hk. apply stamps_append; [exact Hv|].
    now apply absent_key.
  - cbn [videos with_videos]. intros v Hin Hnew.
    apply in_app_or in Hin. destruct Hin as [Hin|[<-|[]]]; [contradiction|].
    split; reflexivity.
Qed.

Lemma createComment_kept (st : Store) (now : timestamp) (uuid : string)
    (comment : InsertComment.t) (row : Comment.t) (st' : Store) :
  keyed st -> createComment st now uuid comment = Resolved (row, st') ->
  createdAt_kept st st'
  /\ (forall c, In c (comments st') -> ~ In c (comments st) ->
                Comment.createdAt c = Some now /\ Comment.updatedAt c = Some now).
Proof.
  intros Hk. unfold createComment. through_checks.
  cbn [Comment.id Comment.authorId Comment.postId Comment.videoId].
  destruct (has_comment st uuid) eqn:Hfresh; [discriminate|].
  destruct (negb _); [discriminate|].
  intros H. injection H as <- <-. split.
  - kept_elsewhere Hk. apply stamps_append; [exact Hc|].
    now apply absent_key.
  - cbn [comments with_comments]. intros c Hin Hnew.
    apply in_app_or in Hin. destruct Hin as [Hin|[<-|[]]]; [contradiction|].
    split; reflexivity.
Qed.

Lemma updatePost_kept (st : Store) (now : timestamp) (id : string)
    (post : PartialPost.t) (row : option Post.t) (st' : Store) :
  keyed st -> updatePost st now id post = Resolved (row, st') ->
  createdAt_kept st st'
  /\ (forall p, In p (posts st') -> Post.id p = id -> Post.updatedAt p = Some now).
Proof.
  intros Hk. unfold updatePost. through_checks.
  destruct (Pg.varchar_field 255 _) as [title|]; cbn [bind]; [|discriminate].
  destruct (forallb _ _); [|discriminate].
  intros H. injection H as <- <-. split.
  - kept_elsewhere Hk. apply stamps_map; [exact Hp|].
    intros x _. destruct (String.eqb (Post.id x) id); split; reflexivity.
  - cbn [posts with_posts]. intros p Hin Hid.
    apply in_map_iff in Hin. destruct Hin as (x & <- & _).
    destruct (String.eqb_spec (Post.id x) id) as [Ex|Ex]; [reflexivity|].
    contradiction.
Qed.

Lemma updateVideo_kept (st : Store) (now : timestamp) (id : string)
    (video : PartialVideo.t) (row : option Video.t) (st' : Store) :
  keyed st -> updateVideo st now id video = Resolved (row, st') ->
  createdAt_kept st st'
  /\ (forall v, In v (videos st') -> Video.id v = id -> Video.updatedAt v = Some now).
Proof.
  intros Hk. unfold updateVideo. through_checks.
  destruct (Pg.varchar_field 255 _) as [title|]; cbn [bind]; [|discriminate].
  destruct (forallb _ _); [|discriminate].
  intros H. injection H as <- <-. split.
  - kept_elsewhere Hk. apply stamps_map; [exact Hv|].
    intros x _. destruct (String.eqb (Video.id x) id); split; reflexivity.
  - cbn [videos with_videos]. intros v Hin Hid.
    apply in_map_iff in Hin. destruct Hin as (x & <- & _).
    destruct (String.eqb_spec (Video.id x) id) as [Ex|Ex]; [reflexivity|].
    contradiction.
Qed.

Lemma delete_kept (st : Store) (id : string) (b : bool) (st' : Store) :
  keyed st ->
  deletePost st id = Resolved (b, st')
  \/ deleteVideo st id = Resolved (b, st')
  \/ deleteComment st id = Resolved (b, st') ->
  createdAt_kept st st'.
Proof.
  unfold deletePost, deleteVideo, deleteComment.
  intros Hk [H|[H|H]]; destruct (Pg.text id); cbn [negb] in H;
    try discriminate H; injection H as _ <-; kept_elsewhere Hk.
Qed.

Lemma upsertUser_kept (st : Store) (now : timestamp) (uuid : string)
    (userData : UpsertUser.t) (row : User.t) (st' : Store) :
  keyed st -> upsertUser st now uuid userData = Resolved (row, st') ->
  (UpsertUser.createdAt userData = Omitted -> createdAt_kept st st')
  /\ ((exists old, In old (users st) /\ User.id old = upsert_id userData uuid) ->
      forall u, In u (users st') -> User.id u = upsert_id userData uuid ->
                User.updatedAt u = Some now).
Proof.
  intros Hk Hres.
  destruct (upsert_row st now uuid userData (users_keyed Hk) Hres)
    as (Hid & Hnd' & Hin & _ & Hmer).
  split.
  - intros Hom. revert Hres. unfold upsertUser. through_checks.
    destruct (forallb Pg.date _); cbn [negb]; [|discriminate].
    cbn [User.id User.email].
    destruct (filter _ (users st)) as [|old rest] eqn:F.
    + destruct (email_taken _ _); [discriminate|].
      intros H. injection H as <- <-. kept_elsewhere Hk.
      apply stamps_append; [exact Hu|].
      cbn [User.id]. now apply filter_empty_key.
    + destruct (email_taken _ _); [discriminate|].
      intros H. injection H as <- <-. kept_elsewhere Hk.
      apply stamps_map; [exact Hu|]. intros x _.
      destruct (String.eqb_spec (User.id x)
                  (spread (UpsertUser.id userData) uuid)) as [Ex|Ex];
        [|split; reflexivity].
      cbn [User.id User.createdAt]. rewrite Hom. split; [|reflexivity].
      destruct (UpsertUser.id userData); simpl in *; congruence.
  - intros (old & Hold & Hoid) u Hu Huid.
    assert (E : u = row).
    { apply (key_injective User.id (users st') u row Hnd' Hu Hin). congruence. }
    subst u.
    now destruct (Hmer old Hold Hoid) as (_ & _ & _ & _ & _ & _ & _ & Hup).
Qed.

(** [C9], as the code has it.  Across any request the repository resolves,
    every row that exists before and after keeps its [createdAt], provided
    the request is not an upsert whose data supplies [createdAt] itself; a
    created row is stamped with the time of the request; and every row hit by
    [updatePost], [updateVideo], or by an [upsertUser] that finds the user,
    carries that time as [updatedAt]. *)
Theorem timestamps_discipline (st : Store) (now : timestamp) (uuid : string)
    (r : request) (st' : Store) :
  keyed st -> run st now uuid r = Resolved st' ->
  (leaves_createdAt r -> createdAt_kept st st')
  /\ refreshed st now uuid r st'
  /\ stamped_at_creation st now r st'.
Proof.
  intros Hk. destruct r; cbn [run leaves_createdAt refreshed stamped_at_creation].
  - destruct (upsertUser st now uuid userData) as [[row st0]|e] eqn:H;
      [|discriminate].
    intros E. injection E as <-.
    destruct (@upsertUser_kept st now uuid userData row st0 Hk H) as [Hkept Hup].
    split; [exact Hkept|]. split; [exact Hup | exact I].
  - destruct (createPost st now uuid post) as [[row st0]|e] eqn:H;
      [|discriminate].
    intros E. injection E as <-.
    destruct (@createPost_kept st now uuid post row st0 Hk H) as [Hkept Hnew].
    split; [intros _; exact Hkept|]. split; [exact I | exact Hnew].
  - destruct (updatePost st now id post) as [[row st0]|e] eqn:H;
      [|discriminate].
    intros E. injection E as <-.
    destruct (@updatePost_kept st now id post row st0 Hk H) as [Hkept Hup].
    split; [intros _; exact Hkept|]. split; [exact Hup | exact I].
  - destruct (deletePost st id) as [[b st0]|e] eqn:H; [|discriminate].
    intros E. injection E as <-.
    split; [intros _|split; exact I].
    apply (@delete_kept st id b st0 Hk). now left.
  - destruct (createVideo st now uuid video) as [[row st0]|e] eqn:H;
      [|discriminate].
    intros E. injection E as <-.
    destruct (@createVideo_kept st now uuid video row st0 Hk H) as [Hkept Hnew].
    split; [intros _; exact Hkept|]. split; [exact I | exact Hnew].
  - destruct (updateVideo st now id video) as [[row st0]|e] eqn:H;
      [|discriminate].
    intros E. injection E as <-.
    destruct (@updateVideo_kept st now id video row st0 Hk H) as [Hkept Hup].
    split; [intros _; exact Hkept|]. split; [exact Hup | exact I].
  - destruct (deleteVideo st id) as [[b st0]|e] eqn:H; [|discriminate].
    intros E. injection E as <-.
    split; [intros _|split; exact I].
    apply (@delete_kept st id b st0 Hk). right. now left.
  - destruct (createComment st now uuid comment) as [[row st0]|e] eqn:H;
      [|discriminate].
    intros E. injection E as <-.
    destruct (@createComment_kept st now uuid comment row st0 Hk H) as [Hkept Hnew].
    split; [intros _; exact Hkept|]. split; [exact I | exact Hnew].
  - destruct (deleteComment st id) as [[b st0]|e] eqn:H; [|discriminate].
    intros E. injection E as <-.
    split; [intros _|split; exact I].
    apply (@delete_kept st id b st0 Hk). right. now right.
Qed.

(** [C9] fails as stated: on the sample store, an upsert of user [u1] whose
    data carries [createdAt] replaces the stamp the row was created with. *)
Lemma upsert_rewrites_createdAt_counterexample :
  In Sample.alice (users Sample.store)
  /\ exists st' u,
       run Sample.store 5000%Z "g" (UpsertUserReq Sample.alice_backdated)
       = Resolved st'
       /\ In u (users st') /\ User.id u = User.id Sample.alice
       /\ User.createdAt u <> User.createdAt Sample.alice.
Proof.
  split; [simpl; tauto|].
  eexists. eexists. split; [reflexivity|].
  split; [left; reflexivity|]. split; [reflexivity|].
  cbn. discriminate.
Qed.

(** * Integrity of the stores the repository reaches *)

Section Presence.

Context {E : Type} (id : E -> string).

Lemma present_spec (l : list E) (k : string) :
  existsb (fun x => String.eqb (id x) k) l = true
  <-> exists x, In x l /\ id x = k.
Proof.
  rewrite existsb_exists. split; intros (x & Hx & Hk); exists x;
    (split; [exact Hx|]); now apply String.eqb_eq.
Qed.

Lemma present_append (l : list E) (new : E) (k : string) :
  existsb (fun x => String.eqb (id x) k) l = true ->
  existsb (fun x => String.eqb (id x) k) (l ++ [new]) = true.
Proof. intros H. rewrite existsb_app, H. reflexivity. Qed.

Lemma present_new (l : list E) (new : E) :
  existsb (fun x => String.eqb (id x) (id new)) (l ++ [new]) = true.
Proof.
  rewrite existsb_app. simpl. rewrite String.eqb_refl.
  now rewrite orb_true_r.
Qed.

Lemma present_map (f : E -> E) (l : list E) (k : string) :
  (forall x, In x l -> id (f x) = id x) ->
  existsb (fun x => String.eqb (id x) k) (map f l)
  = existsb (fun x => String.eqb (id x) k) l.
Proof.
  induction l as [|x l IH]; simpl; intros Hf; [reflexivity|].
  rewrite (Hf x (or_introl eq_refl)), IH; [reflexivity|].
  intros y Hy. apply Hf. now right.
Qed.

Lemma keyed_append (l : list E) (new : E) :
  NoDup (map id l) ->
  existsb (fun x => String.eqb (id x) (id new)) l = false ->
  NoDup (map id (l ++ [new])).
Proof.
  intros Hnd Hfresh. rewrite map_app. cbn [map].
  apply NoDup_app; [exact Hnd | repeat constructor; simpl; tauto |].
  intros k Hk [<-|[]]. apply in_map_iff in Hk. destruct Hk as (x & Ex & Hx).
  now apply (absent_key id l Hfresh x Hx).
Qed.

Lemma keyed_map (f : E -> E) (l : list E) :
  (forall x, id (f x) = id x) -> NoDup (map id l) -> NoDup (map id (map f l)).
Proof.
  intros Hf Hnd. rewrite map_map. erewrite map_ext; [exact Hnd|]. exact Hf.
Qed.

End Presence.

Lemma references_mono (present present' : string -> bool) (fk : option string) :
  (forall k, present k = true -> present' k = true) ->
  references present fk = true -> references present' fk = true.
Proof. destruct fk as [k|]; simpl; auto. Qed.

Lemma referenced_mono (st st' : Store) :
  posts st' = posts st -> videos st' = videos st ->
  comments st' = comments st ->
  (forall k, has_user st k = true -> has_user st' k = true) ->
  referenced st -> referenced st'.
Proof.
  intros Ep Ev Ec Hmono [Hp Hv Hc].
  assert (Hposts : forall k, has_post st k = true -> has_post st' k = true)
    by (intros k; unfold has_post; now rewrite Ep).
  assert (Hvideos : forall k, has_video st k = true -> has_video st' k = true)
    by (intros k; unfold has_video; now rewrite Ev).
  split.
  - rewrite Ep. intros p H. apply Hmono. now apply Hp.
  - rewrite Ev. intros v H. apply Hmono. now apply Hv.
  - rewrite Ec. intros c H. destruct (Hc c H) as (H1 & H2 & H3).
    split; [now apply Hmono|]. split.
    + now apply (references_mono (has_post st)).
    + now apply (references_mono (has_video st)).
Qed.

(** A delete that resolves has passed the check of its id. *)
Ltac through_text H :=
  unfold deletePost, deleteVideo, deleteComment in H;
  destruct (Pg.text _); cbn [negb] in H; [|discriminate H].

Lemma upsertUser_elsewhere (st : Store) (now : timestamp) (uuid : string)
    (userData : UpsertUser.t) (row : User.t) (st' : Store) :
  upsertUser st now uuid userData = Resolved (row, st') ->
  posts st' = posts st /\ videos st' = videos st /\ comments st' = comments st
  /\ (forall k, has_user st k = true -> has_user st' k = true).
Proof.
  unfold upsertUser. through_checks.
  destruct (forallb Pg.date _); cbn [negb]; [|discriminate].
  cbn [User.id User.email].
  destruct (filter _ (users st)) as [|old rest].
  - destruct (email_taken _ _); [discriminate|].
    intros H. injection H as <- <-. repeat split.
    intros k. apply present_append.
  - destruct (email_taken _ _); [discriminate|].
    intros H. injection H as <- <-. repeat split.
    intros k Hk. unfold has_user. cbn [users with_users].
    rewrite present_map; [exact Hk|].
    intros x _.
    destruct (String.eqb_spec (User.id x) (spread (UpsertUser.id userData) uuid))
      as [Ex|Ex]; [|reflexivity].
    cbn [User.id]. destruct (UpsertUser.id userData); simpl in *; congruence.
Qed.

Lemma upsertUser_consistent (st : Store) (now : timestamp) (uuid : string)
    (userData : UpsertUser.t) (row : User.t) (st' : Store) :
  keyed st -> referenced st ->
  upsertUser st now uuid userData = Resolved (row, st') ->
  keyed st' /\ referenced st'.
Proof.
  intros Hk Hr H.
  destruct (upsertUser_elsewhere st now uuid userData H) as (Ep & Ev & Ec & Hmono).
  destruct (upsert_row st now uuid userData (users_keyed Hk) H)
    as (_ & Hnd & _).
  split.
  - destruct Hk as [_ Hp Hv Hc]. split; [exact Hnd | | |]; congruence.
  - exact (@referenced_mono st st' Ep Ev Ec Hmono Hr).
Qed.

Lemma createPost_consistent (st : Store) (now : timestamp) (uuid : string)
    (post : InsertPost.t) (row : Post.t) (st' : Store) :
  keyed st -> referenced st ->
  createPost st now uuid post = Resolved (row, st') ->
  keyed st' /\ referenced st'.
Proof.
  intros [Ku Kp Kv Kc] [Rp Rv Rc]. unfold createPost. through_checks.
  destruct (Pg.varchar 255 _) as [title|]; cbn [bind]; [|discriminate].
  cbn [Post.id Post.authorId].
  destruct (has_post st uuid) eqn:Hfresh; [discriminate|].
  destruct (has_user st (InsertPost.authorId post)) eqn:Hauthor; [|discriminate].
  cbn [negb]. intros H. injection H as <- <-. split.
  - split; cbn [users posts videos comments with_posts]; try assumption.
    now apply keyed_append.
  - split; cbn [users posts videos comments with_posts].
    + intros p Hp. apply in_app_or in Hp. destruct Hp as [Hp|[<-|[]]].
      * now apply Rp.
      * exact Hauthor.
    + exact Rv.
    + intros c Hc. destruct (Rc c Hc) as (H1 & H2 & H3).
      split; [exact H1|]. split; [|exact H3].
      apply (references_mono (has_post st)); [|exact H2].
      intros k. apply present_append.
Qed.

Lemma createVideo_consistent (st : Store) (now : timestamp) (uuid : string)
    (video : InsertVideo.t) (row : Video.t) (st' : Store) :
  keyed st -> referenced st ->
  createVideo st now uuid video = Resolved (row, st') ->
  keyed st' /\ referenced st'.
Proof.
  intros [Ku Kp Kv Kc] [Rp Rv Rc]. unfold createVideo. through_checks.
  destruct (Pg.varchar 255 _) as [title|]; cbn [bind]; [|discriminate].
  cbn [Video.id Video.authorId].
  destruct (has_video st uuid) eqn:Hfresh; [discriminate|].
  destruct (has_user st (InsertVideo.authorId video)) eqn:Hauthor; [|discriminate].
  cbn [negb]. intros H. injection H as <- <-. split.
  - split; cbn [users posts videos comments with_videos]; try assumption.
    now apply keyed_append.
  - split; cbn [users posts videos comments with_videos].
    + exact Rp.
    + intros v Hv. apply in_app_or in Hv. destruct Hv as [Hv|[<-|[]]].
      * now apply Rv.
      * exact Hauthor.
    + intros c Hc. destruct (Rc c Hc) as (H1 & H2 & H3).
      split; [exact H1|]. split; [exact H2|].
      apply (references_mono (has_video st)); [|exact H3].
      intros k. apply present_append.
Qed.

Lemma createComment_consistent (st : Store) (now : timestamp) (uuid : string)
    (comment : InsertComment.t) (row : Comment.t) (st' : Store) :
  keyed st -> referenced st ->
  createComment st now uuid comment = Resolved (row, st') ->
  keyed st' /\ referenced st'.
Proof.
  intros [Ku Kp Kv Kc] [Rp Rv Rc]. unfold createComment. through_checks.
  cbn [Comment.id Comment.authorId Comment.postId Comment.videoId].
  destruct (has_comment st uuid) eqn:Hfresh; [discriminate|].
  destruct (has_user st (InsertComment.authorId comment)) eqn:H1;
    [|discriminate].
  destruct (references (has_post st) (or_null (InsertComment.postId comment)))
    eqn:H2; [|discriminate].
  destruct (references (has_video st) (or_null (InsertComment.videoId comment)))
    eqn:H3; [|discriminate].
  cbn [andb negb]. intros H. injection H as <- <-. split.
  - split; cbn [users posts videos comments with_comments]; try assumption.
    now apply keyed_append.
  - split; cbn [users posts videos comments with_comments]; try assumption.
    intros c Hc. apply in_app_or in Hc. destruct Hc as [Hc|[<-|[]]].
    + now apply Rc.
    + cbn. repeat split; assumption.
Qed.

Lemma updatePost_consistent (st : Store) (now : timestamp) (id : string)
    (post : PartialPost.t) (row : option Post.t) (st' : Store) :
  keyed st -> referenced st ->
  updatePost st now id post = Resolved (row, st') ->
  keyed st' /\ referenced st'.
Proof.
  intros [Ku Kp Kv Kc] [Rp Rv Rc]. unfold updatePost. through_checks.
  destruct (Pg.varchar_field 255 _) as [title|]; cbn [bind]; [|discriminate].
  destruct (forallb _ _) eqn:Hfk; [|discriminate].
  intros H. injection H as <- <-.
  rewrite forallb_forall in Hfk. split.
  - split; cbn [users posts videos comments with_posts]; try assumption.
    apply keyed_map; [|exact Kp].
    intros x. now destruct (String.eqb (Post.id x) id).
  - split; cbn [users posts videos comments with_posts]; try assumption.
    + intros p Hp. apply in_map_iff in Hp. destruct Hp as (x & <- & Hx).
      destruct (String.eqb (Post.id x) id) eqn:Hhit; [|now apply Rp].
      assert (Hin : In x (filter (fun p => String.eqb (Post.id p) id) (posts st)))
        by (apply filter_In; tauto).
      apply Hfk in Hin. cbn [Post.authorId] in Hin |- *.
      apply orb_prop in Hin. destruct Hin as [Hsame|Hexists]; [|exact Hexists].
      apply String.eqb_eq in Hsame. rewrite Hsame. now apply Rp.
    + intros c Hc. destruct (Rc c Hc) as (H1 & H2 & H3).
      split; [exact H1|]. split; [|exact H3].
      apply (references_mono (has_post st)); [|exact H2].
      intros k Hk. unfold has_post. cbn [posts with_posts].
      rewrite present_map; [exact Hk|].
      intros x _. now destruct (String.eqb (Post.id x) id).
Qed.

Lemma updateVideo_consistent (st : Store) (now : timestamp) (id : string)
    (video : PartialVideo.t) (row : option Video.t) (st' : Store) :
  keyed st -> referenced st ->
  updateVideo st now id video = Resolved (row, st') ->
  keyed st' /\ referenced st'.
Proof.
  intros [Ku Kp Kv Kc] [Rp Rv Rc]. unfold updateVideo. through_checks.
  destruct (Pg.varchar_field 255 _) as [title|]; cbn [bind]; [|discriminate].
  destruct (forallb _ _) eqn:Hfk; [|discriminate].
  intros H. injection H as <- <-.
  rewrite forallb_forall in Hfk. split.
  - split; cbn [users posts videos comments with_videos]; try assumption.
    apply keyed_map; [|exact Kv].
    intros x. now destruct (String.eqb (Video.id x) id).
  - split; cbn [users posts videos comments with_videos]; try assumption.
    + intros v Hv. apply in_map_iff in Hv. destruct Hv as (x & <- & Hx).
      destruct (String.eqb (Video.id x) id) eqn:Hhit; [|now apply Rv].
      assert (Hin : In x (filter (fun v => String.eqb (Video.id v) id) (videos st)))
        by (apply filter_In; tauto).
      apply Hfk in Hin. cbn [Video.authorId] in Hin |- *.
      apply orb_prop in Hin. destruct Hin as [Hsame|Hexists]; [|exact Hexists].
      apply String.eqb_eq in Hsame. rewrite Hsame. now apply Rv.
    + intros c Hc. destruct (Rc c Hc) as (H1 & H2 & H3).
      split; [exact H1|]. split; [exact H2|].
      apply (references_mono (has_video st)); [|exact H3].
      intros k Hk. unfold has_video. cbn [videos with_videos].
      rewrite present_map; [exact Hk|].
      intros x _. now destruct (String.eqb (Video.id x) id).
Qed.

Lemma deletePost_consistent (st : Store) (id : string) (b : bool) (st' : Store) :
  keyed st -> referenced st ->
  deletePost st id = Resolved (b, st') ->
  keyed st' /\ referenced st'.
Proof.
  intros [Ku Kp Kv Kc] [Rp Rv Rc] H. through_text H.
  injection H as _ <-. split.
  - split; cbn [users posts videos comments]; try assumption;
      now apply keyed_filter.
  - split; cbn [users posts videos comments].
    + intros p Hp. apply filter_In in Hp. now apply Rp.
    + exact Rv.
    + intros c Hc. apply filter_In in Hc. destruct Hc as [Hc Hstay].
      destruct (Rc c Hc) as (H1 & H2 & H3).
      split; [exact H1|]. split; [|exact H3].
      destruct (Comment.postId c) as [k|] eqn:Ek; [|reflexivity].
      cbn [references] in H2 |- *. unfold has_post in H2 |- *.
      apply present_spec in H2. destruct H2 as (p & Hp & Hpk).
      cbn [posts]. apply present_spec. exists p. split; [|exact Hpk].
      apply filter_In. split; [exact Hp|].
      destruct (String.eqb (Post.id p) id) eqn:Hhit; [|reflexivity].
      exfalso. apply negb_true_iff in Hstay.
      apply not_true_iff_false in Hstay. apply Hstay.
      apply existsb_exists. exists p. split.
      * apply filter_In. tauto.
      * rewrite Hpk. apply holds_str_eq. reflexivity.
Qed.

Lemma deleteVideo_consistent (st : Store) (id : string) (b : bool) (st' : Store) :
  keyed st -> referenced st ->
  deleteVideo st id = Resolved (b, st') ->
  keyed st' /\ referenced st'.
Proof.
  intros [Ku Kp Kv Kc] [Rp Rv Rc] H. through_text H.
  injection H as _ <-. split.
  - split; cbn [users posts videos comments]; try assumption;
      now apply keyed_filter.
  - split; cbn [users posts videos comments].
    + exact Rp.
    + intros v Hv. apply filter_In in Hv. now apply Rv.
    + intros c Hc. apply filter_In in Hc. destruct Hc as [Hc Hstay].
      destruct (Rc c Hc) as (H1 & H2 & H3).
      split; [exact H1|]. split; [exact H2|].
      destruct (Comment.videoId c) as [k|] eqn:Ek; [|reflexivity].
      cbn [references] in H3 |- *. unfold has_video in H3 |- *.
      apply present_spec in H3. destruct H3 as (v & Hv & Hvk).
      cbn [videos]. apply present_spec. exists v. split; [|exact Hvk].
      apply filter_In. split; [exact Hv|].
      destruct (String.eqb (Video.id v) id) eqn:Hhit; [|reflexivity].
      exfalso. apply negb_true_iff in Hstay.
      apply not_true_iff_false in Hstay. apply Hstay.
      apply existsb_exists. exists v. split.
      * apply filter_In. tauto.
      * rewrite Hvk. apply holds_str_eq. reflexivity.
Qed.

Lemma deleteComment_consistent (st : Store) (id : string) (b : bool)
    (st' : Store) :
  keyed st -> referenced st ->
  deleteComment st id = Resolved (b, st') ->
  keyed st' /\ referenced st'.
Proof.
  intros [Ku Kp Kv Kc] [Rp Rv Rc] H. through_text H.
  injection H as _ <-. split.
  - split; cbn [users posts videos comments with_comments]; try assumption.
    now apply keyed_filter.
  - split; cbn [users posts videos comments with_comments]; try assumption.
    intros c Hc. apply filter_In in Hc. now apply Rc.
Qed.

(** Unique keys and resolvable references survive every request. *)
Lemma run_consistent (st : Store) (now : timestamp) (uuid : string)
    (r : request) (st' : Store) :
  keyed st -> referenced st -> run st now uuid r = Resolved st' ->
  keyed st' /\ referenced st'.
Proof.
  intros Hk Hr. destruct r; cbn [run].
  - destruct (upsertUser st now uuid userData) as [[row st0]|e] eqn:H;
      [|discriminate].
    intros E0. injection E0 as <-.
    exact (@upsertUser_consistent st now uuid userData row st0 Hk Hr H).
  - destruct (createPost st now uuid post) as [[row st0]|e] eqn:H;
      [|discriminate].
    intros E0. injection E0 as <-.
    exact (@createPost_consistent st now uuid post row st0 Hk Hr H).
  - destruct (updatePost st now id post) as [[row st0]|e] eqn:H;
      [|discriminate].
    intros E0. injection E0 as <-.
    exact (@updatePost_consistent st now id post row st0 Hk Hr H).
  - destruct (deletePost st id) as [[b st0]|e] eqn:H; [|discriminate].
    intros E0. injection E0 as <-.
    exact (@deletePost_consistent st id b st0 Hk Hr H).
  - destruct (createVideo st now uuid video) as [[row st0]|e] eqn:H;
      [|discriminate].
    intros E0. injection E0 as <-.
    exact (@createVideo_consistent st now uuid video row st0 Hk Hr H).
  - destruct (updateVideo st now id video) as [[row st0]|e] eqn:H;
      [|discriminate].
    intros E0. injection E0 as <-.
    exact (@updateVideo_consistent st now id video row st0 Hk Hr H).
  - destruct (deleteVideo st id) as [[b st0]|e] eqn:H; [|discriminate].
    intros E0. injection E0 as <-.
    exact (@deleteVideo_consistent st id b st0 Hk Hr H).
  - destruct (createComment st now uuid comment) as [[row st0]|e] eqn:H;
      [|discriminate].
    intros E0. injection E0 as <-.
    exact (@createComment_consistent st now uuid comment row st0 Hk Hr H).
  - destruct (deleteComment st id) as [[b st0]|e] eqn:H; [|discriminate].
    intros E0. injection E0 as <-.
    exact (@deleteComment_consistent st id b st0 Hk Hr H).
Qed.

(** Every store the repository reaches has unique keys and resolvable
    references; the hypotheses [keyed] of the statements above hold of it. *)
Lemma reachable_consistent (st : Store) :
  reachable st -> keyed st /\ referenced st.
Proof.
  induction 1 as [|st st' now uuid r _ [Hk Hr] Hrun].
  - split.
    + split; simpl; constructor.
    + split; simpl; intros ? [].
  - exact (@run_consistent st now uuid r st' Hk Hr Hrun).
Qed.

(** In a reached store every post has its author: the left join never comes
    back empty-handed there. *)
Lemma reachable_author_present (st : Store) (p : Post.t) :
  reachable st -> In p (posts st) ->
  exists u, author_of st (Post.authorId p) = Some u
            /\ User.id u = Post.authorId p.
Proof.
  intros Hreach Hp. destruct (reachable_consistent Hreach) as [_ [Rp _ _]].
  specialize (Rp p Hp). unfold has_user in Rp. unfold author_of.
  destruct (find _ (users st)) as [u|] eqn:F.
  - exists u. split; [reflexivity|]. apply find_some in F.
    now apply String.eqb_eq.
  - exfalso. apply existsb_exists in Rp. destruct Rp as (u & Hu & Hid).
    apply (find_none _ _ F) in Hu. congruence.
Qed.

(** * The statements on the sample stores *)

Lemma empty_keyed : keyed Sample.empty.
Proof. split; simpl; constructor. Qed.

(** A page of one post from the sample store. *)
Lemma getPosts_getVideos_page_witness :
  fair (@stored_order Post.t) /\ fair (@stored_order Video.t)
  /\ keyed Sample.store
  /\ counts 20 (Some (whole 1)) 1 /\ counts 0 None 0
  /\ exists rows,
       getPosts stored_order Sample.store (Some (whole 1)) None
       = Resolved rows
       /\ List.length rows <= 1
       /\ Forall (fun r => Post.published (entity r) = Some true
                           /\ In (entity r) (posts Sample.store)) rows.
Proof.
  assert (Hl : counts 20 (Some (whole 1)) 1) by (split; reflexivity).
  assert (Ho : counts 0 None 0) by reflexivity.
  split; [apply stored_order_fair|]. split; [apply stored_order_fair|].
  split; [apply sample_keyed|]. split; [exact Hl|]. split; [exact Ho|].
  destruct (@getPosts_getVideos_page stored_order stored_order Sample.store
              (Some (whole 1)) None 1 0 stored_order_fair stored_order_fair
              sample_keyed Hl Ho)
    as [(rows & H & _ & Hpub & Hlen & _) _].
  exists rows. split; [exact H|]. split; [exact Hlen | exact Hpub].
Defined.

(** The unpublished draft is found by id; an unknown id finds nothing. *)
Lemma getPost_getVideo_lookup_witness :
  fair (@stored_order Post.t) /\ fair (@stored_order Video.t)
  /\ keyed Sample.store
  /\ Text.has_nul "p2" = false
  /\ Post.published Sample.draft = Some false
  /\ getPost stored_order Sample.store "p2"
     = Resolved (Some (attach Sample.store Post.authorId Sample.draft))
  /\ getVideo stored_order Sample.store "p2" = Resolved None.
Proof.
  split; [apply stored_order_fair|]. split; [apply stored_order_fair|].
  split; [apply sample_keyed|]. split; [reflexivity|]. split; [reflexivity|].
  destruct (@getPost_getVideo_lookup stored_order stored_order Sample.store
              "p2" stored_order_fair stored_order_fair sample_keyed)
    as [Hok _].
  destruct (Hok eq_refl) as (Hhit & _ & _ & Hmiss).
  split.
  - apply Hhit; [simpl; tauto | reflexivity].
  - apply Hmiss. intros v [<-|[]]. discriminate.
Defined.

(** A plain query in another case finds the post that mentions it. *)
Lemma search_plain_query_witness :
  Like.regular Like.fold_ascii
  /\ fair (@stored_order Post.t) /\ fair (@stored_order Video.t)
  /\ keyed Sample.store
  /\ Text.has_nul "RICE" = false /\ Like.meta_free "RICE" = true
  /\ exists rows,
       searchPosts Like.fold_ascii stored_order Sample.store "RICE"
       = Resolved rows
       /\ In Sample.cooking (map entity rows)
       /\ ~ In Sample.travel (map entity rows).
Proof.
  split; [apply fold_ascii_regular|].
  split; [apply stored_order_fair|]. split; [apply stored_order_fair|].
  split; [apply sample_keyed|]. split; [reflexivity|]. split; [reflexivity|].
  destruct (@search_plain_query Like.fold_ascii stored_order stored_order
              Sample.store "RICE" fold_ascii_regular
              stored_order_fair stored_order_fair sample_keyed eq_refl eq_refl)
    as [(rows & H & Hmem & _) _].
  exists rows. split; [exact H|]. split.
  - apply Hmem. split; [simpl; tauto|]. split; [reflexivity|].
    left. apply ci_substring_dec. vm_compute. reflexivity.
  - intros Hin. apply Hmem in Hin. destruct Hin as (_ & _ & [M|[M|(e & E & _)]]).
    + apply ci_substring_dec in M. vm_compute in M. discriminate.
    + apply ci_substring_dec in M. vm_compute in M. discriminate.
    + discriminate.
Defined.

(** Publishing the draft changes [published] and [updatedAt] only. *)
Lemma update_partial_patch_witness :
  keyed Sample.store
  /\ storable (post_patch_texts Sample.publish ++ ["p2"])
  /\ field_within 255 (PartialPost.title Sample.publish)
  /\ In Sample.draft (posts Sample.store)
  /\ author_accepted Sample.store (PartialPost.authorId Sample.publish)
  /\ exists updated st',
       updatePost Sample.store 500%Z "p2" Sample.publish
       = Resolved (Some updated, st')
       /\ Post.published updated = Some true
       /\ Post.title updated = Post.title Sample.draft
       /\ Post.createdAt updated = Post.createdAt Sample.draft
       /\ Post.updatedAt updated = Some 500%Z.
Proof.
  split; [apply sample_keyed|]. split; [reflexivity|]. split; [exact I|].
  split; [simpl; tauto|]. split; [exact I|].
  destruct (@update_partial_patch Sample.store 500%Z "p2" Sample.publish
              Sample.retitle sample_keyed) as (Hpost & _).
  destruct (Hpost eq_refl I) as (Hhit & _).
  destruct (Hhit Sample.draft (or_intror (or_introl eq_refl)) eq_refl I)
    as (updated & st' & H & Hp & _).
  exists updated, st'. split; [exact H|].
  destruct Hp as (_ & Ht & _ & _ & _ & _ & _ & _ & Hpub & Hc & Hu).
  repeat split; assumption.
Defined.

(** Deleting post [p1] reports true, and the post is gone. *)
Lemma delete_reports_removal_witness :
  fair (@stored_order Post.t) /\ Text.has_nul "p1" = false
  /\ exists st',
       deletePost Sample.store "p1" = Resolved (true, st')
       /\ deletePost st' "p1" = Resolved (false, st')
       /\ getPost stored_order st' "p1" = Resolved None.
Proof.
  split; [apply stored_order_fair|]. split; [reflexivity|].
  destruct (delete_reports_removal Sample.store "p1") as [Hok _].
  destruct (Hok eq_refl) as [(b & st' & H & Hb & _ & Hagain & Hget) _].
  assert (Eb : b = true).
  { apply Hb. exists Sample.cooking. split; [simpl; tauto | reflexivity]. }
  exists st'. split; [|split].
  - rewrite Eb in H. exact H.
  - exact Hagain.
  - apply Hget, stored_order_fair.
Defined.

(** Two upserts of one user: one row, renamed, touched, same [createdAt]. *)
Lemma upsertUser_insert_or_merge_witness :
  keyed Sample.empty
  /\ storable (upsert_id Sample.carol_first "g1"
               :: user_texts Sample.carol_first)
  /\ datable (user_dates Sample.carol_first)
  /\ email_free (users Sample.empty)
       (or_null (UpsertUser.email Sample.carol_first))
  /\ exists u1 st1 u2 st2,
       upsertUser Sample.empty 1000%Z "g1" Sample.carol_first
       = Resolved (u1, st1)
       /\ user_inserted Sample.carol_first 1000%Z "g1" u1
       /\ upsertUser st1 2000%Z "g2" Sample.carol_renamed = Resolved (u2, st2)
       /\ filter (fun x => String.eqb (User.id x) "u9") (users st2) = [u2]
       /\ User.updatedAt u2 = Some 2000%Z
       /\ User.createdAt u2 = User.createdAt u1.
Proof.
  split; [apply empty_keyed|]. split; [reflexivity|]. split; [reflexivity|].
  split; [reflexivity|].
  destruct (@upsertUser_insert_or_merge Sample.empty 1000%Z "g1"
              Sample.carol_first empty_keyed) as (Hins & _ & Htwo & _).
  destruct (Hins eq_refl eq_refl (fun u (H : In u []) => match H with end)
              eq_refl) as (u1 & H1 & Hu1).
  pose proof H1 as E. vm_compute in E. injection E as E. subst u1.
  eexists. eexists. eexists. eexists.
  split; [exact H1|]. split; [exact Hu1|].
  split; [vm_compute; reflexivity|].
  destruct (Htwo 2000%Z "g2" Sample.carol_renamed _ _ _ _
              eq_refl H1 eq_refl) as (Hone & _ & Hup & _ & Hc).
  split; [exact Hone|]. split; [exact Hup | exact (Hc eq_refl)].
Defined.

Lemma sample_distinct_dates :
  distinct_dates Post.published Post.createdAt (posts Sample.store).
Proof.
  unfold distinct_dates. simpl. repeat constructor; simpl; intuition discriminate.
Qed.

(** Pages of one post each, read in opposite orders, still partition. *)
Lemma consecutive_pages_partition_witness :
  fair (@stored_order Post.t) /\ fair (@rev Post.t)
  /\ fair (@stored_order Video.t) /\ keyed Sample.store
  /\ (Z.of_nat 1 < 2 ^ 63)%Z
  /\ distinct_dates Post.published Post.createdAt (posts Sample.store)
  /\ exists page1 page2,
       getPosts stored_order Sample.store (Some (whole 1)) (Some (whole 0))
       = Resolved page1
       /\ getPosts (@rev Post.t) Sample.store (Some (whole 1)) (Some (whole 1))
          = Resolved page2
       /\ NoDup (map Post.id (map entity page1 ++ map entity page2)).
Proof.
  split; [apply stored_order_fair|]. split; [apply rev_fair|].
  split; [apply stored_order_fair|]. split; [apply sample_keyed|].
  split; [reflexivity|]. split; [apply sample_distinct_dates|].
  destruct (@consecutive_pages_partition stored_order (@rev Post.t)
              stored_order stored_order Sample.store 1
              stored_order_fair rev_fair stored_order_fair stored_order_fair
              sample_keyed eq_refl) as [Hposts _].
  destruct (Hposts sample_distinct_dates)
    as (ordering & page1 & page2 & H1 & H2 & _ & _ & _ & Hnd).
  exists page1, page2. split; [exact H1|]. split; [exact H2 | exact Hnd].
Defined.

(** The stray post is returned with no author. *)
Lemma orphan_row_author_absent_witness :
  fair (@stored_order Post.t) /\ keyed Sample.orphaned
  /\ In Sample.stray (posts Sample.orphaned)
  /\ author_of Sample.orphaned (Post.authorId Sample.stray) = None
  /\ Text.has_nul (Post.id Sample.stray) = false
  /\ getPost stored_order Sample.orphaned "p9"
     = Resolved (Some {| entity := Sample.stray; author := None |}).
Proof.
  split; [apply stored_order_fair|]. split; [apply orphaned_keyed|].
  split; [simpl; tauto|]. split; [reflexivity|]. split; [reflexivity|].
  destruct (@orphan_row_author_absent stored_order Sample.orphaned Sample.stray
              stored_order_fair orphaned_keyed (or_introl eq_refl) eq_refl)
    as (_ & H & _).
  exact (H eq_refl).
Defined.

(** Publishing the draft keeps every [createdAt] and touches the draft. *)
Lemma timestamps_discipline_witness :
  keyed Sample.store
  /\ exists st',
       run Sample.store 500%Z "g" (UpdatePostReq "p2" Sample.publish)
       = Resolved st'
       /\ createdAt_kept Sample.store st'
       /\ (forall p, In p (posts st') -> Post.id p = "p2" ->
                     Post.updatedAt p = Some 500%Z).
Proof.
  split; [apply sample_keyed|].
  eexists. split; [vm_compute; reflexivity|].
  destruct (@timestamps_discipline Sample.store 500%Z "g"
              (UpdatePostReq "p2" Sample.publish) _ sample_keyed eq_refl)
    as (Hkept & Href & _).
  split; [exact (Hkept I) | exact Href].
Defined.

(** A comment under both a post and a video is stored as supplied, and so
    is one under neither. *)
Lemma createComment_no_exclusivity_witness :
  comment_accepted Sample.store "c2" Sample.both_parents
  /\ comment_accepted Sample.store "c2" Sample.no_parent
  /\ (exists row,
        createComment Sample.store 500%Z "c2" Sample.both_parents
        = Resolved (row, with_comments Sample.store
                           (comments Sample.store ++ [row]))
        /\ Comment.postId row = Some "p1"
        /\ Comment.videoId row = Some "v1")
  /\ (exists row,
        createComment Sample.store 500%Z "c2" Sample.no_parent
        = Resolved (row, with_comments Sample.store
                           (comments Sample.store ++ [row]))
        /\ Comment.postId row = None
        /\ Comment.videoId row = None).
Proof.
  assert (Hboth : comment_accepted Sample.store "c2" Sample.both_parents)
    by (repeat split).
  assert (Hnone : comment_accepted Sample.store "c2" Sample.no_parent)
    by (repeat split).
  split; [exact Hboth|]. split; [exact Hnone|].
  destruct (@createComment_no_exclusivity Sample.store 500%Z "c2"
              Sample.both_parents) as [Hok _].
  destruct (@createComment_no_exclusivity Sample.store 500%Z "c2"
              Sample.no_parent) as [Hok' _].
  destruct (Hok Hboth) as (row & H & _ & _ & _ & Hp & Hv & _).
  destruct (Hok' Hnone) as (row' & H' & _ & _ & _ & Hp' & Hv' & _).
  split.
  - exists row. split; [exact H|]. split; [exact Hp | exact Hv].
  - exists row'. split; [exact H'|]. split; [exact Hp' | exact Hv'].
Defined.

(** * Further properties of the storage methods *)

Unset Implicit Arguments.

(** ** Every clause passes rows on, none invents one *)

Section Clauses.

Context {R : Type}.

Lemma limit_incl (n : option nat) (l : list R) (x : R) :
  In x (Query.limit n l) -> In x l.
Proof.
  destruct n as [n|]; cbn [Query.limit]; [|tauto].
  intros H. rewrite <- (firstn_skipn n l). apply in_or_app. now left.
Qed.

Lemma offset_incl (n : option nat) (l : list R) (x : R) :
  In x (Query.offset n l) -> In x l.
Proof.
  destruct n as [n|]; cbn [Query.offset]; [|tauto].
  intros H. rewrite <- (firstn_skipn n l). apply in_or_app. now right.
Qed.

(** Whatever the clauses, the rows that pass are a window of the rows. *)
Lemma clauses_window (lim off : option nat) (l : list R) :
  exists n m, Query.limit lim (Query.offset off l) = firstn n (skipn m l).
Proof.
  destruct off as [m|]; cbn [Query.offset].
  - destruct lim as [n|]; cbn [Query.limit].
    + now exists n, m.
    + exists (List.length (skipn m l)), m. symmetry. now apply firstn_all2.
  - destruct lim as [n|]; cbn [Query.limit].
    + now exists n, 0.
    + exists (List.length l), 0. symmetry. now apply firstn_all2.
Qed.

Lemma orderBy_incl (key : R -> option timestamp) (l : list R) (x : R) :
  In x (Query.orderBy l key) -> In x l.
Proof. apply Permutation_in, orderBy_perm. Qed.

Lemma where_incl (c : R -> Sql.cond) (l : list R) (x : R) :
  In x (Query.where_ l c) -> In x l.
Proof. unfold Query.where_. intros H. apply filter_In in H. tauto. Qed.

End Clauses.

(** ** Selections: a filter, an order, no paging *)

Section Selection.

Context {E : Type} (id : E -> string) (authorId : E -> string)
  (createdAt : E -> option timestamp).

(** The rows of [table] that satisfy [c], each once, newest first, each with
    the author the join finds for it. *)
Lemma select_rows (sc : scan_order E) (st : Store) (table : list E)
    (c : E -> Sql.cond) :
  fair sc -> NoDup (map User.id (users st)) -> NoDup (map id table) ->
  let rows :=
    map withAuthor
      (Query.orderBy
         (Query.where_
            (Query.leftJoin (Query.from sc table) (users st)
               (fun e u => str_eq (Some (authorId e)) (Some (User.id u))))
            (fun row => c (fst row)))
         (fun row => createdAt (fst row))) in
  (forall e, In e (map entity rows) <-> In e table /\ Sql.holds (c e) = true)
  /\ NoDup (map id (map entity rows))
  /\ newest_first createdAt (map entity rows)
  /\ rows = map (attach st authorId) (map entity rows).
Proof using Type.
  intros Hf Hu Hk rows. subst rows.
  rewrite (ordered_normal authorId createdAt st (Query.from sc table) c Hu).
  rewrite entity_attach.
  set (kept := filter _ (Query.from sc table)).
  assert (Hperm : Permutation (Query.orderBy kept createdAt) kept)
    by apply orderBy_perm.
  split; [|split; [|split]].
  - intros e. split.
    + intros He. apply (Permutation_in _ Hperm) in He.
      apply filter_In in He. destruct He as [Hin Hc].
      split; [|exact Hc]. exact (Permutation_in _ (Hf table) Hin).
    + intros [Hin Hc].
      apply (Permutation_in _ (Permutation_sym Hperm)). apply filter_In.
      split; [|exact Hc].
      exact (Permutation_in _ (Permutation_sym (Hf table)) Hin).
  - eapply Permutation_NoDup.
    + apply Permutation_map, Permutation_sym, Hperm.
    + apply keyed_filter. exact (fair_keyed id table Hf Hk).
  - apply orderBy_sorted.
  - reflexivity.
Qed.

Lemma select_authors (sc : scan_order E) (st : Store) (table : list E)
    (c : E -> Sql.cond) :
  NoDup (map User.id (users st)) ->
  Forall (fun r => author r = author_of st (authorId (entity r)))
    (map withAuthor
       (Query.orderBy
          (Query.where_
             (Query.leftJoin (Query.from sc table) (users st)
                (fun e u => str_eq (Some (authorId e)) (Some (User.id u))))
             (fun row => c (fst row)))
          (fun row => createdAt (fst row)))).
Proof using Type.
  intros Hu.
  rewrite (ordered_normal authorId createdAt st (Query.from sc table) c Hu).
  apply Forall_forall. intros r Hr. apply in_map_iff in Hr.
  now destruct Hr as (e & <- & _).
Qed.

End Selection.

(** ** Users: lookup, and lookup after an upsert *)

Section KeyedFind.

Context {E : Type} (key : E -> string).

Lemma find_keyed_ext (l l' : list E) (k : string) :
  NoDup (map key l') ->
  (forall x, key x = k -> (In x l <-> In x l')) ->
  find (fun x => String.eqb (key x) k) l
  = find (fun x => String.eqb (key x) k) l'.
Proof.
  intros Hnd Hsame.
  destruct (find (fun x => String.eqb (key x) k) l) as [x|] eqn:F.
  - apply find_some in F. destruct F as [Hx Hk]. apply String.eqb_eq in Hk.
    apply (Hsame x Hk) in Hx.
    destruct (find (fun y => String.eqb (key y) k) l') as [y|] eqn:F'.
    + apply find_some in F'. destruct F' as [Hy Hky].
      apply String.eqb_eq in Hky. f_equal.
      apply (key_injective key l' x y Hnd Hx Hy). congruence.
    + apply (find_none _ _ F') in Hx. apply String.eqb_neq in Hx.
      contradiction.
  - destruct (find (fun y => String.eqb (key y) k) l') as [y|] eqn:F';
      [|reflexivity].
    apply find_some in F'. destruct F' as [Hy Hky].
    apply String.eqb_eq in Hky. apply (Hsame y Hky) in Hy.
    apply (find_none _ _ F) in Hy. apply String.eqb_neq in Hy. contradiction.
Qed.

Lemma filter_keyed_find (l : list E) (k : string) :
  NoDup (map key l) ->
  filter (fun x => String.eqb (key x) k) l
  = match find (fun x => String.eqb (key x) k) l with
    | Some x => [x]
    | None => []
    end.
Proof.
  intros Hnd.
  destruct (find (fun x => String.eqb (key x) k) l) as [x|] eqn:F.
  - apply find_some in F. destruct F as [Hx Hk]. apply String.eqb_eq in Hk.
    subst k. exact (filter_key_unique key l x Hnd Hx).
  - apply filter_none. intros x Hx. exact (find_none _ _ F x Hx).
Qed.

End KeyedFind.

(** [getUser] computes the one row of the id, when there is one. *)
Lemma getUser_find (sc : scan_order User.t) (st : Store) (id : string) :
  fair sc -> NoDup (map User.id (users st)) -> Text.has_nul id = false ->
  getUser sc st id
  = Resolved (find (fun u => String.eqb (User.id u) id) (users st)).
Proof.
  intros Hf Hnd Hid. unfold getUser. taken Hid.
  unfold Query.where_, Query.from.
  erewrite filter_ext; [|intros u; apply holds_key_eq].
  rewrite (filter_keyed_find User.id (sc (users st)) id
             (fair_keyed User.id (users st) Hf Hnd)).
  rewrite (find_keyed_ext User.id (sc (users st)) (users st) id Hnd).
  - destruct (find _ (users st)); reflexivity.
  - intros x _. split; apply Permutation_in;
      [apply Hf | apply Permutation_sym, Hf].
Qed.

Lemma getUser_refused (sc : scan_order User.t) (st : Store) (id : string) :
  Text.has_nul id = true -> getUser sc st id = Rejected InvalidByteSequence.
Proof. intros Hid. unfold getUser. refused Hid. reflexivity. Qed.

(** [X1] Under an id the store takes as a parameter (one without a NUL
    character) [getUser] resolves with the user row that carries the id, and
    with nothing ([undefined]) when no row carries it.  An id that holds a
    NUL character is rejected. *)
Theorem getUser_lookup (sc : scan_order User.t) (st : Store) (id : string) :
  fair sc -> keyed st ->
  (Text.has_nul id = false ->
   (forall u, In u (users st) -> User.id u = id ->
      getUser sc st id = Resolved (Some u))
   /\ ((forall u, In u (users st) -> User.id u <> id) ->
       getUser sc st id = Resolved None))
  /\ (Text.has_nul id = true ->
      getUser sc st id = Rejected InvalidByteSequence).
Proof.
  intros Hf Hk. split; [|apply getUser_refused].
  intros Hid. rewrite (getUser_find sc st id Hf (users_keyed Hk) Hid). split.
  - intros u Hu Huid.
    destruct (find _ (users st)) as [v|] eqn:F.
    + apply find_some in F. destruct F as [Hv Hvid].
      apply String.eqb_eq in Hvid. do 2 f_equal.
      apply (key_injective User.id (users st) v u (users_keyed Hk) Hv Hu).
      congruence.
    + apply (find_none _ _ F) in Hu. apply String.eqb_neq in Hu. contradiction.
  - intros Hno. destruct (find _ (users st)) as [v|] eqn:F; [|reflexivity].
    apply find_some in F. destruct F as [Hv Hvid].
    apply String.eqb_eq in Hvid. now destruct (Hno v Hv).
Qed.

Lemma getUser_lookup_witness :
  fair (@stored_order User.t) /\ keyed Sample.store
  /\ Text.has_nul "u2" = false /\ Text.has_nul Sample.nul_id = true
  /\ getUser stored_order Sample.store "u2" = Resolved (Some Sample.bob)
  /\ getUser stored_order Sample.store "nobody" = Resolved None
  /\ getUser stored_order Sample.store Sample.nul_id
     = Rejected InvalidByteSequence.
Proof.
  split; [apply stored_order_fair|]. split; [apply sample_keyed|].
  split; [reflexivity|]. split; [reflexivity|].
  destruct (getUser_lookup stored_order Sample.store "u2"
              stored_order_fair sample_keyed) as [Hhit _].
  destruct (getUser_lookup stored_order Sample.store "nobody"
              stored_order_fair sample_keyed) as [Hmiss _].
  destruct (getUser_lookup stored_order Sample.store Sample.nul_id
              stored_order_fair sample_keyed) as [_ Hnul].
  split; [|split].
  - apply (Hhit eq_refl); [simpl; tauto | reflexivity].
  - apply (Hmiss eq_refl). intros u [<-|[<-|[]]]; discriminate.
  - exact (Hnul eq_refl).
Defined.

(** An upsert leaves the rows of every other id as they were. *)
Lemma upsertUser_others (st : Store) (now : timestamp) (uuid : string)
    (userData : UpsertUser.t) (row : User.t) (st' : Store) :
  upsertUser st now uuid userData = Resolved (row, st') ->
  forall x, User.id x <> upsert_id userData uuid ->
            (In x (users st') <-> In x (users st)).
Proof.
  unfold upsertUser, upsert_id. through_checks.
  destruct (forallb Pg.date _); cbn [negb]; [|discriminate].
  cbn [User.id User.email].
  destruct (filter _ (users st)) as [|old rest].
  - destruct (email_taken _ _); [discriminate|].
    intros H. injection H as <- <-. intros x Hx. cbn [users with_users].
    rewrite in_app_iff. split; [|tauto].
    intros [H|[<-|[]]]; [exact H|]. now destruct Hx.
  - destruct (email_taken _ _); [discriminate|].
    intros H. injection H as <- <-. intros x Hx. cbn [users with_users].
    rewrite in_map_iff. split.
    + intros (y & Hy & Hin).
      destruct (String.eqb_spec (User.id y) (spread (UpsertUser.id userData) uuid))
        as [Ey|Ey].
      * exfalso. apply Hx. subst x. cbn [User.id].
        destruct (UpsertUser.id userData); simpl in *; congruence.
      * now subst y.
    + intros Hin. exists x. split; [|exact Hin].
      destruct (String.eqb_spec (User.id x) (spread (UpsertUser.id userData) uuid));
        [contradiction | reflexivity].
Qed.

(** [X2] After [upsertUser] resolves with a row, [getUser] of that row's id
    resolves with exactly that row, and [getUser] of any other id answers as
    it did before the upsert. *)
Theorem upsertUser_then_getUser (sc : scan_order User.t) (st : Store)
    (now : timestamp) (uuid : string) (userData : UpsertUser.t)
    (u : User.t) (st' : Store) :
  fair sc -> keyed st ->
  upsertUser st now uuid userData = Resolved (u, st') ->
  getUser sc st' (User.id u) = Resolved (Some u)
  /\ (forall k, k <> User.id u -> getUser sc st' k = getUser sc st k).
Proof.
  intros Hf Hk Hres.
  destruct (upsert_row st now uuid userData (users_keyed Hk) Hres)
    as (Hid & Hnd' & Hin & _).
  destruct (upsert_checked st now uuid userData Hres) as [Ht _].
  assert (Hclean : Text.has_nul (User.id u) = false).
  { rewrite Hid. apply (storable_in _ _ Ht). now left. }
  rewrite (getUser_find sc st' (User.id u) Hf Hnd' Hclean). split.
  - destruct (find _ (users st')) as [v|] eqn:F.
    + apply find_some in F. destruct F as [Hv Hvid].
      apply String.eqb_eq in Hvid. do 2 f_equal.
      exact (key_injective User.id (users st') v u Hnd' Hv Hin Hvid).
    + apply (find_none _ _ F) in Hin. apply String.eqb_neq in Hin.
      now destruct Hin.
  - intros k Hne. destruct (Text.has_nul k) eqn:Hnul.
    { now rewrite !getUser_refused. }
    rewrite (getUser_find sc st' k Hf Hnd' Hnul).
    rewrite (getUser_find sc st k Hf (users_keyed Hk) Hnul). f_equal.
    apply (find_keyed_ext User.id (users st') (users st) k (users_keyed Hk)).
    intros x Hx. apply (upsertUser_others st now uuid userData u st' Hres).
    congruence.
Qed.

Lemma upsertUser_then_getUser_witness :
  fair (@stored_order User.t) /\ keyed Sample.store
  /\ exists u st',
       upsertUser Sample.store 700%Z "g" Sample.carol_first = Resolved (u, st')
       /\ getUser stored_order st' "u9" = Resolved (Some u)
       /\ getUser stored_order st' "u1" = getUser stored_order Sample.store "u1".
Proof.
  split; [apply stored_order_fair|]. split; [apply sample_keyed|].
  eexists. eexists. split; [vm_compute; reflexivity|].
  destruct (upsertUser_then_getUser stored_order Sample.store 700%Z "g"
              Sample.carol_first _ _ stored_order_fair sample_keyed eq_refl)
    as [Hself Hothers].
  split; [exact Hself|]. apply Hothers. discriminate.
Defined.

(** ** Listings by author *)

(** [X3] [getPostsByAuthor] and [getVideosByAuthor] apply no publish gate and
    no paging: under an author id the store takes as a parameter (one
    without a NUL character) they resolve with exactly the rows whose
    [authorId] is the argument, published or not, each once, ordered by
    [createdAt] newest first, each carrying the author the join finds for
    that id.  An author without rows gets the empty list. *)
Theorem listings_by_author (sc : scan_order Post.t) (sv : scan_order Video.t)
    (st : Store) (authorId : string) :
  fair sc -> fair sv -> keyed st -> Text.has_nul authorId = false ->
  (exists rows,
     getPostsByAuthor sc st authorId = Resolved rows
     /\ (forall p, In p (map entity rows)
                   <-> In p (posts st) /\ Post.authorId p = authorId)
     /\ NoDup (map Post.id (map entity rows))
     /\ newest_first Post.createdAt (map entity rows)
     /\ Forall (fun r => author r = author_of st authorId) rows)
  /\ (exists rows,
        getVideosByAuthor sv st authorId = Resolved rows
        /\ (forall v, In v (map entity rows)
                      <-> In v (videos st) /\ Video.authorId v = authorId)
        /\ NoDup (map Video.id (map entity rows))
        /\ newest_first Video.createdAt (map entity rows)
        /\ Forall (fun r => author r = author_of st authorId) rows).
Proof.
  intros Hsc Hsv Hk Hid. split.
  - eexists. split; [unfold getPostsByAuthor; taken Hid; reflexivity|].
    unfold post_author.
    destruct (select_rows Post.id Post.authorId Post.createdAt sc st (posts st)
                (fun p => str_eq (Some (Post.authorId p)) (Some authorId))
                Hsc (users_keyed Hk) (posts_keyed Hk))
      as (Hmem & Hnd & Hs & Hatt).
    assert (Hiff : forall p, In p (map entity
                     (map withAuthor
                        (Query.orderBy
                           (Query.where_
                              (Query.leftJoin (Query.from sc (posts st)) (users st)
                                 (fun e u => str_eq (Some (Post.authorId e))
                                                    (Some (User.id u))))
                              (fun row => str_eq (Some (Post.authorId (fst row)))
                                                 (Some authorId)))
                           (fun row => Post.createdAt (fst row)))))
                   <-> In p (posts st) /\ Post.authorId p = authorId).
    { intros p. etransitivity; [exact (Hmem p)|].
      rewrite holds_key_eq, String.eqb_eq. tauto. }
    split; [exact Hiff|]. split; [exact Hnd|]. split; [exact Hs|].
    pose proof (select_authors Post.authorId Post.createdAt sc st (posts st)
                  (fun p => str_eq (Some (Post.authorId p)) (Some authorId))
                  (users_keyed Hk)) as Hauth.
    rewrite Forall_forall in Hauth |- *. intros r Hr.
    rewrite (Hauth r Hr).
    assert (Hin : In (entity r) (posts st) /\ Post.authorId (entity r) = authorId)
      by (apply Hiff; now apply in_map).
    now destruct Hin as [_ ->].
  - eexists. split; [unfold getVideosByAuthor; taken Hid; reflexivity|].
    unfold video_author.
    destruct (select_rows Video.id Video.authorId Video.createdAt sv st (videos st)
                (fun v => str_eq (Some (Video.authorId v)) (Some authorId))
                Hsv (users_keyed Hk) (videos_keyed Hk))
      as (Hmem & Hnd & Hs & Hatt).
    assert (Hiff : forall v, In v (map entity
                     (map withAuthor
                        (Query.orderBy
                           (Query.where_
                              (Query.leftJoin (Query.from sv (videos st)) (users st)
                                 (fun e u => str_eq (Some (Video.authorId e))
                                                    (Some (User.id u))))
                              (fun row => str_eq (Some (Video.authorId (fst row)))
                                                 (Some authorId)))
                           (fun row => Video.createdAt (fst row)))))
                   <-> In v (videos st) /\ Video.authorId v = authorId).
    { intros v. etransitivity; [exact (Hmem v)|].
      rewrite holds_key_eq, String.eqb_eq. tauto. }
    split; [exact Hiff|]. split; [exact Hnd|]. split; [exact Hs|].
    pose proof (select_authors Video.authorId Video.createdAt sv st (videos st)
                  (fun v => str_eq (Some (Video.authorId v)) (Some authorId))
                  (users_keyed Hk)) as Hauth.
    rewrite Forall_forall in Hauth |- *. intros r Hr.
    rewrite (Hauth r Hr).
    assert (Hin : In (entity r) (videos st) /\ Video.authorId (entity r) = authorId)
      by (apply Hiff; now apply in_map).
    now destruct Hin as [_ ->].
Qed.

Lemma listings_by_author_witness :
  fair (@stored_order Post.t) /\ fair (@stored_order Video.t)
  /\ keyed Sample.store /\ Text.has_nul "u1" = false
  /\ exists rows,
       getPostsByAuthor stored_order Sample.store "u1" = Resolved rows
       /\ In Sample.draft (map entity rows)
       /\ ~ In Sample.travel (map entity rows).
Proof.
  split; [apply stored_order_fair|]. split; [apply stored_order_fair|].
  split; [apply sample_keyed|]. split; [reflexivity|].
  destruct (listings_by_author stored_order stored_order Sample.store "u1"
              stored_order_fair stored_order_fair sample_keyed eq_refl)
    as [(rows & H & Hmem & _) _].
  exists rows. split; [exact H|]. split.
  - apply Hmem. split; [simpl; tauto | reflexivity].
  - intros Hin. apply Hmem in Hin. destruct Hin as [_ Hid]. discriminate.
Defined.

(** ** Comment listings *)

(** [X4] Under a parent id the store takes as a parameter (one without a
    NUL character) [getCommentsByPost] resolves with exactly the comments
    whose [postId] is the argument, and [getCommentsByVideo] with exactly
    those whose [videoId] is: each once, newest first, with its author,
    without paging.  A comment whose parent column is NULL is in no such
    listing. *)
Theorem comment_listings (sc : scan_order Comment.t) (st : Store)
    (parent : string) :
  fair sc -> keyed st -> Text.has_nul parent = false ->
  (exists rows,
     getCommentsByPost sc st parent = Resolved rows
     /\ (forall c, In c (map entity rows)
                   <-> In c (comments st) /\ Comment.postId c = Some parent)
     /\ NoDup (map Comment.id (map entity rows))
     /\ newest_first Comment.createdAt (map entity rows)
     /\ rows = map (attach st Comment.authorId) (map entity rows))
  /\ (exists rows,
        getCommentsByVideo sc st parent = Resolved rows
        /\ (forall c, In c (map entity rows)
                      <-> In c (comments st) /\ Comment.videoId c = Some parent)
        /\ NoDup (map Comment.id (map entity rows))
        /\ newest_first Comment.createdAt (map entity rows)
        /\ rows = map (attach st Comment.authorId) (map entity rows)).
Proof.
  intros Hsc Hk Hid. split.
  - eexists. split; [unfold getCommentsByPost; taken Hid; reflexivity|].
    unfold comment_author.
    destruct (select_rows Comment.id Comment.authorId Comment.createdAt sc st
                (comments st)
                (fun c => str_eq (Comment.postId c) (Some parent))
                Hsc (users_keyed Hk) (comments_keyed Hk))
      as (Hmem & Hnd & Hs & Hatt).
    split; [|split; [exact Hnd|split; [exact Hs | exact Hatt]]].
    intros c. etransitivity; [exact (Hmem c)|].
    rewrite holds_str_eq. tauto.
  - eexists. split; [unfold getCommentsByVideo; taken Hid; reflexivity|].
    unfold comment_author.
    destruct (select_rows Comment.id Comment.authorId Comment.createdAt sc st
                (comments st)
                (fun c => str_eq (Comment.videoId c) (Some parent))
                Hsc (users_keyed Hk) (comments_keyed Hk))
      as (Hmem & Hnd & Hs & Hatt).
    split; [|split; [exact Hnd|split; [exact Hs | exact Hatt]]].
    intros c. etransitivity; [exact (Hmem c)|].
    rewrite holds_str_eq. tauto.
Qed.

Lemma comment_listings_witness :
  fair (@stored_order Comment.t) /\ keyed Sample.store
  /\ Text.has_nul "p1" = false /\ Text.has_nul "v1" = false
  /\ (exists rows,
        getCommentsByPost stored_order Sample.store "p1" = Resolved rows
        /\ In Sample.remark (map entity rows))
  /\ (exists rows,
        getCommentsByVideo stored_order Sample.store "v1" = Resolved rows
        /\ ~ In Sample.remark (map entity rows)).
Proof.
  split; [apply stored_order_fair|]. split; [apply sample_keyed|].
  split; [reflexivity|]. split; [reflexivity|].
  destruct (comment_listings stored_order Sample.store "p1"
              stored_order_fair sample_keyed eq_refl)
    as [(rows & H & Hmem & _) _].
  destruct (comment_listings stored_order Sample.store "v1"
              stored_order_fair sample_keyed eq_refl)
    as [_ (rows' & H' & Hmem' & _)].
  split.
  - exists rows. split; [exact H|]. apply Hmem.
    split; [simpl; tauto | reflexivity].
  - exists rows'. split; [exact H'|]. intros Hin. apply Hmem' in Hin.
    destruct Hin as [_ Hv]. discriminate.
Defined.

(** ** Search, whatever the query *)

(** [X5] [searchPosts] and [searchVideos] reject a query exactly when it
    holds a NUL character.  Any other query resolves: the pattern built
    around it always ends in [%], so it cannot end in an unfinished escape,
    whatever characters the query holds (a trailing backslash included). *)
Theorem search_rejects_nul_only (fold : Like.folding)
    (sc : scan_order Post.t) (sv : scan_order Video.t) (st : Store)
    (query : string) :
  Like.regular fold ->
  (Text.has_nul query = false ->
   (exists rows, searchPosts fold sc st query = Resolved rows)
   /\ (exists rows, searchVideos fold sv st query = Resolved rows))
  /\ (Text.has_nul query = true ->
      searchPosts fold sc st query = Rejected InvalidByteSequence
      /\ searchVideos fold sv st query = Rejected InvalidByteSequence).
Proof.
  intros [Hp _]. unfold searchPosts, searchVideos. split; intros Hq.
  - taken Hq.
    destruct (contains_pattern_accepted fold query Hp) as [pat ->].
    split; eexists; reflexivity.
  - refused Hq. split; reflexivity.
Qed.

Lemma search_rejects_nul_only_witness :
  Like.regular Like.fold_ascii
  /\ Text.has_nul "_%\" = false /\ Text.has_nul Sample.nul_id = true
  /\ (exists rows,
        searchPosts Like.fold_ascii stored_order Sample.store "_%\"
        = Resolved rows)
  /\ searchVideos Like.fold_ascii stored_order Sample.store Sample.nul_id
     = Rejected InvalidByteSequence.
Proof.
  split; [apply fold_ascii_regular|]. split; [reflexivity|].
  split; [reflexivity|].
  destruct (search_rejects_nul_only Like.fold_ascii stored_order stored_order
              Sample.store "_%\" fold_ascii_regular) as [Hok _].
  destruct (search_rejects_nul_only Like.fold_ascii stored_order stored_order
              Sample.store Sample.nul_id fold_ascii_regular) as [_ Hnul].
  split.
  - exact (proj1 (Hok eq_refl)).
  - exact (proj2 (Hnul eq_refl)).
Defined.

(** [X6] Whatever the query without a NUL character, pattern characters
    included, [searchPosts] and [searchVideos] resolve with rows of the table
    that are published, each at most once, ordered by [createdAt] newest
    first, each with the author the join finds. *)
Theorem search_results_published (fold : Like.folding)
    (sc : scan_order Post.t) (sv : scan_order Video.t) (st : Store)
    (query : string) :
  Like.regular fold -> fair sc -> fair sv -> keyed st ->
  Text.has_nul query = false ->
  (exists rows,
     searchPosts fold sc st query = Resolved rows
     /\ Forall (fun r => In (entity r) (posts st)
                         /\ Post.published (entity r) = Some true) rows
     /\ NoDup (map Post.id (map entity rows))
     /\ newest_first Post.createdAt (map entity rows)
     /\ rows = map (attach st Post.authorId) (map entity rows))
  /\ (exists rows,
        searchVideos fold sv st query = Resolved rows
        /\ Forall (fun r => In (entity r) (videos st)
                            /\ Video.published (entity r) = Some true) rows
        /\ NoDup (map Video.id (map entity rows))
        /\ newest_first Video.createdAt (map entity rows)
        /\ rows = map (attach st Video.authorId) (map entity rows)).
Proof.
  intros [Hp _] Hsc Hsv Hk Hq. unfold searchPosts, searchVideos. taken Hq.
  destruct (contains_pattern_accepted fold query Hp) as [pat ->]. split.
  - eexists. split; [reflexivity|]. unfold post_author.
    destruct (search_rows Post.id Post.authorId Post.published Post.createdAt
                st (posts st)
                (fun p => Sql.or_
                            (Sql.or_ (Like.ilike fold (Some (Post.title p)) pat)
                                     (Like.ilike fold (Some (Post.content p)) pat))
                            (Like.ilike fold (Post.excerpt p) pat))
                Hsc (users_keyed Hk) (posts_keyed Hk))
      as (Hmem & Hnd & Hs & Hatt).
    split; [|split; [exact Hnd|split; [exact Hs | exact Hatt]]].
    apply Forall_forall. intros r Hr.
    assert (Hin : In (entity r) (posts st)
                  /\ Post.published (entity r) = Some true /\ _)
      by (apply (Hmem (entity r)); now apply in_map).
    tauto.
  - eexists. split; [reflexivity|]. unfold video_author.
    destruct (search_rows Video.id Video.authorId Video.published Video.createdAt
                st (videos st)
                (fun v => Sql.or_ (Like.ilike fold (Some (Video.title v)) pat)
                                  (Like.ilike fold (Video.description v) pat))
                Hsv (users_keyed Hk) (videos_keyed Hk))
      as (Hmem & Hnd & Hs & Hatt).
    split; [|split; [exact Hnd|split; [exact Hs | exact Hatt]]].
    apply Forall_forall. intros r Hr.
    assert (Hin : In (entity r) (videos st)
                  /\ Video.published (entity r) = Some true /\ _)
      by (apply (Hmem (entity r)); now apply in_map).
    tauto.
Qed.

Lemma search_results_published_witness :
  Like.regular Like.fold_ascii
  /\ fair (@stored_order Post.t) /\ fair (@stored_order Video.t)
  /\ keyed Sample.store /\ Text.has_nul "_%\" = false
  /\ exists rows,
       searchPosts Like.fold_ascii stored_order Sample.store "_%\"
       = Resolved rows
       /\ Forall (fun r => In (entity r) (posts Sample.store)
                           /\ Post.published (entity r) = Some true) rows.
Proof.
  split; [apply fold_ascii_regular|].
  split; [apply stored_order_fair|]. split; [apply stored_order_fair|].
  split; [apply sample_keyed|]. split; [reflexivity|].
  destruct (search_results_published Like.fold_ascii stored_order stored_order
              Sample.store "_%\" fold_ascii_regular
              stored_order_fair stored_order_fair sample_keyed eq_refl)
    as [(rows & H & Hpub & _) _].
  exists rows. split; [exact H | exact Hpub].
Defined.

(** ** Listings by category *)

Section CategoryListing.

Context {E : Type} (published : E -> option bool) (category : E -> string)
  (createdAt : E -> option timestamp) (authorId : E -> string).

Lemma category_page (sc : scan_order E) (st : Store) (table : list E)
    (wanted : string) (limit offset : nat) :
  fair sc -> NoDup (map User.id (users st)) ->
  exists ordering,
    Permutation ordering
      (filter (fun e => visible published e && String.eqb (category e) wanted)
         table)
    /\ newest_first createdAt ordering
    /\ map withAuthor
         (firstn limit
            (skipn offset
               (Query.orderBy
                  (Query.where_
                     (Query.leftJoin (Query.from sc table) (users st)
                        (fun e u => str_eq (Some (authorId e)) (Some (User.id u))))
                     (fun row =>
                        Sql.and_ (is_true (published (fst row)))
                          (str_eq (Some (category (fst row))) (Some wanted))))
                  (fun row => createdAt (fst row)))))
       = map (attach st authorId) (firstn limit (skipn offset ordering)).
Proof using Type.
  intros Hf Hu.
  exists (Query.orderBy
            (filter (fun e => Sql.holds
                                (Sql.and_ (is_true (published e))
                                   (str_eq (Some (category e)) (Some wanted))))
               (sc table)) createdAt).
  split; [|split].
  - etransitivity; [apply orderBy_perm|].
    erewrite filter_ext.
    + apply filter_perm, Hf.
    + intros e. rewrite holds_and, holds_key_eq. reflexivity.
  - apply orderBy_sorted.
  - exact (pipeline_normal authorId st (Query.from sc table)
             (fun e => Sql.and_ (is_true (published e))
                         (str_eq (Some (category e)) (Some wanted)))
             createdAt limit offset Hu).
Qed.

Lemma category_page_rows (st : Store) (table ordering : list E)
    (wanted : string) (limit offset : nat) :
  Permutation ordering
    (filter (fun e => visible published e && String.eqb (category e) wanted)
       table) ->
  Forall (fun r => In (entity r) table
                   /\ published (entity r) = Some true
                   /\ category (entity r) = wanted)
    (map (attach st authorId) (firstn limit (skipn offset ordering)))
  /\ List.length (map (attach st authorId) (firstn limit (skipn offset ordering)))
     <= limit.
Proof using Type.
  intros Hperm. split.
  - apply Forall_forall. intros r Hr. apply in_map_iff in Hr.
    destruct Hr as (e & <- & He). cbn [attach entity].
    apply in_window in He. apply (Permutation_in _ Hperm) in He.
    apply filter_In in He. destruct He as [Hin Hc].
    apply andb_prop in Hc. destruct Hc as [Hv Hcat].
    split; [exact Hin|]. split.
    + now apply holds_is_true.
    + now apply String.eqb_eq.
  - rewrite length_map. apply firstn_le_length.
Qed.

End CategoryListing.

(** [X7] Under a category the store takes as a parameter (one without a NUL
    character) and with [limit] and [offset] whole numbers from 0 up to, not
    including, 2^63 (20 and 0 when left out), [getPostsByCategory] and
    [getVideosByCategory] resolve with a page of the rows that are published
    and whose category equals the argument exactly: the window of [limit]
    rows after the first [offset] rows of those rows ordered by [createdAt],
    newest first.  An unpublished row or a row of another category is never
    returned. *)
Theorem listings_by_category (sc : scan_order Post.t) (sv : scan_order Video.t)
    (st : Store) (category : string) (limit offset : option number)
    (l o : nat) :
  fair sc -> fair sv -> keyed st -> Text.has_nul category = false ->
  counts 20 limit l -> counts 0 offset o ->
  (exists rows ordering,
     getPostsByCategory sc st category limit offset = Resolved rows
     /\ Permutation ordering
          (filter (fun p => visible Post.published p
                            && String.eqb (Post.category p) category)
             (posts st))
     /\ newest_first Post.createdAt ordering
     /\ rows = map (attach st Post.authorId) (firstn l (skipn o ordering))
     /\ Forall (fun r => In (entity r) (posts st)
                         /\ Post.published (entity r) = Some true
                         /\ Post.category (entity r) = category) rows
     /\ List.length rows <= l)
  /\ (exists rows ordering,
        getVideosByCategory sv st category limit offset = Resolved rows
        /\ Permutation ordering
             (filter (fun v => visible Video.published v
                               && String.eqb (Video.category v) category)
                (videos st))
        /\ newest_first Video.createdAt ordering
        /\ rows = map (attach st Video.authorId) (firstn l (skipn o ordering))
        /\ Forall (fun r => In (entity r) (videos st)
                            /\ Video.published (entity r) = Some true
                            /\ Video.category (entity r) = category) rows
        /\ List.length rows <= l).
Proof.
  intros Hsc Hsv Hk Hc Hl Ho. split.
  - destruct (category_page Post.published Post.category Post.createdAt
                Post.authorId sc st (posts st) category l o
                Hsc (users_keyed Hk))
      as (ordering & HP & HS & Heq).
    destruct (category_page_rows Post.published Post.category Post.authorId
                st (posts st) ordering category l o HP) as [Hrows Hlen].
    eexists. exists ordering.
    split.
    { unfold getPostsByCategory. cbv zeta. taken Hc. paged Hl Ho.
      unfold post_author. rewrite Heq. reflexivity. }
    split; [exact HP|]. split; [exact HS|].
    split; [reflexivity|]. split; [exact Hrows | exact Hlen].
  - destruct (category_page Video.published Video.category Video.createdAt
                Video.authorId sv st (videos st) category l o
                Hsv (users_keyed Hk))
      as (ordering & HP & HS & Heq).
    destruct (category_page_rows Video.published Video.category Video.authorId
                st (videos st) ordering category l o HP) as [Hrows Hlen].
    eexists. exists ordering.
    split.
    { unfold getVideosByCategory. cbv zeta. taken Hc. paged Hl Ho.
      unfold video_author. rewrite Heq. reflexivity. }
    split; [exact HP|]. split; [exact HS|].
    split; [reflexivity|]. split; [exact Hrows | exact Hlen].
Qed.

Lemma listings_by_category_witness :
  fair (@stored_order Post.t) /\ fair (@stored_order Video.t)
  /\ keyed Sample.store /\ Text.has_nul "food" = false
  /\ counts 20 None 20 /\ counts 0 (Some (whole 0)) 0
  /\ exists rows,
       getPostsByCategory stored_order Sample.store "food" None
         (Some (whole 0))
       = Resolved rows
       /\ Forall (fun r => In (entity r) (posts Sample.store)
                           /\ Post.published (entity r) = Some true
                           /\ Post.category (entity r) = "food") rows
       /\ List.length rows <= 20.
Proof.
  assert (Ho : counts 0 (Some (whole 0)) 0) by (split; reflexivity).
  split; [apply stored_order_fair|]. split; [apply stored_order_fair|].
  split; [apply sample_keyed|]. split; [reflexivity|].
  split; [reflexivity|]. split; [exact Ho|].
  destruct (listings_by_category stored_order stored_order Sample.store "food"
              None (Some (whole 0)) 20 0
              stored_order_fair stored_order_fair sample_keyed eq_refl
              eq_refl Ho)
    as [(rows & ordering & H & _ & _ & _ & Hrows & Hlen) _].
  exists rows. split; [exact H|]. split; [exact Hrows | exact Hlen].
Defined.

(** ** Page sizes and adjoining pages *)

Lemma window_length {E : Type} (n m : nat) (l : list E) :
  List.length (firstn n (skipn m l)) = Nat.min n (List.length l - m).
Proof. now rewrite length_firstn, length_skipn. Qed.

(** [X8] With [limit] and [offset] whole numbers from 0 up to, not including,
    2^63 (20 and 0 when left out), a page of [getPosts] or [getVideos] holds
    exactly [min limit (published - offset)] rows, where [published] counts
    the published rows of the table: none when [limit] is 0 or when [offset]
    reaches past the last published row, and never more than are left. *)
Theorem page_size (sc : scan_order Post.t) (sv : scan_order Video.t)
    (st : Store) (limit offset : option number) (l o : nat) :
  fair sc -> fair sv -> keyed st ->
  counts 20 limit l -> counts 0 offset o ->
  (exists rows,
     getPosts sc st limit offset = Resolved rows
     /\ List.length rows
        = Nat.min l
            (List.length (filter (visible Post.published) (posts st)) - o))
  /\ (exists rows,
        getVideos sv st limit offset = Resolved rows
        /\ List.length rows
           = Nat.min l
               (List.length (filter (visible Video.published) (videos st)) - o)).
Proof.
  intros Hsc Hsv Hk Hl Ho. split.
  - eexists. split; [exact (getPosts_counts sc st limit offset l o Hl Ho)|].
    unfold post_author.
    rewrite (pipeline_normal Post.authorId st (Query.from sc (posts st))
               (fun e => is_true (Post.published e)) Post.createdAt
               l o (users_keyed Hk)).
    rewrite length_map, window_length. f_equal. f_equal.
    apply Permutation_length.
    etransitivity; [apply orderBy_perm | apply filter_perm, Hsc].
  - eexists. split; [exact (getVideos_counts sv st limit offset l o Hl Ho)|].
    unfold video_author.
    rewrite (pipeline_normal Video.authorId st (Query.from sv (videos st))
               (fun e => is_true (Video.published e)) Video.createdAt
               l o (users_keyed Hk)).
    rewrite length_map, window_length. f_equal. f_equal.
    apply Permutation_length.
    etransitivity; [apply orderBy_perm | apply filter_perm, Hsv].
Qed.

Lemma page_size_witness :
  fair (@stored_order Post.t) /\ fair (@stored_order Video.t)
  /\ keyed Sample.store
  /\ counts 20 (Some (whole 0)) 0 /\ counts 0 None 0
  /\ counts 20 None 20 /\ counts 0 (Some (whole 2)) 2
  /\ counts 20 (Some (whole 5)) 5 /\ counts 0 (Some (whole 1)) 1
  /\ (exists rows,
        getPosts stored_order Sample.store (Some (whole 0)) None
        = Resolved rows
        /\ List.length rows = 0)
  /\ (exists rows,
        getPosts stored_order Sample.store None (Some (whole 2))
        = Resolved rows
        /\ List.length rows = 0)
  /\ (exists rows,
        getPosts stored_order Sample.store (Some (whole 5)) (Some (whole 1))
        = Resolved rows
        /\ List.length rows = 1).
Proof.
  assert (C0 : counts 20 (Some (whole 0)) 0) by (split; reflexivity).
  assert (C2 : counts 0 (Some (whole 2)) 2) by (split; reflexivity).
  assert (C5 : counts 20 (Some (whole 5)) 5) by (split; reflexivity).
  assert (C1 : counts 0 (Some (whole 1)) 1) by (split; reflexivity).
  split; [apply stored_order_fair|]. split; [apply stored_order_fair|].
  split; [apply sample_keyed|].
  split; [exact C0|]. split; [reflexivity|]. split; [reflexivity|].
  split; [exact C2|]. split; [exact C5|]. split; [exact C1|].
  destruct (page_size stored_order stored_order Sample.store
              (Some (whole 0)) None 0 0
              stored_order_fair stored_order_fair sample_keyed C0 eq_refl)
    as [(r1 & H1 & L1) _].
  destruct (page_size stored_order stored_order Sample.store
              None (Some (whole 2)) 20 2
              stored_order_fair stored_order_fair sample_keyed eq_refl C2)
    as [(r2 & H2 & L2) _].
  destruct (page_size stored_order stored_order Sample.store
              (Some (whole 5)) (Some (whole 1)) 5 1
              stored_order_fair stored_order_fair sample_keyed C5 C1)
    as [(r3 & H3 & L3) _].
  split; [|split].
  - exists r1. split; [exact H1 | exact L1].
  - exists r2. split; [exact H2 | exact L2].
  - exists r3. split; [exact H3 | exact L3].
Defined.

Section Adjoining.

Context {E : Type} (authorId : E -> string) (published : E -> option bool)
  (createdAt : E -> option timestamp).

(** Windows of one arrangement adjoin. *)
Lemma windows_adjoin (l : list E) (l1 l2 offset : nat) :
  firstn l1 (skipn offset l) ++ firstn l2 (skipn (offset + l1) l)
  = firstn (l1 + l2) (skipn offset l).
Proof.
  now rewrite firstn_plus, skipn_skipn, (Nat.add_comm l1 offset).
Qed.

(** Three executions that sort on distinct dates show adjoining pages. *)
Lemma pages_adjoining (sc1 sc2 sc3 : scan_order E) (st : Store)
    (table : list E) (l1 l2 offset : nat) :
  fair sc1 -> fair sc2 -> fair sc3 ->
  NoDup (map User.id (users st)) ->
  distinct_dates published createdAt table ->
  let page (sc : scan_order E) (n m : nat) :=
    map withAuthor
      (firstn n
         (skipn m
            (Query.orderBy
               (Query.where_
                  (Query.leftJoin (Query.from sc table) (users st)
                     (fun e u => str_eq (Some (authorId e)) (Some (User.id u))))
                  (fun row => is_true (published (fst row))))
               (fun row => createdAt (fst row))))) in
  page sc1 l1 offset ++ page sc2 l2 (offset + l1)
  = page sc3 (l1 + l2) offset.
Proof using Type.
  intros H1 H2 H3 Hu Hd page. subst page. cbv beta.
  rewrite !(pipeline_normal authorId st (Query.from _ table)
              (fun e => is_true (published e)) createdAt _ _ Hu).
  unfold Query.from.
  change (fun e => Sql.holds (is_true (published e))) with (visible published).
  rewrite (@same_arrangement E published createdAt sc1 sc3 table H1 H3 Hd).
  rewrite (@same_arrangement E published createdAt sc2 sc3 table H2 H3 Hd).
  now rewrite <- map_app, windows_adjoin.
Qed.

End Adjoining.

(** [X9] Pages adjoin where the dates decide the order: when no two
    published rows share [createdAt], the page of [l1] rows at [offset]
    followed by the page of [l2] rows at [offset + l1] is the page of
    [l1 + l2] rows at [offset], row for row, also when each of the three is
    read by an execution of its own.  The counts are whole numbers whose sum
    stays below 2^63. *)
Theorem pages_adjoin (sc1 sc2 sc3 : scan_order Post.t)
    (sv1 sv2 sv3 : scan_order Video.t) (st : Store) (l1 l2 offset : nat) :
  fair sc1 -> fair sc2 -> fair sc3 -> fair sv1 -> fair sv2 -> fair sv3 ->
  keyed st -> (Z.of_nat (offset + l1 + l2) < 2 ^ 63)%Z ->
  (distinct_dates Post.published Post.createdAt (posts st) ->
   exists page1 page2,
     getPosts sc1 st (Some (whole (Z.of_nat l1)))
       (Some (whole (Z.of_nat offset))) = Resolved page1
     /\ getPosts sc2 st (Some (whole (Z.of_nat l2)))
          (Some (whole (Z.of_nat (offset + l1)))) = Resolved page2
     /\ getPosts sc3 st (Some (whole (Z.of_nat (l1 + l2))))
          (Some (whole (Z.of_nat offset))) = Resolved (page1 ++ page2))
  /\ (distinct_dates Video.published Video.createdAt (videos st) ->
      exists page1 page2,
        getVideos sv1 st (Some (whole (Z.of_nat l1)))
          (Some (whole (Z.of_nat offset))) = Resolved page1
        /\ getVideos sv2 st (Some (whole (Z.of_nat l2)))
             (Some (whole (Z.of_nat (offset + l1)))) = Resolved page2
        /\ getVideos sv3 st (Some (whole (Z.of_nat (l1 + l2))))
             (Some (whole (Z.of_nat offset))) = Resolved (page1 ++ page2)).
Proof.
  intros Hc1 Hc2 Hc3 Hv1 Hv2 Hv3 Hk Hbound.
  assert (B1 : (Z.of_nat l1 < 2 ^ 63)%Z) by lia.
  assert (B2 : (Z.of_nat l2 < 2 ^ 63)%Z) by lia.
  assert (B3 : (Z.of_nat offset < 2 ^ 63)%Z) by lia.
  assert (B4 : (Z.of_nat (offset + l1) < 2 ^ 63)%Z) by lia.
  assert (B5 : (Z.of_nat (l1 + l2) < 2 ^ 63)%Z) by lia.
  split; intros Hd.
  - eexists. eexists.
    split; [exact (getPosts_counts sc1 st _ _ l1 offset
                     (counts_whole 20 l1 B1) (counts_whole 0 offset B3))|].
    split; [exact (getPosts_counts sc2 st _ _ l2 (offset + l1)
                     (counts_whole 20 l2 B2)
                     (counts_whole 0 (offset + l1) B4))|].
    rewrite (getPosts_counts sc3 st _ _ (l1 + l2) offset
               (counts_whole 20 (l1 + l2) B5) (counts_whole 0 offset B3)).
    f_equal. symmetry.
    exact (pages_adjoining Post.authorId Post.published Post.createdAt
             sc1 sc2 sc3 st (posts st) l1 l2 offset Hc1 Hc2 Hc3
             (users_keyed Hk) Hd).
  - eexists. eexists.
    split; [exact (getVideos_counts sv1 st _ _ l1 offset
                     (counts_whole 20 l1 B1) (counts_whole 0 offset B3))|].
    split; [exact (getVideos_counts sv2 st _ _ l2 (offset + l1)
                     (counts_whole 20 l2 B2)
                     (counts_whole 0 (offset + l1) B4))|].
    rewrite (getVideos_counts sv3 st _ _ (l1 + l2) offset
               (counts_whole 20 (l1 + l2) B5) (counts_whole 0 offset B3)).
    f_equal. symmetry.
    exact (pages_adjoining Video.authorId Video.published Video.createdAt
             sv1 sv2 sv3 st (videos st) l1 l2 offset Hv1 Hv2 Hv3
             (users_keyed Hk) Hd).
Qed.

Lemma pages_adjoin_witness :
  fair (@rev Post.t) /\ fair (@stored_order Post.t)
  /\ fair (@stored_order Video.t) /\ keyed Sample.store
  /\ (Z.of_nat (0 + 1 + 1) < 2 ^ 63)%Z
  /\ distinct_dates Post.published Post.createdAt (posts Sample.store)
  /\ exists page1 page2,
       getPosts (@rev Post.t) Sample.store (Some (whole 1)) (Some (whole 0))
       = Resolved page1
       /\ getPosts stored_order Sample.store (Some (whole 1)) (Some (whole 1))
          = Resolved page2
       /\ getPosts (@rev Post.t) Sample.store (Some (whole 2)) (Some (whole 0))
          = Resolved (page1 ++ page2).
Proof.
  split; [apply rev_fair|]. split; [apply stored_order_fair|].
  split; [apply stored_order_fair|]. split; [apply sample_keyed|].
  split; [reflexivity|]. split; [apply sample_distinct_dates|].
  destruct (pages_adjoin (@rev Post.t) stored_order (@rev Post.t)
              stored_order stored_order stored_order Sample.store 1 1 0
              rev_fair stored_order_fair rev_fair
              stored_order_fair stored_order_fair stored_order_fair
              sample_keyed eq_refl) as [Hposts _].
  destruct (Hposts sample_distinct_dates) as (page1 & page2 & H1 & H2 & H3).
  exists page1, page2. split; [exact H1|]. split; [exact H2 | exact H3].
Defined.

(** ** Creating, then looking up *)

Section LookupFind.

Context {E : Type} (id : E -> string) (authorId : E -> string).

(** A lookup by id, under unique keys, is a [find] on the table. *)
Lemma lookup_find (sc : scan_order E) (st : Store) (table : list E)
    (k : string) :
  fair sc -> NoDup (map User.id (users st)) -> NoDup (map id table) ->
  Query.where_
    (Query.leftJoin (Query.from sc table) (users st)
       (fun x u => str_eq (Some (authorId x)) (Some (User.id u))))
    (fun row => str_eq (Some (id (fst row))) (Some k))
  = match find (fun e => String.eqb (id e) k) table with
    | Some e => [(e, author_of st (authorId e))]
    | None => []
    end.
Proof using Type.
  intros Hf Hu Hk.
  destruct (find (fun e => String.eqb (id e) k) table) as [e|] eqn:F.
  - apply find_some in F. destruct F as [He Hid].
    apply String.eqb_eq in Hid. subst k.
    exact (lookup_hit id authorId st table e Hf Hu Hk He).
  - apply (lookup_miss id authorId st table Hf).
    intros x Hx. apply String.eqb_neq. exact (find_none _ _ F x Hx).
Qed.

End LookupFind.

Lemma getPost_find (sc : scan_order Post.t) (st : Store) (k : string) :
  fair sc -> keyed st -> Text.has_nul k = false ->
  getPost sc st k
  = Resolved (option_map (attach st Post.authorId)
                (find (fun p => String.eqb (Post.id p) k) (posts st))).
Proof.
  intros Hf Hk Hid. unfold getPost, post_author. taken Hid.
  rewrite (lookup_find Post.id Post.authorId sc st (posts st) k Hf
             (users_keyed Hk) (posts_keyed Hk)).
  destruct (find _ (posts st)); reflexivity.
Qed.

Lemma getPost_refused (sc : scan_order Post.t) (st : Store) (k : string) :
  Text.has_nul k = true -> getPost sc st k = Rejected InvalidByteSequence.
Proof. intros Hid. unfold getPost. refused Hid. reflexivity. Qed.

Lemma getVideo_find (sv : scan_order Video.t) (st : Store) (k : string) :
  fair sv -> keyed st -> Text.has_nul k = false ->
  getVideo sv st k
  = Resolved (option_map (attach st Video.authorId)
                (find (fun v => String.eqb (Video.id v) k) (videos st))).
Proof.
  intros Hf Hk Hid. unfold getVideo, video_author. taken Hid.
  rewrite (lookup_find Video.id Video.authorId sv st (videos st) k Hf
             (users_keyed Hk) (videos_keyed Hk)).
  destruct (find _ (videos st)); reflexivity.
Qed.

Lemma getVideo_refused (sv : scan_order Video.t) (st : Store) (k : string) :
  Text.has_nul k = true -> getVideo sv st k = Rejected InvalidByteSequence.
Proof. intros Hid. unfold getVideo. refused Hid. reflexivity. Qed.

Lemma find_keyed_hit {E : Type} (key : E -> string) (l : list E) (e : E) :
  NoDup (map key l) -> In e l ->
  find (fun x => String.eqb (key x) (key e)) l = Some e.
Proof.
  intros Hnd He.
  destruct (find (fun x => String.eqb (key x) (key e)) l) as [x|] eqn:F.
  - apply find_some in F. destruct F as [Hx Hk]. apply String.eqb_eq in Hk.
    f_equal. exact (key_injective key l x e Hnd Hx He Hk).
  - apply (find_none _ _ F) in He. rewrite String.eqb_refl in He.
    discriminate.
Qed.

Lemma author_of_hit (st : Store) (u : User.t) :
  NoDup (map User.id (users st)) -> In u (users st) ->
  author_of st (User.id u) = Some u.
Proof. apply find_keyed_hit. Qed.

Lemma createPost_shape (st : Store) (now : timestamp) (uuid : string)
    (post : InsertPost.t) (row : Post.t) (st' : Store) :
  createPost st now uuid post = Resolved (row, st') ->
  has_post st uuid = false
  /\ has_user st (InsertPost.authorId post) = true
  /\ st' = with_posts st (posts st ++ [row])
  /\ post_created post now uuid row.
Proof.
  unfold createPost. through_checks.
  destruct (Pg.varchar 255 _) as [title|] eqn:Ht; cbn [bind]; [|discriminate].
  cbn [Post.id Post.authorId].
  destruct (has_post st uuid); [discriminate|].
  destruct (has_user st (InsertPost.authorId post)); [|discriminate].
  cbn [negb]. intros H. injection H as <- <-.
  split; [reflexivity|]. split; [reflexivity|]. split; [reflexivity|].
  unfold post_created, or_null.
  cbn [Post.id Post.title Post.content Post.excerpt Post.imageUrl
       Post.category Post.tags Post.authorId Post.published Post.createdAt
       Post.updatedAt].
  repeat split; try apply patched_spread. exact Ht.
Qed.

Lemma createPost_checked (st : Store) (now : timestamp) (uuid : string)
    (post : InsertPost.t) (row : Post.t) (st' : Store) :
  createPost st now uuid post = Resolved (row, st') ->
  storable (uuid :: post_texts post).
Proof.
  unfold createPost, storable.
  destruct (forallb Pg.text _); cbn [negb]; [reflexivity | discriminate].
Qed.

Lemma createVideo_shape (st : Store) (now : timestamp) (uuid : string)
    (video : InsertVideo.t) (row : Video.t) (st' : Store) :
  createVideo st now uuid video = Resolved (row, st') ->
  has_video st uuid = false
  /\ has_user st (InsertVideo.authorId video) = true
  /\ st' = with_videos st (videos st ++ [row])
  /\ video_created video now uuid row.
Proof.
  unfold createVideo. through_checks.
  destruct (Pg.varchar 255 _) as [title|] eqn:Ht; cbn [bind]; [|discriminate].
  cbn [Video.id Video.authorId].
  destruct (has_video st uuid); [discriminate|].
  destruct (has_user st (InsertVideo.authorId video)); [|discriminate].
  cbn [negb]. intros H. injection H as <- <-.
  split; [reflexivity|]. split; [reflexivity|]. split; [reflexivity|].
  unfold video_created, or_null.
  cbn [Video.id Video.title Video.description Video.videoUrl
       Video.thumbnailUrl Video.category Video.tags Video.duration
       Video.authorId Video.published Video.createdAt Video.updatedAt].
  repeat split; try apply patched_spread. exact Ht.
Qed.

Lemma createVideo_checked (st : Store) (now : timestamp) (uuid : string)
    (video : InsertVideo.t) (row : Video.t) (st' : Store) :
  createVideo st now uuid video = Resolved (row, st') ->
  storable (uuid :: video_texts video).
Proof.
  unfold createVideo, storable.
  destruct (forallb Pg.text _); cbn [negb]; [reflexivity | discriminate].
Qed.

Lemma keyed_with_posts (st : Store) (row : Post.t) :
  keyed st -> has_post st (Post.id row) = false ->
  keyed (with_posts st (posts st ++ [row])).
Proof.
  intros [Ku Kp Kv Kc] Hfresh. split; cbn; try assumption.
  exact (keyed_append Post.id (posts st) row Kp Hfresh).
Qed.

Lemma keyed_with_videos (st : Store) (row : Video.t) :
  keyed st -> has_video st (Video.id row) = false ->
  keyed (with_videos st (videos st ++ [row])).
Proof.
  intros [Ku Kp Kv Kc] Hfresh. split; cbn; try assumption.
  exact (keyed_append Video.id (videos st) row Kv Hfresh).
Qed.

Lemma find_after_append {E : Type} (key : E -> string) (l : list E) (new : E)
    (k : string) :
  k <> key new ->
  find (fun x => String.eqb (key x) k) (l ++ [new])
  = find (fun x => String.eqb (key x) k) l.
Proof.
  intros Hne. induction l as [|x l IH]; simpl.
  - destruct (String.eqb_spec (key new) k); [congruence | reflexivity].
  - destruct (String.eqb (key x) k); [reflexivity | exact IH].
Qed.

Lemma listed_is_published_post (sc : scan_order Post.t) (st : Store)
    (limit offset : option number) (rows : list PostWithAuthor) (p : Post.t) :
  fair sc -> keyed st ->
  getPosts sc st limit offset = Resolved rows ->
  In p (map entity rows) -> In p (posts st) /\ Post.published p = Some true.
Proof.
  intros Hf Hk H Hin.
  destruct (@getPosts_resolved sc st limit offset rows H) as (lim & off & ->).
  match type of Hin with
  | context [Query.limit lim (Query.offset off ?l)] =>
      destruct (clauses_window lim off l) as (n & m & E); rewrite E in *
  end.
  pose proof (listing_page Post.published Post.createdAt Post.authorId
                st (posts st) n m Hf (users_keyed Hk)) as Hp.
  destruct (page_of_facts Hp) as (Hall & _).
  rewrite Forall_forall in Hall. apply in_map_iff in Hin.
  destruct Hin as (r & <- & Hr). destruct (Hall r Hr) as [H1 H2].
  split; assumption.
Qed.

Lemma listed_is_published_video (sv : scan_order Video.t) (st : Store)
    (limit offset : option number) (rows : list VideoWithAuthor) (v : Video.t) :
  fair sv -> keyed st ->
  getVideos sv st limit offset = Resolved rows ->
  In v (map entity rows) -> In v (videos st) /\ Video.published v = Some true.
Proof.
  intros Hf Hk H Hin.
  destruct (@getVideos_resolved sv st limit offset rows H) as (lim & off & ->).
  match type of Hin with
  | context [Query.limit lim (Query.offset off ?l)] =>
      destruct (clauses_window lim off l) as (n & m & E); rewrite E in *
  end.
  pose proof (listing_page Video.published Video.createdAt Video.authorId
                st (videos st) n m Hf (users_keyed Hk)) as Hp.
  destruct (page_of_facts Hp) as (Hall & _).
  rewrite Forall_forall in Hall. apply in_map_iff in Hin.
  destruct Hin as (r & <- & Hr). destruct (Hall r Hr) as [H1 H2].
  split; assumption.
Qed.

(** The bound of the [title] column at work: a title of 256 characters is
    refused, and one of 255 characters followed by a space is stored without
    the space. *)
Lemma createPost_title_bound :
  Text.length (InsertPost.title Sample.overlong) = 256
  /\ createPost Sample.store 900%Z "p7" Sample.overlong
     = Rejected StringDataRightTruncation
  /\ Text.length (InsertPost.title Sample.padded) = 256
  /\ exists row st',
       createPost Sample.store 900%Z "p7" Sample.padded = Resolved (row, st')
       /\ Text.length (Post.title row) = 255
       /\ post_created Sample.padded 900%Z "p7" row.
Proof.
  split; [vm_compute; reflexivity|]. split; [vm_compute; reflexivity|].
  split; [vm_compute; reflexivity|].
  eexists. eexists. split; [vm_compute; reflexivity|].
  split; [vm_compute; reflexivity|].
  repeat split; vm_compute; reflexivity.
Qed.

(** [X10] Take a post or video whose texts the store takes as parameters
    (none holds a NUL character), whose title has at most 255 characters, and
    a generated id not in use.  [createPost] and [createVideo] are refused
    with a foreign-key violation when [authorId] names no user.  When it
    names user [u], the insert resolves with the new row (supplied columns as
    supplied, columns left out at NULL, [published] at [false] when left out,
    generated id, both timestamps now), after which [getPost]/[getVideo] of
    the new id resolves with that row and [u] as its author, lookups of every
    other id answer as before, and the public listing shows the new row only
    if [published] was supplied as [true]. *)
Theorem create_then_lookup (sc : scan_order Post.t) (sv : scan_order Video.t)
    (st : Store) (now : timestamp) (uuid : string)
    (post : InsertPost.t) (video : InsertVideo.t) :
  fair sc -> fair sv -> keyed st ->
  (has_post st uuid = false ->
   storable (uuid :: post_texts post) ->
   within 255 (InsertPost.title post) ->
   (has_user st (InsertPost.authorId post) = false ->
    createPost st now uuid post = Rejected ForeignKeyViolation)
   /\ (forall u, In u (users st) -> User.id u = InsertPost.authorId post ->
       exists row st',
         createPost st now uuid post = Resolved (row, st')
         /\ post_created post now uuid row
         /\ Post.title row = InsertPost.title post
         /\ getPost sc st' uuid
            = Resolved (Some {| entity := row; author := Some u |})
         /\ (forall k, k <> uuid -> getPost sc st' k = getPost sc st k)
         /\ (forall limit offset rows,
               getPosts sc st' limit offset = Resolved rows ->
               In row (map entity rows) ->
               InsertPost.published post = Supplied (Some true))))
  /\ (has_video st uuid = false ->
      storable (uuid :: video_texts video) ->
      within 255 (InsertVideo.title video) ->
      (has_user st (InsertVideo.authorId video) = false ->
       createVideo st now uuid video = Rejected ForeignKeyViolation)
      /\ (forall u, In u (users st) -> User.id u = InsertVideo.authorId video ->
          exists row st',
            createVideo st now uuid video = Resolved (row, st')
            /\ video_created video now uuid row
            /\ Video.title row = InsertVideo.title video
            /\ getVideo sv st' uuid
               = Resolved (Some {| entity := row; author := Some u |})
            /\ (forall k, k <> uuid -> getVideo sv st' k = getVideo sv st k)
            /\ (forall limit offset rows,
                  getVideos sv st' limit offset = Resolved rows ->
                  In row (map entity rows) ->
                  InsertVideo.published video = Supplied (Some true)))).
Proof.
  intros Hsc Hsv Hk. split.
  - intros Hfresh Ht Hw.
    assert (Huuid : Text.has_nul uuid = false)
      by (apply (storable_in _ _ Ht); now left).
    split.
    + intros Hno. unfold createPost. accepted Ht.
      rewrite (varchar_within 255 _ Hw). cbn [bind Post.id Post.authorId].
      now rewrite Hfresh, Hno.
    + intros u Hu Hid.
      assert (Hau : has_user st (InsertPost.authorId post) = true).
      { apply (present_spec User.id). now exists u. }
      assert (Hc : exists row st',
                 createPost st now uuid post = Resolved (row, st')).
      { unfold createPost. accepted Ht. rewrite (varchar_within 255 _ Hw).
        cbn [bind Post.id Post.authorId]. rewrite Hfresh, Hau. cbn [negb].
        eexists. eexists. reflexivity. }
      destruct Hc as (row & st' & Hc).
      destruct (createPost_shape st now uuid post row st' Hc)
        as (_ & _ & -> & Hrow).
      assert (Eid : Post.id row = uuid) by (now destruct Hrow).
      assert (Etitle : Post.title row = InsertPost.title post).
      { destruct Hrow as (_ & Hv & _).
        rewrite (varchar_within 255 _ Hw) in Hv. now injection Hv. }
      assert (Hk' : keyed (with_posts st (posts st ++ [row]))).
      { apply keyed_with_posts; [exact Hk | now rewrite Eid]. }
      exists row. eexists. split; [exact Hc|]. split; [exact Hrow|].
      split; [exact Etitle|]. split; [|split].
      * rewrite (getPost_find sc _ uuid Hsc Hk' Huuid). cbn [posts with_posts].
        rewrite <- Eid.
        rewrite (find_keyed_hit Post.id (posts st ++ [row]) row
                   (posts_keyed Hk')) by (apply in_or_app; right; now left).
        cbn [option_map]. unfold attach. do 3 f_equal.
        destruct Hrow as (_ & _ & _ & _ & _ & _ & _ & -> & _).
        rewrite <- Hid.
        exact (author_of_hit st u (users_keyed Hk) Hu).
      * intros k Hne. destruct (Text.has_nul k) eqn:Hnul.
        { now rewrite !getPost_refused. }
        rewrite (getPost_find sc _ k Hsc Hk' Hnul),
          (getPost_find sc st k Hsc Hk Hnul).
        cbn [posts with_posts].
        rewrite (find_after_append Post.id (posts st) row k)
          by (rewrite Eid; exact Hne).
        reflexivity.
      * intros limit offset rows Hrows Hin.
        destruct (listed_is_published_post sc _ limit offset rows row
                    Hsc Hk' Hrows Hin) as [_ Hpub].
        destruct Hrow as (_ & _ & _ & _ & _ & _ & _ & _ & Hp & _).
        destruct (InsertPost.published post) as [|v]; cbn in Hp; congruence.
  - intros Hfresh Ht Hw.
    assert (Huuid : Text.has_nul uuid = false)
      by (apply (storable_in _ _ Ht); now left).
    split.
    + intros Hno. unfold createVideo. accepted Ht.
      rewrite (varchar_within 255 _ Hw). cbn [bind Video.id Video.authorId].
      now rewrite Hfresh, Hno.
    + intros u Hu Hid.
      assert (Hau : has_user st (InsertVideo.authorId video) = true).
      { apply (present_spec User.id). now exists u. }
      assert (Hc : exists row st',
                 createVideo st now uuid video = Resolved (row, st')).
      { unfold createVideo. accepted Ht. rewrite (varchar_within 255 _ Hw).
        cbn [bind Video.id Video.authorId]. rewrite Hfresh, Hau. cbn [negb].
        eexists. eexists. reflexivity. }
      destruct Hc as (row & st' & Hc).
      destruct (createVideo_shape st now uuid video row st' Hc)
        as (_ & _ & -> & Hrow).
      assert (Eid : Video.id row = uuid) by (now destruct Hrow).
      assert (Etitle : Video.title row = InsertVideo.title video).
      { destruct Hrow as (_ & Hv & _).
        rewrite (varchar_within 255 _ Hw) in Hv. now injection Hv. }
      assert (Hk' : keyed (with_videos st (videos st ++ [row]))).
      { apply keyed_with_videos; [exact Hk | now rewrite Eid]. }
      exists row. eexists. split; [exact Hc|]. split; [exact Hrow|].
      split; [exact Etitle|]. split; [|split].
      * rewrite (getVideo_find sv _ uuid Hsv Hk' Huuid).
        cbn [videos with_videos].
        rewrite <- Eid.
        rewrite (find_keyed_hit Video.id (videos st ++ [row]) row
                   (videos_keyed Hk')) by (apply in_or_app; right; now left).
        cbn [option_map]. unfold attach. do 3 f_equal.
        destruct Hrow as (_ & _ & _ & _ & _ & _ & _ & _ & -> & _).
        rewrite <- Hid.
        exact (author_of_hit st u (users_keyed Hk) Hu).
      * intros k Hne. destruct (Text.has_nul k) eqn:Hnul.
        { now rewrite !getVideo_refused. }
        rewrite (getVideo_find sv _ k Hsv Hk' Hnul),
          (getVideo_find sv st k Hsv Hk Hnul).
        cbn [videos with_videos].
        rewrite (find_after_append Video.id (videos st) row k)
          by (rewrite Eid; exact Hne).
        reflexivity.
      * intros limit offset rows Hrows Hin.
        destruct (listed_is_published_video sv _ limit offset rows row
                    Hsv Hk' Hrows Hin) as [_ Hpub].
        destruct Hrow as (_ & _ & _ & _ & _ & _ & _ & _ & _ & Hp & _).
        destruct (InsertVideo.published video) as [|v]; cbn in Hp; congruence.
Qed.

Lemma create_then_lookup_witness :
  fair (@stored_order Post.t) /\ fair (@stored_order Video.t)
  /\ keyed Sample.store /\ has_post Sample.store "p7" = false
  /\ storable ("p7" :: post_texts Sample.recipe)
  /\ within 255 (InsertPost.title Sample.recipe)
  /\ In Sample.bob (users Sample.store)
  /\ exists row st',
       createPost Sample.store 900%Z "p7" Sample.recipe = Resolved (row, st')
       /\ Post.published row = Some false
       /\ getPost stored_order st' "p7"
          = Resolved (Some {| entity := row; author := Some Sample.bob |})
       /\ getPost stored_order st' "p1" = getPost stored_order Sample.store "p1".
Proof.
  assert (Hw : within 255 (InsertPost.title Sample.recipe))
    by (vm_compute; lia).
  split; [apply stored_order_fair|]. split; [apply stored_order_fair|].
  split; [apply sample_keyed|]. split; [reflexivity|].
  split; [reflexivity|]. split; [exact Hw|].
  split; [simpl; tauto|].
  destruct (create_then_lookup stored_order stored_order Sample.store 900%Z
              "p7" Sample.recipe Sample.teaser
              stored_order_fair stored_order_fair sample_keyed)
    as [Hpost _].
  destruct (Hpost eq_refl eq_refl Hw) as [_ Hok].
  destruct (Hok Sample.bob (or_intror (or_introl eq_refl)) eq_refl)
    as (row & st' & Hc & Hrow & _ & Hget & Hothers & _).
  exists row, st'. split; [exact Hc|]. split; [|split; [exact Hget|]].
  - destruct Hrow as (_ & _ & _ & _ & _ & _ & _ & _ & Hp & _). exact Hp.
  - apply Hothers. discriminate.
Defined.

(** ** Updating, then looking up *)

Lemma updatePost_checked (st : Store) (now : timestamp) (id : string)
    (post : PartialPost.t) (r : option Post.t) (st' : Store) :
  updatePost st now id post = Resolved (r, st') -> Text.has_nul id = false.
Proof.
  unfold updatePost. destruct (forallb Pg.text _) eqn:Ht; [|discriminate].
  intros _. apply (storable_in _ id Ht). apply in_or_app. right. now left.
Qed.

Lemma updateVideo_checked (st : Store) (now : timestamp) (id : string)
    (video : PartialVideo.t) (r : option Video.t) (st' : Store) :
  updateVideo st now id video = Resolved (r, st') -> Text.has_nul id = false.
Proof.
  unfold updateVideo. destruct (forallb Pg.text _) eqn:Ht; [|discriminate].
  intros _. apply (storable_in _ id Ht). apply in_or_app. right. now left.
Qed.

Lemma updatePost_shape (st : Store) (now : timestamp) (id : string)
    (post : PartialPost.t) (old : Post.t) (r : option Post.t) (st' : Store) :
  keyed st -> In old (posts st) -> Post.id old = id ->
  updatePost st now id post = Resolved (r, st') ->
  exists updated,
    r = Some updated
    /\ Post.id updated = Post.id old
    /\ replaced Post.id id updated (posts st) (posts st')
    /\ users st' = users st /\ videos st' = videos st
    /\ comments st' = comments st.
Proof.
  intros Hk Hold <-. unfold updatePost. through_checks.
  destruct (Pg.varchar_field 255 _) as [title|]; cbn [bind]; [|discriminate].
  rewrite (filter_key_unique Post.id (posts st) old (posts_keyed Hk) Hold).
  cbn [forallb map Query.first hd_error Post.authorId].
  destruct (_ && true); [|discriminate].
  intros H. injection H as <- <-.
  eexists. split; [reflexivity|]. split; [reflexivity|]. split.
  - unfold replaced. cbn [posts with_posts].
    apply map_ext_in. intros e He.
    destruct (String.eqb_spec (Post.id e) (Post.id old)) as [Ek|Ek];
      [|reflexivity].
    now rewrite (key_injective Post.id (posts st) e old (posts_keyed Hk) He Hold Ek).
  - repeat split.
Qed.

Lemma updateVideo_shape (st : Store) (now : timestamp) (id : string)
    (video : PartialVideo.t) (old : Video.t) (r : option Video.t)
    (st' : Store) :
  keyed st -> In old (videos st) -> Video.id old = id ->
  updateVideo st now id video = Resolved (r, st') ->
  exists updated,
    r = Some updated
    /\ Video.id updated = Video.id old
    /\ replaced Video.id id updated (videos st) (videos st')
    /\ users st' = users st /\ posts st' = posts st
    /\ comments st' = comments st.
Proof.
  intros Hk Hold <-. unfold updateVideo. through_checks.
  destruct (Pg.varchar_field 255 _) as [title|]; cbn [bind]; [|discriminate].
  rewrite (filter_key_unique Video.id (videos st) old (videos_keyed Hk) Hold).
  cbn [forallb map Query.first hd_error Video.authorId].
  destruct (_ && true); [|discriminate].
  intros H. injection H as <- <-.
  eexists. split; [reflexivity|]. split; [reflexivity|]. split.
  - unfold replaced. cbn [videos with_videos].
    apply map_ext_in. intros e He.
    destruct (String.eqb_spec (Video.id e) (Video.id old)) as [Ek|Ek];
      [|reflexivity].
    now rewrite (key_injective Video.id (videos st) e old (videos_keyed Hk) He Hold Ek).
  - repeat split.
Qed.

Section Replaced.

Context {E : Type} (key : E -> string).

Lemma replaced_keyed (id : string) (new : E) (l l' : list E) :
  key new = id -> replaced key id new l l' ->
  NoDup (map key l) -> NoDup (map key l').
Proof.
  intros Hn -> Hnd. apply keyed_map; [|exact Hnd].
  intros x. destruct (String.eqb_spec (key x) id); congruence.
Qed.

Lemma replaced_in (id : string) (new old : E) (l l' : list E) :
  replaced key id new l l' -> In old l -> key old = id -> In new l'.
Proof.
  intros -> Hold Hid. apply in_map_iff. exists old. split; [|exact Hold].
  rewrite Hid, String.eqb_refl. reflexivity.
Qed.

Lemma replaced_others (id : string) (new : E) (l l' : list E) (x : E) :
  key new = id -> replaced key id new l l' -> key x <> id ->
  (In x l' <-> In x l).
Proof.
  intros Hn -> Hx. rewrite in_map_iff. split.
  - intros (y & Hy & Hin).
    destruct (String.eqb_spec (key y) id); [|now subst y].
    subst x. contradiction.
  - intros Hin. exists x. split; [|exact Hin].
    destruct (String.eqb_spec (key x) id); [contradiction | reflexivity].
Qed.

End Replaced.

Lemma keyed_tables (st st' : Store) :
  NoDup (map User.id (users st')) -> NoDup (map Post.id (posts st')) ->
  NoDup (map Video.id (videos st')) -> NoDup (map Comment.id (comments st')) ->
  keyed st'.
Proof. intros; now split. Qed.

Lemma updatePost_hit (st : Store) (now : timestamp) (id : string)
    (post : PartialPost.t) (updated : Post.t) (st' : Store) :
  updatePost st now id post = Resolved (Some updated, st') ->
  exists old, In old (posts st) /\ Post.id old = id.
Proof.
  unfold updatePost. through_checks.
  destruct (Pg.varchar_field 255 _) as [title|]; cbn [bind]; [|discriminate].
  destruct (forallb _ _); [|discriminate].
  destruct (filter (fun p => String.eqb (Post.id p) id) (posts st))
    as [|old rest] eqn:F; [discriminate|].
  intros _. exists old.
  assert (Hin : In old (filter (fun p => String.eqb (Post.id p) id) (posts st)))
    by (rewrite F; now left).
  apply filter_In in Hin. destruct Hin as [Hin Hid].
  split; [exact Hin | now apply String.eqb_eq].
Qed.

Lemma updateVideo_hit (st : Store) (now : timestamp) (id : string)
    (video : PartialVideo.t) (updated : Video.t) (st' : Store) :
  updateVideo st now id video = Resolved (Some updated, st') ->
  exists old, In old (videos st) /\ Video.id old = id.
Proof.
  unfold updateVideo. through_checks.
  destruct (Pg.varchar_field 255 _) as [title|]; cbn [bind]; [|discriminate].
  destruct (forallb _ _); [|discriminate].
  destruct (filter (fun v => String.eqb (Video.id v) id) (videos st))
    as [|old rest] eqn:F; [discriminate|].
  intros _. exists old.
  assert (Hin : In old (filter (fun v => String.eqb (Video.id v) id) (videos st)))
    by (rewrite F; now left).
  apply filter_In in Hin. destruct Hin as [Hin Hid].
  split; [exact Hin | now apply String.eqb_eq].
Qed.

(** A listing that resolves under a whole limit had a limit below 2^63. *)
Lemma getPosts_bounded (sc : scan_order Post.t) (st : Store) (n : nat)
    (offset : option number) (rows : list PostWithAuthor) :
  getPosts sc st (Some (whole (Z.of_nat n))) offset = Resolved rows ->
  (Z.of_nat n < 2 ^ 63)%Z.
Proof.
  unfold getPosts. cbv zeta. cbn [param].
  destruct (Query.limit_clause _) as [clause|] eqn:El; [|discriminate].
  intros _. exact (limit_clause_bound n clause El).
Qed.

Lemma getVideos_bounded (sv : scan_order Video.t) (st : Store) (n : nat)
    (offset : option number) (rows : list VideoWithAuthor) :
  getVideos sv st (Some (whole (Z.of_nat n))) offset = Resolved rows ->
  (Z.of_nat n < 2 ^ 63)%Z.
Proof.
  unfold getVideos. cbv zeta. cbn [param].
  destruct (Query.limit_clause _) as [clause|] eqn:El; [|discriminate].
  intros _. exact (limit_clause_bound n clause El).
Qed.

(** A listing at least as wide as the table shows every published row. *)
Lemma full_listing_posts (sc : scan_order Post.t) (st : Store) (n : nat)
    (rows : list PostWithAuthor) :
  fair sc -> keyed st -> List.length (posts st) <= n ->
  getPosts sc st (Some (whole (Z.of_nat n))) None = Resolved rows ->
  forall p, In p (map entity rows)
            <-> In p (posts st) /\ Post.published p = Some true.
Proof.
  intros Hf Hk Hn H p. split.
  - exact (listed_is_published_post sc st _ None rows p Hf Hk H).
  - intros [Hin Hpub].
    pose proof (getPosts_bounded sc st n None rows H) as Hb.
    rewrite (getPosts_counts sc st _ None n 0 (counts_whole 20 n Hb) eq_refl)
      in H.
    unfold post_author in H.
    rewrite (pipeline_normal Post.authorId st (Query.from sc (posts st))
               (fun e => is_true (Post.published e)) Post.createdAt
               n 0 (users_keyed Hk)) in H.
    injection H as <-. rewrite entity_attach. cbn [skipn].
    set (ordering := Query.orderBy _ Post.createdAt).
    assert (P : Permutation ordering
                  (filter (visible Post.published) (posts st))).
    { etransitivity; [apply orderBy_perm | apply filter_perm, Hf]. }
    rewrite firstn_all2.
    + apply (Permutation_in _ (Permutation_sym P)). apply filter_In.
      split; [exact Hin | now apply holds_is_true].
    + rewrite (Permutation_length P).
      etransitivity; [apply filter_length_le | exact Hn].
Qed.

Lemma full_listing_videos (sv : scan_order Video.t) (st : Store) (n : nat)
    (rows : list VideoWithAuthor) :
  fair sv -> keyed st -> List.length (videos st) <= n ->
  getVideos sv st (Some (whole (Z.of_nat n))) None = Resolved rows ->
  forall v, In v (map entity rows)
            <-> In v (videos st) /\ Video.published v = Some true.
Proof.
  intros Hf Hk Hn H v. split.
  - exact (listed_is_published_video sv st _ None rows v Hf Hk H).
  - intros [Hin Hpub].
    pose proof (getVideos_bounded sv st n None rows H) as Hb.
    rewrite (getVideos_counts sv st _ None n 0 (counts_whole 20 n Hb) eq_refl)
      in H.
    unfold video_author in H.
    rewrite (pipeline_normal Video.authorId st (Query.from sv (videos st))
               (fun e => is_true (Video.published e)) Video.createdAt
               n 0 (users_keyed Hk)) in H.
    injection H as <-. rewrite entity_attach. cbn [skipn].
    set (ordering := Query.orderBy _ Video.createdAt).
    assert (P : Permutation ordering
                  (filter (visible Video.published) (videos st))).
    { etransitivity; [apply orderBy_perm | apply filter_perm, Hf]. }
    rewrite firstn_all2.
    + apply (Permutation_in _ (Permutation_sym P)). apply filter_In.
      split; [exact Hin | now apply holds_is_true].
    + rewrite (Permutation_length P).
      etransitivity; [apply filter_length_le | exact Hn].
Qed.

(** [X11] After [updatePost] or [updateVideo] resolves with an updated row,
    the lookup of that id resolves with exactly the updated row and its
    author, the lookup of every other id answers as before, and a public
    listing wide enough to hold the whole table shows the updated row exactly
    when its [published] column is now [true]: publishing lists a row and
    unpublishing removes it. *)
Theorem update_then_lookup (sc : scan_order Post.t) (sv : scan_order Video.t)
    (st : Store) (now : timestamp) (id : string)
    (post : PartialPost.t) (video : PartialVideo.t) :
  fair sc -> fair sv -> keyed st ->
  (forall updated st',
     updatePost st now id post = Resolved (Some updated, st') ->
     getPost sc st' id = Resolved (Some (attach st' Post.authorId updated))
     /\ (forall k, k <> id -> getPost sc st' k = getPost sc st k)
     /\ (forall n rows,
           List.length (posts st) <= n ->
           getPosts sc st' (Some (whole (Z.of_nat n))) None = Resolved rows ->
           (In updated (map entity rows)
            <-> Post.published updated = Some true)))
  /\ (forall updated st',
        updateVideo st now id video = Resolved (Some updated, st') ->
        getVideo sv st' id = Resolved (Some (attach st' Video.authorId updated))
        /\ (forall k, k <> id -> getVideo sv st' k = getVideo sv st k)
        /\ (forall n rows,
              List.length (videos st) <= n ->
              getVideos sv st' (Some (whole (Z.of_nat n))) None
              = Resolved rows ->
              (In updated (map entity rows)
               <-> Video.published updated = Some true))).
Proof.
  intros Hsc Hsv Hk. split.
  - intros updated st' Hres.
    pose proof (updatePost_checked st now id post _ st' Hres) as Hclean.
    destruct (updatePost_hit st now id post updated st' Hres)
      as (old & Hold & Hid).
    destruct (updatePost_shape st now id post old (Some updated) st'
                Hk Hold Hid Hres)
      as (u0 & Eu & Hsame & Hrep & Eusers & Evideos & Ecomments).
    injection Eu as <-.
    assert (Enew : Post.id updated = id) by (now rewrite Hsame).
    assert (Hk' : keyed st').
    { destruct Hk as [Ku Kp Kv Kc]. apply (keyed_tables st).
      - now rewrite Eusers.
      - exact (replaced_keyed Post.id id updated (posts st) (posts st')
                 Enew Hrep Kp).
      - now rewrite Evideos.
      - now rewrite Ecomments. }
    assert (Hin : In updated (posts st'))
      by exact (replaced_in Post.id id updated old (posts st) (posts st')
                  Hrep Hold Hid).
    split; [|split].
    + rewrite (getPost_find sc st' id Hsc Hk' Hclean). rewrite <- Enew.
      now rewrite (find_keyed_hit Post.id (posts st') updated (posts_keyed Hk') Hin).
    + intros k Hne. destruct (Text.has_nul k) eqn:Hnul.
      { now rewrite !getPost_refused. }
      rewrite (getPost_find sc st' k Hsc Hk' Hnul),
        (getPost_find sc st k Hsc Hk Hnul).
      rewrite (find_keyed_ext Post.id (posts st') (posts st) k (posts_keyed Hk)).
      * destruct (find _ (posts st)) as [p|]; [|reflexivity].
        cbn [option_map]. unfold attach, author_of. now rewrite Eusers.
      * intros x Hx.
        apply (replaced_others Post.id id updated (posts st) (posts st') x
                 Enew Hrep). congruence.
    + intros n rows Hn Hrows.
      assert (Hlen : List.length (posts st') <= n).
      { rewrite Hrep, length_map. exact Hn. }
      rewrite (full_listing_posts sc st' n rows Hsc Hk' Hlen Hrows updated).
      tauto.
  - intros updated st' Hres.
    pose proof (updateVideo_checked st now id video _ st' Hres) as Hclean.
    destruct (updateVideo_hit st now id video updated st' Hres)
      as (old & Hold & Hid).
    destruct (updateVideo_shape st now id video old (Some updated) st'
                Hk Hold Hid Hres)
      as (u0 & Eu & Hsame & Hrep & Eusers & Eposts & Ecomments).
    injection Eu as <-.
    assert (Enew : Video.id updated = id) by (now rewrite Hsame).
    assert (Hk' : keyed st').
    { destruct Hk as [Ku Kp Kv Kc]. apply (keyed_tables st).
      - now rewrite Eusers.
      - now rewrite Eposts.
      - exact (replaced_keyed Video.id id updated (videos st) (videos st')
                 Enew Hrep Kv).
      - now rewrite Ecomments. }
    assert (Hin : In updated (videos st'))
      by exact (replaced_in Video.id id updated old (videos st) (videos st')
                  Hrep Hold Hid).
    split; [|split].
    + rewrite (getVideo_find sv st' id Hsv Hk' Hclean). rewrite <- Enew.
      now rewrite (find_keyed_hit Video.id (videos st') updated
                     (videos_keyed Hk') Hin).
    + intros k Hne. destruct (Text.has_nul k) eqn:Hnul.
      { now rewrite !getVideo_refused. }
      rewrite (getVideo_find sv st' k Hsv Hk' Hnul),
        (getVideo_find sv st k Hsv Hk Hnul).
      rewrite (find_keyed_ext Video.id (videos st') (videos st) k
                 (videos_keyed Hk)).
      * destruct (find _ (videos st)) as [v|]; [|reflexivity].
        cbn [option_map]. unfold attach, author_of. now rewrite Eusers.
      * intros x Hx.
        apply (replaced_others Video.id id updated (videos st) (videos st') x
                 Enew Hrep). congruence.
    + intros n rows Hn Hrows.
      assert (Hlen : List.length (videos st') <= n).
      { rewrite Hrep, length_map. exact Hn. }
      rewrite (full_listing_videos sv st' n rows Hsv Hk' Hlen Hrows updated).
      tauto.
Qed.

Lemma update_then_lookup_witness :
  fair (@stored_order Post.t) /\ fair (@stored_order Video.t)
  /\ keyed Sample.store
  /\ exists updated st' rows,
       updatePost Sample.store 500%Z "p2" Sample.publish
       = Resolved (Some updated, st')
       /\ getPost stored_order st' "p2"
          = Resolved (Some (attach st' Post.authorId updated))
       /\ getPosts stored_order st' (Some (whole 3)) None = Resolved rows
       /\ In updated (map entity rows).
Proof.
  split; [apply stored_order_fair|]. split; [apply stored_order_fair|].
  split; [apply sample_keyed|].
  eexists. eexists. eexists. split; [vm_compute; reflexivity|].
  destruct (update_then_lookup stored_order stored_order Sample.store 500%Z
              "p2" Sample.publish Sample.retitle
              stored_order_fair stored_order_fair sample_keyed)
    as [Hpost _].
  destruct (Hpost _ _ eq_refl) as (Hget & _ & Hlist).
  split; [exact Hget|]. split; [vm_compute; reflexivity|].
  apply (Hlist 3 _ (le_n 3) eq_refl). reflexivity.
Defined.

(** ** Deleting: missing ids, fresh rows, cascades *)

Lemma store_eta (st : Store) :
  {| users := users st; posts := posts st; videos := videos st;
     comments := comments st |} = st.
Proof. now destruct st. Qed.

(** [X12] Deleting an id that no row carries (an id the store takes as a
    parameter: one without a NUL character) resolves with [false] and leaves
    the whole store exactly as it was, for posts, videos and comments
    alike. *)
Theorem delete_missing_id (st : Store) (id : string) :
  Text.has_nul id = false ->
  ((forall p, In p (posts st) -> Post.id p <> id) ->
   deletePost st id = Resolved (false, st))
  /\ ((forall v, In v (videos st) -> Video.id v <> id) ->
      deleteVideo st id = Resolved (false, st))
  /\ ((forall c, In c (comments st) -> Comment.id c <> id) ->
      deleteComment st id = Resolved (false, st)).
Proof.
  intros Hid. split; [|split]; intros Hno.
  - unfold deletePost, delete_posts. taken Hid.
    rewrite (filter_key_absent Post.id (posts st) Hno).
    cbn [List.length existsb negb removed_any rowCount Nat.ltb Nat.leb].
    rewrite (filter_all (fun _ => true)) by reflexivity.
    rewrite filter_all.
    + now rewrite store_eta.
    + intros p Hp. apply negb_true_iff, String.eqb_neq. now apply Hno.
  - unfold deleteVideo, delete_videos. taken Hid.
    rewrite (filter_key_absent Video.id (videos st) Hno).
    cbn [List.length existsb negb removed_any rowCount Nat.ltb Nat.leb].
    rewrite (filter_all (fun _ => true)) by reflexivity.
    rewrite filter_all.
    + now rewrite store_eta.
    + intros v Hv. apply negb_true_iff, String.eqb_neq. now apply Hno.
  - unfold deleteComment, delete_comments. taken Hid.
    rewrite (filter_key_absent Comment.id (comments st) Hno).
    cbn [List.length removed_any rowCount Nat.ltb Nat.leb].
    rewrite filter_all.
    + now rewrite with_comments_same.
    + intros c Hc. apply negb_true_iff, String.eqb_neq. now apply Hno.
Qed.

Lemma delete_missing_id_witness :
  Text.has_nul "p404" = false
  /\ (forall p, In p (posts Sample.store) -> Post.id p <> "p404")
  /\ deletePost Sample.store "p404" = Resolved (false, Sample.store).
Proof.
  assert (Hno : forall p, In p (posts Sample.store) -> Post.id p <> "p404")
    by (intros p [<-|[<-|[<-|[]]]]; discriminate).
  split; [reflexivity|]. split; [exact Hno|].
  destruct (delete_missing_id Sample.store "p404" eq_refl) as [Hpost _].
  exact (Hpost Hno).
Defined.

Lemma createComment_shape (st : Store) (now : timestamp) (uuid : string)
    (comment : InsertComment.t) (row : Comment.t) (st' : Store) :
  createComment st now uuid comment = Resolved (row, st') ->
  has_comment st uuid = false
  /\ has_user st (InsertComment.authorId comment) = true
  /\ st' = with_comments st (comments st ++ [row])
  /\ Comment.id row = uuid
  /\ Comment.authorId row = InsertComment.authorId comment
  /\ Comment.postId row = or_null (InsertComment.postId comment)
  /\ Comment.videoId row = or_null (InsertComment.videoId comment).
Proof.
  unfold createComment. through_checks.
  cbn [Comment.id Comment.authorId Comment.postId Comment.videoId].
  destruct (has_comment st uuid); [discriminate|].
  destruct (has_user st (InsertComment.authorId comment)); [|discriminate].
  destruct (references (has_post st) (or_null (InsertComment.postId comment)));
    [|discriminate].
  destruct (references (has_video st) (or_null (InsertComment.videoId comment)));
    [|discriminate].
  cbn [andb negb]. intros H. injection H as <- <-. repeat split.
Qed.

Lemma createComment_checked (st : Store) (now : timestamp) (uuid : string)
    (comment : InsertComment.t) (row : Comment.t) (st' : Store) :
  createComment st now uuid comment = Resolved (row, st') ->
  storable (uuid :: comment_texts comment).
Proof.
  unfold createComment, storable.
  destruct (forallb Pg.text _); cbn [negb]; [reflexivity | discriminate].
Qed.

Lemma filter_fresh_append {E : Type} (key : E -> string) (l : list E)
    (new : E) :
  existsb (fun x => String.eqb (key x) (key new)) l = false ->
  filter (fun x => String.eqb (key x) (key new)) (l ++ [new]) = [new]
  /\ filter (fun x => negb (String.eqb (key x) (key new))) (l ++ [new]) = l.
Proof.
  intros Hfresh.
  pose proof (absent_key key l Hfresh) as Hno.
  rewrite !filter_app. cbn [filter]. rewrite String.eqb_refl. cbn [negb].
  rewrite (filter_key_absent key l Hno), app_nil_r. split; [reflexivity|].
  apply filter_all. intros x Hx. apply negb_true_iff, String.eqb_neq.
  now apply Hno.
Qed.

(** [X13] Creating a row and then deleting the id it was given resolves
    with [true] and restores the store to what it was before the create, for
    posts, videos and comments (for posts and videos, in a store whose
    comments reference existing rows). *)
Theorem create_then_delete (st : Store) (now : timestamp) (uuid : string) :
  referenced st ->
  (forall post row st1,
     createPost st now uuid post = Resolved (row, st1) ->
     deletePost st1 (Post.id row) = Resolved (true, st))
  /\ (forall video row st1,
        createVideo st now uuid video = Resolved (row, st1) ->
        deleteVideo st1 (Video.id row) = Resolved (true, st))
  /\ (forall comment row st1,
        createComment st now uuid comment = Resolved (row, st1) ->
        deleteComment st1 (Comment.id row) = Resolved (true, st)).
Proof.
  intros [Rp Rv Rc]. split; [|split].
  - intros post row st1 Hc.
    destruct (createPost_shape st now uuid post row st1 Hc)
      as (Hfresh & _ & -> & Hrow).
    assert (Eid : Post.id row = uuid) by (now destruct Hrow).
    assert (Hclean : Text.has_nul (Post.id row) = false).
    { rewrite Eid.
      apply (storable_in _ uuid (createPost_checked st now uuid post row _ Hc)).
      now left. }
    rewrite <- Eid in Hfresh.
    destruct (filter_fresh_append Post.id (posts st) row Hfresh) as [Fg Fk].
    unfold deletePost, delete_posts. taken Hclean.
    cbn [posts users videos comments with_posts].
    rewrite Fg, Fk.
    cbn [List.length existsb removed_any rowCount Nat.ltb Nat.leb].
    rewrite filter_all; [now rewrite store_eta|].
    intros c Hcin. rewrite orb_false_r. apply negb_true_iff.
    destruct (Sql.holds (str_eq (Comment.postId c) (Some (Post.id row))))
      eqn:Hh; [|reflexivity].
    apply holds_str_eq in Hh. destruct (Rc c Hcin) as (_ & Hp & _).
    rewrite Hh in Hp. cbn [references] in Hp. unfold has_post in *. congruence.
  - intros video row st1 Hc.
    destruct (createVideo_shape st now uuid video row st1 Hc)
      as (Hfresh & _ & -> & Hrow).
    assert (Eid : Video.id row = uuid) by (now destruct Hrow).
    assert (Hclean : Text.has_nul (Video.id row) = false).
    { rewrite Eid.
      apply (storable_in _ uuid
               (createVideo_checked st now uuid video row _ Hc)).
      now left. }
    rewrite <- Eid in Hfresh.
    destruct (filter_fresh_append Video.id (videos st) row Hfresh) as [Fg Fk].
    unfold deleteVideo, delete_videos. taken Hclean.
    cbn [posts users videos comments with_videos].
    rewrite Fg, Fk.
    cbn [List.length existsb removed_any rowCount Nat.ltb Nat.leb].
    rewrite filter_all; [now rewrite store_eta|].
    intros c Hcin. rewrite orb_false_r. apply negb_true_iff.
    destruct (Sql.holds (str_eq (Comment.videoId c) (Some (Video.id row))))
      eqn:Hh; [|reflexivity].
    apply holds_str_eq in Hh. destruct (Rc c Hcin) as (_ & _ & Hv).
    rewrite Hh in Hv. cbn [references] in Hv. unfold has_video in *. congruence.
  - intros comment row st1 Hc.
    pose proof (createComment_checked st now uuid comment row st1 Hc) as Ht.
    destruct (createComment_shape st now uuid comment row st1 Hc)
      as (Hfresh & _ & -> & Eid & _).
    assert (Hclean : Text.has_nul (Comment.id row) = false).
    { rewrite Eid. apply (storable_in _ uuid Ht). now left. }
    rewrite <- Eid in Hfresh.
    destruct (filter_fresh_append Comment.id (comments st) row Hfresh)
      as [Fg Fk].
    unfold deleteComment, delete_comments, with_comments. taken Hclean.
    cbn [posts users videos comments].
    rewrite Fg, Fk. cbn [List.length removed_any rowCount Nat.ltb Nat.leb].
    now rewrite store_eta.
Qed.

Lemma sample_referenced : referenced Sample.store.
Proof.
  split.
  - intros p [<-|[<-|[<-|[]]]]; reflexivity.
  - intros v [<-|[]]; reflexivity.
  - intros c [<-|[]]. repeat split.
Qed.

Lemma create_then_delete_witness :
  referenced Sample.store
  /\ exists row st1,
       createPost Sample.store 900%Z "p7" Sample.recipe = Resolved (row, st1)
       /\ deletePost st1 "p7" = Resolved (true, Sample.store).
Proof.
  split; [apply sample_referenced|].
  eexists. eexists. split; [vm_compute; reflexivity|].
  destruct (create_then_delete Sample.store 900%Z "p7" sample_referenced)
    as [Hpost _].
  exact (Hpost Sample.recipe _ _ eq_refl).
Defined.

Lemma no_listing_without_rows (sc : scan_order Comment.t) (us : list User.t)
    (table : list Comment.t) (c : Comment.t -> Sql.cond) :
  fair sc ->
  (forall x, In x table -> Sql.holds (c x) = false) ->
  map withAuthor
    (Query.orderBy
       (Query.where_
          (Query.leftJoin (Query.from sc table) us comment_author)
          (fun row => c (fst row)))
       (fun row => Comment.createdAt (fst row)))
  = [].
Proof.
  intros Hf Hno. unfold Query.where_. rewrite filter_none; [reflexivity|].
  intros row Hrow. apply Hno.
  apply (Permutation_in _ (Hf table)).
  apply (leftJoin_rows Comment.authorId us (Query.from sc table)).
  now apply in_map.
Qed.

(** [X14] Deleting a post takes its comments with it: afterwards
    [getCommentsByPost] of that id resolves with the empty list, the comments
    table holds exactly the comments that were not under that post, and users
    and videos are untouched.  Likewise for a video and [getCommentsByVideo].
    (In a store whose comments reference existing rows.) *)
Theorem delete_cascades_to_comments (sc : scan_order Comment.t) (st : Store)
    (id : string) (b : bool) (st' : Store) :
  fair sc -> referenced st ->
  (deletePost st id = Resolved (b, st') ->
   getCommentsByPost sc st' id = Resolved []
   /\ (forall c, In c (comments st')
                 <-> In c (comments st) /\ Comment.postId c <> Some id)
   /\ users st' = users st /\ videos st' = videos st)
  /\ (deleteVideo st id = Resolved (b, st') ->
      getCommentsByVideo sc st' id = Resolved []
      /\ (forall c, In c (comments st')
                    <-> In c (comments st) /\ Comment.videoId c <> Some id)
      /\ users st' = users st /\ posts st' = posts st).
Proof.
  intros Hf [Rp Rv Rc]. split.
  - intros H. unfold deletePost in H.
    destruct (Pg.text id) eqn:Htext; cbn [negb] in H; [|discriminate H].
    injection H as _ <-. cbn [users posts videos comments].
    assert (Hmem : forall c,
               In c (filter
                       (fun c => negb
                          (existsb
                             (fun p => Sql.holds
                                (str_eq (Comment.postId c) (Some (Post.id p))))
                             (filter (fun p => String.eqb (Post.id p) id)
                                (posts st))))
                       (comments st))
               <-> In c (comments st) /\ Comment.postId c <> Some id).
    { intros c. rewrite filter_In, negb_true_iff. split.
      - intros [Hin Hstay]. split; [exact Hin|]. intros Hpid.
        destruct (Rc c Hin) as (_ & Hp & _). rewrite Hpid in Hp.
        cbn [references] in Hp. apply (present_spec Post.id) in Hp.
        destruct Hp as (p & Hp & Hid).
        apply not_true_iff_false in Hstay. apply Hstay.
        apply existsb_exists. exists p. split.
        + apply filter_In. split; [exact Hp | now apply String.eqb_eq].
        + apply holds_str_eq. now rewrite Hid.
      - intros [Hin Hne]. split; [exact Hin|].
        apply not_true_iff_false. intros Hex.
        apply existsb_exists in Hex. destruct Hex as (p & Hp & Hh).
        apply filter_In in Hp. destruct Hp as [_ Hid].
        apply String.eqb_eq in Hid. apply holds_str_eq in Hh.
        apply Hne. now rewrite Hh, Hid. }
    split; [|split; [exact Hmem | split; reflexivity]].
    unfold getCommentsByPost. rewrite Htext. cbn [negb]. f_equal.
    apply (no_listing_without_rows sc _ _
             (fun c => str_eq (Comment.postId c) (Some id)) Hf).
    intros c Hc. apply Hmem in Hc. destruct Hc as [_ Hne].
    apply not_true_iff_false. intros Hh. apply holds_str_eq in Hh.
    contradiction.
  - intros H. unfold deleteVideo in H.
    destruct (Pg.text id) eqn:Htext; cbn [negb] in H; [|discriminate H].
    injection H as _ <-. cbn [users posts videos comments].
    assert (Hmem : forall c,
               In c (filter
                       (fun c => negb
                          (existsb
                             (fun v => Sql.holds
                                (str_eq (Comment.videoId c) (Some (Video.id v))))
                             (filter (fun v => String.eqb (Video.id v) id)
                                (videos st))))
                       (comments st))
               <-> In c (comments st) /\ Comment.videoId c <> Some id).
    { intros c. rewrite filter_In, negb_true_iff. split.
      - intros [Hin Hstay]. split; [exact Hin|]. intros Hvid.
        destruct (Rc c Hin) as (_ & _ & Hv). rewrite Hvid in Hv.
        cbn [references] in Hv. apply (present_spec Video.id) in Hv.
        destruct Hv as (v & Hv & Hid).
        apply not_true_iff_false in Hstay. apply Hstay.
        apply existsb_exists. exists v. split.
        + apply filter_In. split; [exact Hv | now apply String.eqb_eq].
        + apply holds_str_eq. now rewrite Hid.
      - intros [Hin Hne]. split; [exact Hin|].
        apply not_true_iff_false. intros Hex.
        apply existsb_exists in Hex. destruct Hex as (v & Hv & Hh).
        apply filter_In in Hv. destruct Hv as [_ Hid].
        apply String.eqb_eq in Hid. apply holds_str_eq in Hh.
        apply Hne. now rewrite Hh, Hid. }
    split; [|split; [exact Hmem | split; reflexivity]].
    unfold getCommentsByVideo. rewrite Htext. cbn [negb]. f_equal.
    apply (no_listing_without_rows sc _ _
             (fun c => str_eq (Comment.videoId c) (Some id)) Hf).
    intros c Hc. apply Hmem in Hc. destruct Hc as [_ Hne].
    apply not_true_iff_false. intros Hh. apply holds_str_eq in Hh.
    contradiction.
Qed.

Lemma delete_cascades_to_comments_witness :
  fair (@stored_order Comment.t) /\ referenced Sample.store
  /\ In Sample.remark (comments Sample.store)
  /\ exists st',
       deletePost Sample.store "p1" = Resolved (true, st')
       /\ getCommentsByPost stored_order st' "p1" = Resolved []
       /\ ~ In Sample.remark (comments st').
Proof.
  split; [apply stored_order_fair|]. split; [apply sample_referenced|].
  split; [simpl; tauto|].
  eexists. split; [vm_compute; reflexivity|].
  lazymatch goal with
  | |- getCommentsByPost _ ?s _ = _ /\ _ =>
      destruct (delete_cascades_to_comments stored_order Sample.store "p1"
                  true s stored_order_fair sample_referenced) as [Hpost _]
  end.
  destruct (Hpost eq_refl) as (Hlist & Hmem & _).
  split; [exact Hlist|].
  intros Hin. apply Hmem in Hin. destruct Hin as [_ Hne]. now apply Hne.
Defined.

(** ** Commenting, then listing *)

Lemma keyed_with_comments (st : Store) (row : Comment.t) :
  keyed st -> has_comment st (Comment.id row) = false ->
  keyed (with_comments st (comments st ++ [row])).
Proof.
  intros [Ku Kp Kv Kc] Hfresh. split; cbn; try assumption.
  exact (keyed_append Comment.id (comments st) row Kc Hfresh).
Qed.

(** [X15] After [createComment] resolves with a row, the comment is listed,
    with its author, by [getCommentsByPost] of the post it names and by
    [getCommentsByVideo] of the video it names; a comment that names both is
    in both listings, and it is in no listing of a parent it does not
    name. *)
Theorem createComment_then_listed (sc : scan_order Comment.t) (st : Store)
    (now : timestamp) (uuid : string) (comment : InsertComment.t)
    (row : Comment.t) (st' : Store) :
  fair sc -> keyed st ->
  createComment st now uuid comment = Resolved (row, st') ->
  exists u,
    In u (users st) /\ User.id u = InsertComment.authorId comment
    /\ (forall p, InsertComment.postId comment = Supplied (Some p) ->
        exists rows,
          getCommentsByPost sc st' p = Resolved rows
          /\ In {| entity := row; author := Some u |} rows)
    /\ (forall v, InsertComment.videoId comment = Supplied (Some v) ->
        exists rows,
          getCommentsByVideo sc st' v = Resolved rows
          /\ In {| entity := row; author := Some u |} rows)
    /\ (forall parent rows,
          InsertComment.postId comment <> Supplied (Some parent) ->
          getCommentsByPost sc st' parent = Resolved rows ->
          ~ In row (map entity rows))
    /\ (forall parent rows,
          InsertComment.videoId comment <> Supplied (Some parent) ->
          getCommentsByVideo sc st' parent = Resolved rows ->
          ~ In row (map entity rows)).
Proof.
  intros Hf Hk Hc.
  pose proof (createComment_checked st now uuid comment row st' Hc) as Ht.
  destruct (createComment_shape st now uuid comment row st' Hc)
    as (Hfresh & Hau & -> & Eid & Eauthor & Epost & Evideo).
  apply (present_spec User.id) in Hau. destruct Hau as (u & Hu & Huid).
  assert (Hk' : keyed (with_comments st (comments st ++ [row]))).
  { apply keyed_with_comments; [exact Hk | now rewrite Eid]. }
  assert (Hrow : In row (comments (with_comments st (comments st ++ [row]))))
    by (cbn; apply in_or_app; right; now left).
  assert (Hview : attach (with_comments st (comments st ++ [row]))
                    Comment.authorId row
                  = {| entity := row; author := Some u |}).
  { unfold attach. f_equal. rewrite Eauthor, <- Huid.
    exact (author_of_hit st u (users_keyed Hk) Hu). }
  exists u. split; [exact Hu|]. split; [exact Huid|].
  split; [|split; [|split]].
  - intros p Hp.
    assert (Hclean : Text.has_nul p = false).
    { apply (storable_in _ p Ht). unfold comment_texts. rewrite Hp.
      cbn [field_texts opt_text app]. right. right. right. now left. }
    eexists. split; [unfold getCommentsByPost; taken Hclean; reflexivity|].
    unfold comment_author.
    destruct (select_rows Comment.id Comment.authorId Comment.createdAt sc
                (with_comments st (comments st ++ [row]))
                (comments (with_comments st (comments st ++ [row])))
                (fun c => str_eq (Comment.postId c) (Some p))
                Hf (users_keyed Hk') (comments_keyed Hk'))
      as (Hmem & _ & _ & Hatt).
    rewrite Hatt, <- Hview. apply in_map. apply Hmem. split; [exact Hrow|].
    apply holds_str_eq. rewrite Epost, Hp. reflexivity.
  - intros v Hv.
    assert (Hclean : Text.has_nul v = false).
    { apply (storable_in _ v Ht). unfold comment_texts. rewrite Hv.
      cbn [field_texts opt_text app]. right. right. right.
      apply in_or_app. right. now left. }
    eexists. split; [unfold getCommentsByVideo; taken Hclean; reflexivity|].
    unfold comment_author.
    destruct (select_rows Comment.id Comment.authorId Comment.createdAt sc
                (with_comments st (comments st ++ [row]))
                (comments (with_comments st (comments st ++ [row])))
                (fun c => str_eq (Comment.videoId c) (Some v))
                Hf (users_keyed Hk') (comments_keyed Hk'))
      as (Hmem & _ & _ & Hatt).
    rewrite Hatt, <- Hview. apply in_map. apply Hmem. split; [exact Hrow|].
    apply holds_str_eq. rewrite Evideo, Hv. reflexivity.
  - intros parent rows Hne Hrows Hin.
    destruct (@getCommentsByPost_resolved sc _ parent rows Hrows) as [_ ->].
    unfold comment_author in Hin.
    destruct (select_rows Comment.id Comment.authorId Comment.createdAt sc
                (with_comments st (comments st ++ [row]))
                (comments (with_comments st (comments st ++ [row])))
                (fun c => str_eq (Comment.postId c) (Some parent))
                Hf (users_keyed Hk') (comments_keyed Hk'))
      as (Hmem & _).
    apply Hmem in Hin. destruct Hin as [_ Hh]. apply holds_str_eq in Hh.
    apply Hne. rewrite Epost in Hh.
    destruct (InsertComment.postId comment) as [|o]; cbn in Hh; congruence.
  - intros parent rows Hne Hrows Hin.
    destruct (@getCommentsByVideo_resolved sc _ parent rows Hrows) as [_ ->].
    unfold comment_author in Hin.
    destruct (select_rows Comment.id Comment.authorId Comment.createdAt sc
                (with_comments st (comments st ++ [row]))
                (comments (with_comments st (comments st ++ [row])))
                (fun c => str_eq (Comment.videoId c) (Some parent))
                Hf (users_keyed Hk') (comments_keyed Hk'))
      as (Hmem & _).
    apply Hmem in Hin. destruct Hin as [_ Hh]. apply holds_str_eq in Hh.
    apply Hne. rewrite Evideo in Hh.
    destruct (InsertComment.videoId comment) as [|o]; cbn in Hh; congruence.
Qed.

Lemma createComment_then_listed_witness :
  fair (@stored_order Comment.t) /\ keyed Sample.store
  /\ exists row st' byPost byVideo,
       createComment Sample.store 500%Z "c2" Sample.both_parents
       = Resolved (row, st')
       /\ getCommentsByPost stored_order st' "p1" = Resolved byPost
       /\ In {| entity := row; author := Some Sample.bob |} byPost
       /\ getCommentsByVideo stored_order st' "v1" = Resolved byVideo
       /\ In {| entity := row; author := Some Sample.bob |} byVideo.
Proof.
  split; [apply stored_order_fair|]. split; [apply sample_keyed|].
  destruct (createComment Sample.store 500%Z "c2" Sample.both_parents)
    as [[row st']|e] eqn:Hc; [|vm_compute in Hc; discriminate Hc].
  destruct (createComment_then_listed stored_order Sample.store 500%Z "c2"
              Sample.both_parents row st' stored_order_fair sample_keyed Hc)
    as (u & Hu & Huid & HbyPost & HbyVideo & _).
  assert (Eu : u = Sample.bob).
  { destruct Hu as [<-|[<-|[]]]; [discriminate | reflexivity]. }
  subst u.
  destruct (HbyPost "p1" eq_refl) as (r1 & H1 & I1).
  destruct (HbyVideo "v1" eq_refl) as (r2 & H2 & I2).
  exists row, st', r1, r2. repeat split; assumption.
Defined.

(** ** What holds of every store the repository reaches *)

(** [X16] Unique primary keys and resolvable references are kept by every
    request the repository resolves, so they hold of every store reached from
    the empty one: no write method leaves two rows with one id, a post, video
    or comment whose [authorId] names no user, or a comment whose [postId] or
    [videoId] names no row. *)
Theorem integrity_is_invariant :
  (forall st now uuid r st',
     keyed st -> referenced st -> run st now uuid r = Resolved st' ->
     keyed st' /\ referenced st')
  /\ (forall st, reachable st -> keyed st /\ referenced st).
Proof.
  split.
  - intros st now uuid r st' Hk Hr Hrun.
    exact (@run_consistent st now uuid r st' Hk Hr Hrun).
  - intros st Hreach. exact (reachable_consistent Hreach).
Qed.

Lemma integrity_is_invariant_witness :
  exists st1 st2,
    run Sample.empty 1000%Z "g1" (UpsertUserReq Sample.carol_first)
    = Resolved st1
    /\ run st1 1100%Z "p1" (CreatePostReq Sample.greeting) = Resolved st2
    /\ reachable st2 /\ keyed st2 /\ referenced st2.
Proof.
  eexists. eexists. split; [reflexivity|].
  lazymatch goal with
  | |- run ?s1 _ _ _ = _ /\ _ =>
      assert (R1 : reachable s1)
        by exact (@reach_step Sample.empty s1 1000%Z "g1"
                    (UpsertUserReq Sample.carol_first) reach_empty eq_refl)
  end.
  split; [reflexivity|].
  lazymatch goal with
  | |- reachable ?s2 /\ _ =>
      assert (R2 : reachable s2)
        by exact (@reach_step _ s2 1100%Z "p1"
                    (CreatePostReq Sample.greeting) R1 eq_refl)
  end.
  split; [exact R2|].
  destruct integrity_is_invariant as [_ Hinv].
  exact (Hinv _ R2).
Defined.

Section JoinedAuthors.

Context {E : Type} (authorId : E -> string).

Lemma joined_author_present (sc : scan_order E) (st : Store) (table : list E)
    (rows : list (E * option User.t)) :
  fair sc -> NoDup (map User.id (users st)) ->
  (forall e, In e table -> has_user st (authorId e) = true) ->
  (forall row, In row rows ->
     In row (Query.leftJoin (Query.from sc table) (users st)
               (fun e u => str_eq (Some (authorId e)) (Some (User.id u))))) ->
  Forall (authored authorId) (map withAuthor rows).
Proof using Type.
  intros Hf Hu Href Hsub. apply Forall_forall. intros r Hr.
  apply in_map_iff in Hr. destruct Hr as (row & <- & Hrow).
  apply Hsub in Hrow. rewrite (leftJoin_keyed authorId st _ Hu) in Hrow.
  apply in_map_iff in Hrow. destruct Hrow as (e & <- & He).
  apply (Permutation_in _ (Hf table)) in He.
  specialize (Href e He). unfold has_user in Href.
  unfold authored, withAuthor, non_null. cbn [fst snd entity author].
  unfold author_of.
  destruct (find (fun u => String.eqb (User.id u) (authorId e)) (users st))
    as [u|] eqn:F.
  - exists u. split; [reflexivity|]. apply find_some in F.
    now apply String.eqb_eq.
  - exfalso. apply existsb_exists in Href. destruct Href as (u & Hin & Hid).
    apply (find_none _ _ F) in Hin. congruence.
Qed.

End JoinedAuthors.

Ltac through_clauses H :=
  repeat first
    [ apply limit_incl in H
    | apply offset_incl in H
    | apply orderBy_incl in H
    | apply where_incl in H ].

Ltac authors_of_listing authorId table Hf Hu Href :=
  lazymatch goal with
  | |- Forall _ (map withAuthor ?rows) =>
      apply (joined_author_present authorId _ _ table rows Hf Hu Href);
      let row := fresh "row" in
      let Hrow := fresh "Hrow" in
      intros row Hrow; through_clauses Hrow; exact Hrow
  end.

(** A read that resolves has passed the checks of its parameters. *)
Ltac open_read :=
  cbv zeta;
  try (destruct (Pg.text _); cbn [negb]; [|discriminate]);
  try (destruct (Query.limit_clause _) as [?lim|]; cbn [bind]; [|discriminate];
       destruct (Query.offset_clause _) as [?off|]; cbn [bind];
       [|discriminate]).

(** [X17] In every store the repository reaches, every row returned by a
    read method with a join carries its author: the [author] key holds the
    user whose id is the row's [authorId].  The value the non-null assertion
    [row.users!] vouches for is indeed never null there. *)
Theorem reachable_rows_authored (st : Store) :
  reachable st ->
  (forall sc limit offset rows, fair sc ->
     getPosts sc st limit offset = Resolved rows ->
     Forall (authored Post.authorId) rows)
  /\ (forall sc category limit offset rows, fair sc ->
        getPostsByCategory sc st category limit offset = Resolved rows ->
        Forall (authored Post.authorId) rows)
  /\ (forall sc authorId rows, fair sc ->
        getPostsByAuthor sc st authorId = Resolved rows ->
        Forall (authored Post.authorId) rows)
  /\ (forall fold sc query rows, fair sc ->
        searchPosts fold sc st query = Resolved rows ->
        Forall (authored Post.authorId) rows)
  /\ (forall sc id r, fair sc ->
        getPost sc st id = Resolved (Some r) -> authored Post.authorId r)
  /\ (forall sv limit offset rows, fair sv ->
        getVideos sv st limit offset = Resolved rows ->
        Forall (authored Video.authorId) rows)
  /\ (forall sv category limit offset rows, fair sv ->
        getVideosByCategory sv st category limit offset = Resolved rows ->
        Forall (authored Video.authorId) rows)
  /\ (forall sv authorId rows, fair sv ->
        getVideosByAuthor sv st authorId = Resolved rows ->
        Forall (authored Video.authorId) rows)
  /\ (forall fold sv query rows, fair sv ->
        searchVideos fold sv st query = Resolved rows ->
        Forall (authored Video.authorId) rows)
  /\ (forall sv id r, fair sv ->
        getVideo sv st id = Resolved (Some r) -> authored Video.authorId r)
  /\ (forall sc postId rows, fair sc ->
        getCommentsByPost sc st postId = Resolved rows ->
        Forall (authored Comment.authorId) rows)
  /\ (forall sc videoId rows, fair sc ->
        getCommentsByVideo sc st videoId = Resolved rows ->
        Forall (authored Comment.authorId) rows).
Proof.
  intros Hreach.
  destruct (reachable_consistent Hreach) as [Hk [Rp Rv Rc]].
  pose proof (users_keyed Hk) as Hu.
  assert (Rc' : forall c, In c (comments st) ->
                          has_user st (Comment.authorId c) = true)
    by (intros c Hc; now destruct (Rc c Hc)).
  repeat split.
  - intros sc limit offset rows Hf. unfold getPosts. open_read.
    intros H. injection H as <-. unfold post_author.
    authors_of_listing Post.authorId (posts st) Hf Hu Rp.
  - intros sc category limit offset rows Hf. unfold getPostsByCategory.
    open_read. intros H. injection H as <-. unfold post_author.
    authors_of_listing Post.authorId (posts st) Hf Hu Rp.
  - intros sc authorId rows Hf. unfold getPostsByAuthor. open_read.
    intros H. injection H as <-. unfold post_author.
    authors_of_listing Post.authorId (posts st) Hf Hu Rp.
  - intros fold sc query rows Hf. unfold searchPosts. open_read.
    destruct (Like.contains_pattern fold query) as [pat|]; [|discriminate].
    intros H. injection H as <-. unfold post_author.
    authors_of_listing Post.authorId (posts st) Hf Hu Rp.
  - intros sc id r Hf. unfold getPost, post_author. open_read.
    destruct (Query.where_ _ _) as [|row rest] eqn:W; [discriminate|].
    intros H. injection H as <-.
    assert (Hall : Forall (authored Post.authorId) (map withAuthor [row])).
    { apply (joined_author_present Post.authorId sc st (posts st) [row] Hf Hu Rp).
      intros x [<-|[]].
      assert (Hin : In row (row :: rest)) by now left.
      rewrite <- W in Hin. now apply where_incl in Hin. }
    now inversion Hall.
  - intros sv limit offset rows Hf. unfold getVideos. open_read.
    intros H. injection H as <-. unfold video_author.
    authors_of_listing Video.authorId (videos st) Hf Hu Rv.
  - intros sv category limit offset rows Hf. unfold getVideosByCategory.
    open_read. intros H. injection H as <-. unfold video_author.
    authors_of_listing Video.authorId (videos st) Hf Hu Rv.
  - intros sv authorId rows Hf. unfold getVideosByAuthor. open_read.
    intros H. injection H as <-. unfold video_author.
    authors_of_listing Video.authorId (videos st) Hf Hu Rv.
  - intros fold sv query rows Hf. unfold searchVideos. open_read.
    destruct (Like.contains_pattern fold query) as [pat|]; [|discriminate].
    intros H. injection H as <-. unfold video_author.
    authors_of_listing Video.authorId (videos st) Hf Hu Rv.
  - intros sv id r Hf. unfold getVideo, video_author. open_read.
    destruct (Query.where_ _ _) as [|row rest] eqn:W; [discriminate|].
    intros H. injection H as <-.
    assert (Hall : Forall (authored Video.authorId) (map withAuthor [row])).
    { apply (joined_author_present Video.authorId sv st (videos st) [row] Hf Hu Rv).
      intros x [<-|[]].
      assert (Hin : In row (row :: rest)) by now left.
      rewrite <- W in Hin. now apply where_incl in Hin. }
    now inversion Hall.
  - intros sc postId rows Hf. unfold getCommentsByPost. open_read.
    intros H. injection H as <-. unfold comment_author.
    authors_of_listing Comment.authorId (comments st) Hf Hu Rc'.
  - intros sc videoId rows Hf. unfold getCommentsByVideo. open_read.
    intros H. injection H as <-. unfold comment_author.
    authors_of_listing Comment.authorId (comments st) Hf Hu Rc'.
Qed.

Lemma blog_reachable : reachable Sample.blog.
Proof.
  apply (@reach_step
           (with_users Sample.empty [Sample.carol]) Sample.blog 1100%Z "p1"
           (CreatePostReq Sample.greeting)); [|reflexivity].
  apply (@reach_step Sample.empty _ 1000%Z "g1"
           (UpsertUserReq Sample.carol_first)); [|reflexivity].
  apply reach_empty.
Qed.

Lemma reachable_rows_authored_witness :
  reachable Sample.blog /\ fair (@stored_order Post.t)
  /\ exists rows,
       getPosts stored_order Sample.blog None None = Resolved rows
       /\ Forall (authored Post.authorId) rows
       /\ List.length rows = 1.
Proof.
  split; [apply blog_reachable|]. split; [apply stored_order_fair|].
  eexists. split; [vm_compute; reflexivity|].
  destruct (reachable_rows_authored Sample.blog blog_reachable) as [Hposts _].
  split; [|reflexivity].
  exact (Hposts stored_order None None _ stored_order_fair eq_refl).
Defined.

(** ** E-mail addresses *)

Lemma email_taken_spec (others : list User.t) (e : string) :
  email_taken others (Some e) = true
  <-> exists u, In u others /\ User.email u = Some e.
Proof.
  cbn [email_taken]. rewrite existsb_exists. split.
  - intros (u & Hu & Hm). exists u. split; [exact Hu|].
    destruct (User.email u) as [y|]; [|discriminate].
    apply String.eqb_eq in Hm. now subst y.
  - intros (u & Hu & Hm). exists u. split; [exact Hu|].
    rewrite Hm. apply String.eqb_refl.
Qed.

Lemma upsertUser_emails (st : Store) (now : timestamp) (uuid : string)
    (userData : UpsertUser.t) (row : User.t) (st' : Store) :
  keyed st -> emails_unique st ->
  upsertUser st now uuid userData = Resolved (row, st') ->
  emails_unique st'.
Proof.
  intros Hk Huniq. unfold upsertUser. through_checks.
  destruct (forallb Pg.date _); cbn [negb]; [|discriminate].
  cbn [User.id User.email].
  set (i := spread (UpsertUser.id userData) uuid).
  destruct (filter (fun u => String.eqb (User.id u) i) (users st))
    as [|old rest] eqn:F.
  - destruct (email_taken (users st) _) eqn:Hfree; [discriminate|].
    intros H. injection H as <- <-.
    intros u1 u2 e H1 H2 E1 E2. cbn [users with_users] in H1, H2.
    apply in_app_or in H1. apply in_app_or in H2.
    destruct H1 as [H1|[<-|[]]], H2 as [H2|[<-|[]]].
    + exact (Huniq u1 u2 e H1 H2 E1 E2).
    + exfalso. cbn [User.email] in E2. rewrite E2 in Hfree.
      apply not_true_iff_false in Hfree. apply Hfree.
      apply email_taken_spec. now exists u1.
    + exfalso. cbn [User.email] in E1. rewrite E1 in Hfree.
      apply not_true_iff_false in Hfree. apply Hfree.
      apply email_taken_spec. now exists u2.
    + reflexivity.
  - destruct (email_taken _ _) eqn:Hfree; [discriminate|].
    intros H. injection H as <- <-.
    assert (Hold : In old (users st) /\ User.id old = i).
    { assert (Hin : In old (filter (fun u => String.eqb (User.id u) i) (users st)))
        by (rewrite F; now left).
      apply filter_In in Hin. destruct Hin as [Hin Hid].
      split; [exact Hin | now apply String.eqb_eq]. }
    destruct Hold as [Hold Hoid].
    assert (Hsame : forall x, In x (users st) -> User.id x = i -> x = old).
    { intros x Hx Hxi.
      apply (key_injective User.id (users st) x old (users_keyed Hk) Hx Hold).
      congruence. }
    assert (Hclash : forall x e, In x (users st) -> User.id x <> i ->
                                 User.email x = Some e ->
                                 spread (UpsertUser.email userData) (User.email old)
                                 <> Some e).
    { intros x e Hx Hxi Ex Eold. cbn [User.email] in Hfree.
      rewrite Eold in Hfree. apply not_true_iff_false in Hfree. apply Hfree.
      apply email_taken_spec. exists x. split; [|exact Ex].
      apply filter_In. split; [exact Hx|].
      now apply negb_true_iff, String.eqb_neq. }
    intros u1 u2 e H1 H2 E1 E2. cbn [users with_users] in H1, H2.
    apply in_map_iff in H1. apply in_map_iff in H2.
    destruct H1 as (x1 & <- & Hx1). destruct H2 as (x2 & <- & Hx2).
    destruct (String.eqb_spec (User.id x1) i) as [I1|I1];
      destruct (String.eqb_spec (User.id x2) i) as [I2|I2].
    + rewrite (Hsame x1 Hx1 I1), (Hsame x2 Hx2 I2). reflexivity.
    + exfalso. rewrite (Hsame x1 Hx1 I1) in E1. cbn [User.email] in E1.
      exact (Hclash x2 e Hx2 I2 E2 E1).
    + exfalso. rewrite (Hsame x2 Hx2 I2) in E2. cbn [User.email] in E2.
      exact (Hclash x1 e Hx1 I1 E1 E2).
    + exact (Huniq x1 x2 e Hx1 Hx2 E1 E2).
Qed.

Lemma run_users_or_upsert (st : Store) (now : timestamp) (uuid : string)
    (r : request) (st' : Store) :
  run st now uuid r = Resolved st' ->
  users st' = users st
  \/ exists d row, r = UpsertUserReq d
                   /\ upsertUser st now uuid d = Resolved (row, st').
Proof.
  destruct r; cbn [run].
  - destruct (upsertUser st now uuid userData) as [[row st0]|e] eqn:H;
      [|discriminate].
    intros E0. injection E0 as <-. right. now exists userData, row.
  - destruct (createPost st now uuid post) as [[row st0]|e] eqn:H;
      [|discriminate].
    intros E0. injection E0 as <-.
    destruct (createPost_shape st now uuid post row st0 H) as (_ & _ & -> & _).
    now left.
  - unfold updatePost. through_checks.
    destruct (Pg.varchar_field 255 _) as [title|]; cbn [bind]; [|discriminate].
    destruct (forallb _ _); [|discriminate].
    intros E0. injection E0 as <-. now left.
  - unfold deletePost. destruct (Pg.text id); cbn [negb]; [|discriminate].
    intros E0. injection E0 as <-. now left.
  - destruct (createVideo st now uuid video) as [[row st0]|e] eqn:H;
      [|discriminate].
    intros E0. injection E0 as <-.
    destruct (createVideo_shape st now uuid video row st0 H)
      as (_ & _ & -> & _).
    now left.
  - unfold updateVideo. through_checks.
    destruct (Pg.varchar_field 255 _) as [title|]; cbn [bind]; [|discriminate].
    destruct (forallb _ _); [|discriminate].
    intros E0. injection E0 as <-. now left.
  - unfold deleteVideo. destruct (Pg.text id); cbn [negb]; [|discriminate].
    intros E0. injection E0 as <-. now left.
  - destruct (createComment st now uuid comment) as [[row st0]|e] eqn:H;
      [|discriminate].
    intros E0. injection E0 as <-.
    destruct (createComment_shape st now uuid comment row st0 H)
      as (_ & _ & -> & _).
    now left.
  - unfold deleteComment. destruct (Pg.text id); cbn [negb]; [|discriminate].
    intros E0. injection E0 as <-. now left.
Qed.

(** [X18] No request ever leaves two users with the same e-mail address: an
    upsert (of data the store takes as parameters: texts without a NUL
    character, dates in the years 1 to 9999) whose e-mail is in use by
    another row is rejected with a unique-key violation, so in every store
    reached from the empty one two user rows with the same non-NULL e-mail
    are the same row. *)
Theorem emails_stay_unique :
  (forall st now uuid userData old other e,
     storable (upsert_id userData uuid :: user_texts userData) ->
     datable (user_dates userData) ->
     In old (users st) -> User.id old = upsert_id userData uuid ->
     In other (users st) -> User.id other <> User.id old ->
     User.email other = Some e ->
     spread (UpsertUser.email userData) (User.email old) = Some e ->
     keyed st ->
     upsertUser st now uuid userData = Rejected UniqueViolation)
  /\ (forall st now uuid userData other e,
        storable (upsert_id userData uuid :: user_texts userData) ->
        datable (user_dates userData) ->
        (forall u, In u (users st) -> User.id u <> upsert_id userData uuid) ->
        In other (users st) -> User.email other = Some e ->
        UpsertUser.email userData = Supplied (Some e) ->
        upsertUser st now uuid userData = Rejected UniqueViolation)
  /\ (forall st, reachable st -> emails_unique st).
Proof.
  split; [|split].
  - intros st now uuid userData old other e Ht Hd Hold Hoid Hother Hne Eo
      Enew Hk.
    unfold upsertUser. cbn [User.id User.email].
    unfold upsert_id in Ht. accepted Ht.
    unfold datable in Hd. rewrite Hd. cbn [negb].
    unfold upsert_id in Hoid. rewrite <- Hoid.
    rewrite (filter_key_unique User.id (users st) old (users_keyed Hk) Hold).
    rewrite Enew.
    replace (email_taken _ (Some e)) with true; [reflexivity|].
    symmetry. apply email_taken_spec. exists other. split; [|exact Eo].
    apply filter_In. split; [exact Hother|].
    now apply negb_true_iff, String.eqb_neq.
  - intros st now uuid userData other e Ht Hd Hno Hother Eo Enew.
    unfold upsertUser. cbn [User.id User.email].
    unfold upsert_id in Ht. accepted Ht.
    unfold datable in Hd. rewrite Hd. cbn [negb].
    unfold upsert_id in Hno.
    rewrite (filter_key_absent User.id (users st) Hno).
    unfold or_null. rewrite Enew. cbn [spread].
    replace (email_taken _ (Some e)) with true; [reflexivity|].
    symmetry. apply email_taken_spec. now exists other.
  - intros st Hreach.
    induction Hreach as [|st st' now uuid r Hreach IH Hrun].
    + intros u1 u2 e [].
    + destruct (reachable_consistent Hreach) as [Hk _].
      destruct (run_users_or_upsert st now uuid r st' Hrun)
        as [Eusers|(d & row & -> & Hup)].
      * unfold emails_unique. rewrite Eusers. exact IH.
      * exact (upsertUser_emails st now uuid d row st' Hk IH Hup).
Qed.

Lemma emails_stay_unique_witness :
  keyed Sample.store
  /\ storable (upsert_id Sample.alice_as_bob "g"
               :: user_texts Sample.alice_as_bob)
  /\ datable (user_dates Sample.alice_as_bob)
  /\ In Sample.alice (users Sample.store)
  /\ In Sample.bob (users Sample.store)
  /\ upsertUser Sample.store 700%Z "g" Sample.alice_as_bob
     = Rejected UniqueViolation
  /\ reachable Sample.blog /\ emails_unique Sample.blog.
Proof.
  split; [apply sample_keyed|]. split; [reflexivity|]. split; [reflexivity|].
  split; [simpl; tauto|]. split; [simpl; tauto|].
  destruct emails_stay_unique as (Hclash & _ & Hreach).
  split; [|split; [apply blog_reachable | exact (Hreach _ blog_reachable)]].
  apply (Hclash Sample.store 700%Z "g" Sample.alice_as_bob
           Sample.alice Sample.bob "bob@example.org").
  - reflexivity.
  - reflexivity.
  - simpl; tauto.
  - reflexivity.
  - simpl; tauto.
  - discriminate.
  - reflexivity.
  - reflexivity.
  - apply sample_keyed.
Defined.

(** ** The newest post comes first *)

Lemma sorted_head {R : Type} (key : R -> option timestamp) (l : list R)
    (x : R) (a : timestamp) :
  newest_first key l -> In x l -> key x = Some a ->
  (forall y, In y l -> y = x \/ exists b, key y = Some b /\ (b < a)%Z) ->
  exists rest, l = x :: rest.
Proof.
  intros Hs Hx Hkx Hold. destruct l as [|h rest]; [contradiction|].
  destruct (Hold h (or_introl eq_refl)) as [->|(b & Hb & Hlt)].
  - now exists rest.
  - exfalso. destruct Hx as [->|Hx].
    + rewrite Hkx in Hb. injection Hb as ->. lia.
    + inversion Hs as [|? ? _ Hh]; subst.
      rewrite Forall_forall in Hh. specialize (Hh x Hx).
      unfold before in Hh. rewrite Hb, Hkx in Hh. cbn in Hh.
      apply Z.leb_le in Hh. lia.
Qed.

(** [X19] A post created as published at a time later than the [createdAt]
    of every published post already stored is the first row of [getPosts],
    for no offset and every [limit] that is a positive whole number below
    2^63, or left out: the listing is newest first. *)
Theorem fresh_post_heads_listing (sc : scan_order Post.t) (st : Store)
    (now : timestamp) (uuid : string) (post : InsertPost.t)
    (row : Post.t) (st' : Store) (limit : option number) (l : nat) :
  fair sc -> keyed st ->
  createPost st now uuid post = Resolved (row, st') ->
  InsertPost.published post = Supplied (Some true) ->
  (forall p, In p (posts st) -> Post.published p = Some true ->
             exists t, Post.createdAt p = Some t /\ (t < now)%Z) ->
  counts 20 limit l -> 0 < l ->
  exists rest,
    getPosts sc st' limit None
    = Resolved (attach st' Post.authorId row :: rest).
Proof.
  intros Hf Hk Hc Hpub Holder Hl Hpos.
  destruct (createPost_shape st now uuid post row st' Hc)
    as (Hfresh & _ & -> & Hrow).
  destruct Hrow as (Eid & _ & _ & _ & _ & _ & _ & _ & Hp & Hcreated & _).
  rewrite Hpub in Hp. cbn [patched] in Hp.
  rewrite (getPosts_counts sc _ limit None l 0 Hl eq_refl).
  unfold post_author.
  rewrite (pipeline_normal Post.authorId _ _
             (fun e => is_true (Post.published e)) Post.createdAt
             l 0 (users_keyed Hk)).
  cbn [skipn users posts with_posts].
  set (ordering := Query.orderBy _ Post.createdAt).
  assert (P : Permutation ordering
                (filter (visible Post.published) (posts st ++ [row]))).
  { etransitivity; [apply orderBy_perm | apply filter_perm, Hf]. }
  destruct (sorted_head Post.createdAt ordering row now) as (rest & ->).
  - apply orderBy_sorted.
  - apply (Permutation_in _ (Permutation_sym P)). apply filter_In. split.
    + apply in_or_app. right. now left.
    + now apply holds_is_true.
  - exact Hcreated.
  - intros y Hy. apply (Permutation_in _ P) in Hy. apply filter_In in Hy.
    destruct Hy as [Hy Hv]. apply holds_is_true in Hv.
    apply in_app_or in Hy. destruct Hy as [Hy|[<-|[]]].
    + right. exact (Holder y Hy Hv).
    + now left.
  - destruct l as [|n]; [lia|]. cbn [firstn map]. eexists. reflexivity.
Qed.

Lemma fresh_post_heads_listing_witness :
  fair (@rev Post.t) /\ keyed Sample.store
  /\ counts 20 (Some (whole 1)) 1 /\ 0 < 1
  /\ exists row st' rest,
       createPost Sample.store 900%Z "p7" Sample.headline = Resolved (row, st')
       /\ getPosts (@rev Post.t) st' (Some (whole 1)) None
          = Resolved (attach st' Post.authorId row :: rest).
Proof.
  assert (Hl : counts 20 (Some (whole 1)) 1) by (split; reflexivity).
  split; [apply rev_fair|]. split; [apply sample_keyed|].
  split; [exact Hl|]. split; [lia|].
  destruct (createPost Sample.store 900%Z "p7" Sample.headline)
    as [[row st']|e] eqn:Hc; [|vm_compute in Hc; discriminate Hc].
  destruct (fresh_post_heads_listing (@rev Post.t) Sample.store 900%Z "p7"
              Sample.headline row st' (Some (whole 1)) 1
              rev_fair sample_keyed Hc eq_refl)
    as (rest & Hrest).
  - intros p [<-|[<-|[<-|[]]]] Hpub; try discriminate.
    + exists 100%Z. split; [reflexivity | lia].
    + exists 300%Z. split; [reflexivity | lia].
  - exact Hl.
  - lia.
  - exists row, st', rest. split; [reflexivity | exact Hrest].
Defined.

(** ** Deleting leaves the other rows alone *)

(** [X21] Deleting a post or a video changes no other lookup: [getPost] or
    [getVideo] of every other id answers after the delete as it did
    before. *)
Theorem delete_leaves_others (sc : scan_order Post.t) (sv : scan_order Video.t)
    (st : Store) (id : string) (b : bool) (st' : Store) :
  fair sc -> fair sv -> keyed st ->
  (deletePost st id = Resolved (b, st') ->
   forall k, k <> id -> getPost sc st' k = getPost sc st k)
  /\ (deleteVideo st id = Resolved (b, st') ->
      forall k, k <> id -> getVideo sv st' k = getVideo sv st k).
Proof.
  intros Hsc Hsv Hk. split.
  - intros H k Hne. unfold deletePost in H.
    destruct (Pg.text id); cbn [negb] in H; [|discriminate H].
    injection H as _ <-.
    destruct (Text.has_nul k) eqn:Hnul.
    { now rewrite !getPost_refused. }
    set (st1 := {| users := users st;
                   posts := filter (fun p => negb (String.eqb (Post.id p) id))
                              (posts st);
                   videos := videos st;
                   comments := _ |}).
    assert (Hk1 : keyed st1).
    { destruct Hk as [Ku Kp Kv Kc]. split; cbn; try assumption;
        now apply keyed_filter. }
    rewrite (getPost_find sc st1 k Hsc Hk1 Hnul),
      (getPost_find sc st k Hsc Hk Hnul).
    rewrite (find_keyed_ext Post.id (posts st1) (posts st) k (posts_keyed Hk)).
    + reflexivity.
    + intros x Hx. cbn [posts st1].
      rewrite (in_filter_negb_key Post.id id (posts st) x).
      split; [tauto|]. intros Hin. split; [exact Hin | congruence].
  - intros H k Hne. unfold deleteVideo in H.
    destruct (Pg.text id); cbn [negb] in H; [|discriminate H].
    injection H as _ <-.
    destruct (Text.has_nul k) eqn:Hnul.
    { now rewrite !getVideo_refused. }
    set (st1 := {| users := users st;
                   posts := posts st;
                   videos := filter (fun v => negb (String.eqb (Video.id v) id))
                               (videos st);
                   comments := _ |}).
    assert (Hk1 : keyed st1).
    { destruct Hk as [Ku Kp Kv Kc]. split; cbn; try assumption;
        now apply keyed_filter. }
    rewrite (getVideo_find sv st1 k Hsv Hk1 Hnul),
      (getVideo_find sv st k Hsv Hk Hnul).
    rewrite (find_keyed_ext Video.id (videos st1) (videos st) k
               (videos_keyed Hk)).
    + reflexivity.
    + intros x Hx. cbn [videos st1].
      rewrite (in_filter_negb_key Video.id id (videos st) x).
      split; [tauto|]. intros Hin. split; [exact Hin | congruence].
Qed.

Lemma delete_leaves_others_witness :
  fair (@stored_order Post.t) /\ fair (@stored_order Video.t)
  /\ keyed Sample.store
  /\ exists st',
       deletePost Sample.store "p1" = Resolved (true, st')
       /\ getPost stored_order st' "p3" = getPost stored_order Sample.store "p3".
Proof.
  split; [apply stored_order_fair|]. split; [apply stored_order_fair|].
  split; [apply sample_keyed|].
  eexists. split; [vm_compute; reflexivity|].
  lazymatch goal with
  | |- getPost _ ?s _ = _ =>
      destruct (delete_leaves_others stored_order stored_order Sample.store
                  "p1" true s stored_order_fair stored_order_fair sample_keyed)
        as [Hpost _]
  end.
  apply (Hpost eq_refl). discriminate.
Defined.

(** ** Timestamps are always there *)

Lemma dated_elsewhere (st st' : Store) :
  posts st' = posts st -> videos st' = videos st ->
  comments st' = comments st -> dated st -> dated st'.
Proof.
  intros Ep Ev Ec [Dp Dv Dc]. split.
  - now rewrite Ep.
  - now rewrite Ev.
  - now rewrite Ec.
Qed.

Lemma run_dated (st : Store) (now : timestamp) (uuid : string) (r : request)
    (st' : Store) :
  dated st -> run st now uuid r = Resolved st' -> dated st'.
Proof.
  intros Hd. pose proof Hd as [Dp Dv Dc]. destruct r; cbn [run].
  - destruct (upsertUser st now uuid userData) as [[row st0]|e] eqn:H;
      [|discriminate].
    intros E0. injection E0 as <-.
    destruct (upsertUser_elsewhere st now uuid userData H) as (Ep & Ev & Ec & _).
    exact (dated_elsewhere st st0 Ep Ev Ec Hd).
  - destruct (createPost st now uuid post) as [[row st0]|e] eqn:H;
      [|discriminate].
    intros E0. injection E0 as <-.
    destruct (createPost_shape st now uuid post row st0 H) as (_ & _ & -> & Hrow).
    destruct Hrow as (_ & _ & _ & _ & _ & _ & _ & _ & _ & Hc & Hu).
    split; cbn [posts videos comments with_posts]; try assumption.
    intros p Hp. apply in_app_or in Hp. destruct Hp as [Hp|[<-|[]]].
    + now apply Dp.
    + rewrite Hc, Hu. split; discriminate.
  - unfold updatePost. through_checks.
    destruct (Pg.varchar_field 255 _) as [title|]; cbn [bind]; [|discriminate].
    destruct (forallb _ _); [|discriminate].
    cbn [settle]. intros E0. injection E0 as <-.
    split; cbn [posts videos comments with_posts]; try assumption.
    intros p Hp. apply in_map_iff in Hp. destruct Hp as (x & <- & Hx).
    destruct (String.eqb (Post.id x) id); [|now apply Dp].
    cbn [Post.createdAt Post.updatedAt].
    split; [exact (proj1 (Dp x Hx)) | discriminate].
  - unfold deletePost. destruct (Pg.text id); cbn [negb]; [|discriminate].
    intros E0. injection E0 as <-.
    split; cbn [posts videos comments]; try assumption.
    + intros p Hp. apply filter_In in Hp. now apply Dp.
    + intros c Hc. apply filter_In in Hc. now apply Dc.
  - destruct (createVideo st now uuid video) as [[row st0]|e] eqn:H;
      [|discriminate].
    intros E0. injection E0 as <-.
    destruct (createVideo_shape st now uuid video row st0 H)
      as (_ & _ & -> & Hrow).
    destruct Hrow as (_ & _ & _ & _ & _ & _ & _ & _ & _ & _ & Hc & Hu).
    split; cbn [posts videos comments with_videos]; try assumption.
    intros v Hv. apply in_app_or in Hv. destruct Hv as [Hv|[<-|[]]].
    + now apply Dv.
    + rewrite Hc, Hu. split; discriminate.
  - unfold updateVideo. through_checks.
    destruct (Pg.varchar_field 255 _) as [title|]; cbn [bind]; [|discriminate].
    destruct (forallb _ _); [|discriminate].
    cbn [settle]. intros E0. injection E0 as <-.
    split; cbn [posts videos comments with_videos]; try assumption.
    intros v Hv. apply in_map_iff in Hv. destruct Hv as (x & <- & Hx).
    destruct (String.eqb (Video.id x) id); [|now apply Dv].
    cbn [Video.createdAt Video.updatedAt].
    split; [exact (proj1 (Dv x Hx)) | discriminate].
  - unfold deleteVideo. destruct (Pg.text id); cbn [negb]; [|discriminate].
    intros E0. injection E0 as <-.
    split; cbn [posts videos comments]; try assumption.
    + intros v Hv. apply filter_In in Hv. now apply Dv.
    + intros c Hc. apply filter_In in Hc. now apply Dc.
  - unfold createComment. through_checks.
    destruct (has_comment _ _); [discriminate|].
    destruct (negb _); [discriminate|].
    cbn [settle]. intros E0. injection E0 as <-.
    split; cbn [posts videos comments with_comments]; try assumption.
    intros c Hc. apply in_app_or in Hc. destruct Hc as [Hc|[<-|[]]].
    + now apply Dc.
    + cbn. split; discriminate.
  - unfold deleteComment. destruct (Pg.text id); cbn [negb]; [|discriminate].
    intros E0. injection E0 as <-.
    split; cbn [posts videos comments with_comments]; try assumption.
    intros c Hc. apply filter_In in Hc. now apply Dc.
Qed.

(** [X22] Although [createdAt] and [updatedAt] are nullable columns, every
    post, video and comment in a store the repository reaches carries both:
    creation stamps them and no update or delete clears them ([InsertPost],
    [InsertVideo], [InsertComment] and their partial forms have no timestamp
    key).  Listings by [createdAt] therefore never meet a NULL date there. *)
Theorem content_rows_are_dated (st : Store) :
  reachable st -> dated st.
Proof.
  induction 1 as [|st st' now uuid r _ IH Hrun].
  - split; intros ? [].
  - exact (run_dated st now uuid r st' IH Hrun).
Qed.

Lemma content_rows_are_dated_witness :
  reachable Sample.blog /\ dated Sample.blog.
Proof.
  split; [apply blog_reachable|].
  exact (content_rows_are_dated Sample.blog blog_reachable).
Defined.
